(** * llama_jni: the handle registry and the greedy generation driver

    A shallow embedding of [src/native/llama_jni.cpp], the JNI bridge between
    [com.traycer.llama.LlamaWrapper] and the llama.cpp inference engine, and
    the properties of it that the specification states.

    The engine ([llama.h]) is not part of the bridge: it is taken as a record
    of operations ([Engine]); what the bridge relies on of the engine's
    documented behaviour is stated, where it is needed, as a hypothesis of the
    theorem that needs it.  The global mutexes are not modelled: calls are
    taken in the order in which they are linearised by [g_contexts_mutex]. *)

From Stdlib Require Import ZArith Lia Floats.
From stdpp Require Import base option list gmap strings.
From stdpp Require Import sorting pretty.

Local Open Scope Z_scope.

(** ** Machine integers *)

(** The value of [x] as a signed [w]-bit integer (two's complement). *)
Definition wrap_signed (w : Z) (x : Z) : Z :=
  (x + 2 ^ (w - 1)) mod 2 ^ w - 2 ^ (w - 1).

(** [static_cast<int>], [jint], [int32_t]. *)
Definition to_int32 (x : Z) : Z := wrap_signed 32 x.

(** [jlong]. *)
Definition to_jlong (x : Z) : Z := wrap_signed 64 x.

(** [uint32_t]: the type of what [llama_n_ctx] returns. *)
Definition to_uint32 (x : Z) : Z := x mod 2 ^ 32.

Definition JLONG_MAX : Z := 2 ^ 63 - 1.

(** ** Scores: the order of IEEE 754 comparison

    A [float] of the source is a binary32; each is a binary64 of the same
    value, and [>] compares the values, so a score is a primitive float here
    and [a > b] is [PrimFloat.ltb b a]. *)

Definition float_gt (a b : float) : bool := PrimFloat.ltb b a.

Global Instance float_inhabited : Inhabited float := populate PrimFloat.zero.

(** The place of a float that is not NaN in the order: its class (sign and
    infinity), then exponent and mantissa, both negated below zero. *)
Definition SFkey (f : spec_float) : Z * Z * Z :=
  match f with
  | S754_zero _ => (0, 0, 0)
  | S754_infinity s => (if s then -2 else 2, 0, 0)
  | S754_nan => (0, 0, 0)
  | S754_finite s m e => if s then (-1, - e, - Z.pos m) else (1, e, Z.pos m)
  end.

Definition key_lt (a b : Z * Z * Z) : Prop :=
  let '(a1, a2, a3) := a in
  let '(b1, b2, b3) := b in
  a1 < b1 ∨ (a1 = b1 ∧ (a2 < b2 ∨ (a2 = b2 ∧ a3 < b3))).

Definition key_le (a b : Z * Z * Z) : Prop :=
  let '(a1, a2, a3) := a in
  let '(b1, b2, b3) := b in
  a1 < b1 ∨ (a1 = b1 ∧ (a2 < b2 ∨ (a2 = b2 ∧ a3 <= b3))).

Definition SFis_nan (f : spec_float) : bool :=
  match f with S754_nan => true | _ => false end.

Definition float_key (x : float) : Z * Z * Z := SFkey (Prim2SF x).

(** ** The engine and the JNI environment *)

Definition llama_token : Type := Z.

(** A Java string, by the characters [GetStringUTFChars] would give. *)
Definition jstring : Type := string.

(** [JNIEnv]: [GetStringUTFChars] may return [nullptr], and what it returns
    is read as a C string; [NewStringUTF] makes the Java string of the
    characters of the C string it is given and is not a field. *)
Record JNIEnv : Type := {
  GetStringUTFChars : jstring → option string
}.

(** [std::string::c_str] read as a C string: the characters before the first
    zero byte. *)
Fixpoint c_str (s : string) : string :=
  match s with
  | EmptyString => EmptyString
  | String a s => if Ascii.eqb a Ascii.zero then EmptyString else String a (c_str s)
  end.

(** The fields of [llama_model_params] and [llama_context_params] that the
    bridge sets; what the engine's defaults give to the others is the engine's. *)
Record llama_model_params : Type := {
  use_mmap : bool;
  use_mlock : bool
}.

Record llama_context_params : Type := {
  n_ctx : Z;
  n_batch : Z;
  n_threads : Z;
  n_threads_batch : Z
}.

(** [llama_batch]: the arrays keep the capacity [llama_batch_init] gave them. *)
Record llama_batch : Type := {
  batch_n_tokens : Z;
  batch_token : list llama_token;
  batch_pos : list Z;
  batch_n_seq_id : list Z;
  batch_seq_id : list (list Z);
  batch_logits : list bool
}.

(** The entry points of [llama.h] that the bridge calls.  A [llama_context]
    is the state of the engine's context; [llama_decode] and
    [llama_memory_clear] return the state they leave.  [llama_memory_clear c]
    is [llama_memory_clear(llama_get_memory(c), true)].  [llama_tokenize]
    returns its result and the tokens it wrote; [llama_token_to_piece] its
    result and the characters it wrote. *)
Record Engine : Type := {
  llama_model : Type;
  llama_vocab : Type;
  llama_context : Type;
  llama_model_load_from_file : string → llama_model_params → option llama_model;
  llama_init_from_model : llama_model → llama_context_params → option llama_context;
  llama_model_get_vocab : llama_model → llama_vocab;
  llama_vocab_n_tokens : llama_vocab → Z;
  llama_vocab_is_eog : llama_vocab → llama_token → bool;
  llama_n_ctx : llama_context → Z;
  llama_memory_clear : llama_context → llama_context;
  llama_tokenize : llama_vocab → string → Z → bool → bool → Z * list llama_token;
  llama_token_to_piece : llama_vocab → llama_token → Z → Z → bool → Z * string;
  llama_decode : llama_context → llama_batch → Z * llama_context;
  llama_get_logits_ith : llama_context → Z → option (list float)
}.

(** Where the C++ runtime may throw inside [nativeLoadModel]'s [try]. *)
Inductive load_point : Type :=
  | LoadPathString   (* std::string path = jstring_to_string(...) *)
  | LoadMakeUnique   (* std::make_unique<LlamaContext>() *)
  | LoadReserve      (* ctx->tokens.reserve(ctx_params.n_ctx) *)
  | LoadInsert.      (* g_contexts[handle] = std::move(ctx) *)

(** Where it may throw inside [nativeGenerateText]'s [try]; the loop's
    points carry the iteration. *)
Inductive gen_point : Type :=
  | GenInputString           (* std::string input = jstring_to_string(...) *)
  | GenResize                (* ctx->tokens.resize(max_input_tokens) *)
  | GenAppend (i : nat)      (* result.append(piece, piece_len) *)
  | GenPushBack (i : nat).   (* ctx->tokens.push_back(new_token) *)

(** Which [catch] takes it. *)
Inductive cpp_exception : Type :=
  | StdException
  | UnknownException.

Section Bridge.

Context (E : Engine).

(** ** Session state *)

Record LlamaContext : Type := {
  model : option (llama_model E);
  context : option (llama_context E);
  tokens : list llama_token;
  rng : Z
}.

(** What the bridge asks the engine to set up or release, in order. *)
Inductive engine_event : Type :=
  | EvBackendInit
  | EvFree (c : llama_context E)
  | EvModelFree (m : llama_model E).

(** [LlamaContext::cleanup]: the releases it makes and the object it leaves. *)
Definition LlamaContext_cleanup (ctx : LlamaContext) : list engine_event * LlamaContext :=
  (match context ctx with Some c => [EvFree c] | None => [] end ++
   match model ctx with Some m => [EvModelFree m] | None => [] end,
   {| model := None; context := None; tokens := []; rng := rng ctx |}).

(** [~LlamaContext]. *)
Definition LlamaContext_destroy (ctx : LlamaContext) : list engine_event :=
  fst (LlamaContext_cleanup ctx).

(** The globals of the bridge; [engine_log] records the engine set-up and
    release calls made so far. *)
Record globals : Type := {
  g_contexts : gmap Z LlamaContext;
  g_next_handle : Z;
  g_backend_initialized : bool;
  engine_log : list engine_event
}.

Definition initial_globals : globals :=
  {| g_contexts := ∅; g_next_handle := 1; g_backend_initialized := false;
     engine_log := [] |}.

Definition log_events (st : globals) (evs : list engine_event) : globals :=
  {| g_contexts := g_contexts st; g_next_handle := g_next_handle st;
     g_backend_initialized := g_backend_initialized st;
     engine_log := engine_log st ++ evs |}.

Definition set_contexts (st : globals) (m : gmap Z LlamaContext) : globals :=
  {| g_contexts := m; g_next_handle := g_next_handle st;
     g_backend_initialized := g_backend_initialized st;
     engine_log := engine_log st |}.

Definition set_next_handle (st : globals) (h : Z) : globals :=
  {| g_contexts := g_contexts st; g_next_handle := h;
     g_backend_initialized := g_backend_initialized st;
     engine_log := engine_log st |}.

(** ** Helpers *)

Definition jstring_to_string (env : JNIEnv) (jstr : option jstring) : string :=
  match jstr with
  | None => ""
  | Some s =>
      match GetStringUTFChars env s with
      | None => ""
      | Some chars => c_str chars
      end
  end.

Definition string_to_jstring (env : option JNIEnv) (str : string) : option jstring :=
  match env with
  | None => None
  | Some _ => Some (c_str str)
  end.

Definition get_context (st : globals) (handle : Z) : option LlamaContext :=
  g_contexts st !! handle.

(** One turn of the scan of [sample_token_greedy]. *)
Definition greedy_step (logits : list float) (best : Z * float) (i : nat) : Z * float :=
  if float_gt (logits !!! i) (snd best) then (Z.of_nat i, logits !!! i) else best.

(** [for (int i = 1; i < n_vocab; i++)] from [best_token = 0]. *)
Definition greedy_scan (logits : list float) (n_vocab : Z) : Z * float :=
  foldl (greedy_step logits) (0, logits !!! 0%nat) (seq 1 (Z.to_nat n_vocab - 1)).

Definition sample_token_greedy (ctx : option LlamaContext) (logits : option (list float))
    : llama_token :=
  match ctx, logits with
  | Some c, Some lg =>
      match model c, context c with
      | Some m, Some _ =>
          let vocab := llama_model_get_vocab E m in
          let n_vocab := llama_vocab_n_tokens E vocab in
          fst (greedy_scan lg n_vocab)
      | _, _ => 0
      end
  | _, _ => 0
  end.

(** ** nativeLoadModel *)

(** The thread counts of the context parameters ([n_threads],
    [n_threads_batch], both [int32_t]) for the [threads] argument;
    [hw_threads] is what [std::thread::hardware_concurrency()] returns, an
    [unsigned int], which the assignment converts to the type of the field. *)
Definition load_threads (threads : Z) (hw_threads : N) : Z * Z :=
  if 0 <? threads then (threads, threads)
  else if threads =? -1 then
    let hw_threads := to_uint32 (Z.of_N hw_threads) in
    let n := to_int32 (if 0 <? hw_threads then hw_threads else 4) in
    (n, n)
  else (4, 4).

Definition load_context_params (contextSize threads : Z) (hw_threads : N)
    : llama_context_params :=
  {| n_ctx := contextSize;
     n_batch := Z.min 512 (contextSize ÷ 4);
     n_threads := fst (load_threads threads hw_threads);
     n_threads_batch := snd (load_threads threads hw_threads) |}.

(** The lazy initialisation of the backend under [g_init_mutex]. *)
Definition backend_init (st : globals) : globals :=
  if g_backend_initialized st then st
  else {| g_contexts := g_contexts st; g_next_handle := g_next_handle st;
          g_backend_initialized := true;
          engine_log := engine_log st ++ [EvBackendInit] |}.

(** [g_contexts[handle] = std::move(ctx)]: a session already stored under
    [handle] is destroyed by the assignment. *)
Definition store_context (st : globals) (handle : Z) (ctx : LlamaContext) : globals :=
  let evs := match g_contexts st !! handle with
             | Some old => LlamaContext_destroy old
             | None => []
             end in
  set_contexts (log_events st evs) (<[handle := ctx]> (g_contexts st)).

(** [seed] is what [std::random_device] gives the new session's generator;
    [throws p] says that the runtime throws at [p] in this call.  A [return]
    or an exception after [ctx] is made destroys it, which releases what it
    holds. *)
Definition nativeLoadModel (st : globals) (env : option JNIEnv) (modelPath : option jstring)
    (contextSize threads : Z) (hw_threads : N) (seed : Z) (throws : load_point → bool)
    : Z * globals :=
  let st := backend_init st in
  match env, modelPath with
  | Some jni, Some _ =>
      if throws LoadPathString then (0, st) else
      let path := jstring_to_string jni modelPath in
      if String.eqb path "" then (0, st) else
      let contextSize := if contextSize <=? 0 then 2048 else contextSize in
      if throws LoadMakeUnique then (0, st) else
      let ctx := {| model := None; context := None; tokens := []; rng := seed |} in
      let model_params := {| use_mmap := true; use_mlock := false |} in
      match llama_model_load_from_file E path model_params with
      | None => (0, log_events st (LlamaContext_destroy ctx))
      | Some m =>
          let ctx := {| model := Some m; context := context ctx; tokens := tokens ctx;
                        rng := rng ctx |} in
          let ctx_params := load_context_params contextSize threads hw_threads in
          match llama_init_from_model E m ctx_params with
          | None => (0, log_events st (LlamaContext_destroy ctx))
          | Some c =>
              let ctx := {| model := model ctx; context := Some c; tokens := tokens ctx;
                            rng := rng ctx |} in
              if throws LoadReserve then (0, log_events st (LlamaContext_destroy ctx)) else
              let handle := g_next_handle st in
              let st := set_next_handle st (to_jlong (handle + 1)) in
              if throws LoadInsert then (0, log_events st (LlamaContext_destroy ctx)) else
              (handle, store_context st handle ctx)
          end
      end
  | _, _ => (0, st)
  end.

(** A load request fails when the environment pointer or the path is null,
    the path is empty, the engine fails to load the model or to make the
    context, or the runtime throws. *)
Definition load_fails (env : option JNIEnv) (modelPath : option jstring)
    (contextSize threads : Z) (hw_threads : N) (throws : load_point → bool) : bool :=
  match env, modelPath with
  | Some jni, Some _ =>
      let path := jstring_to_string jni modelPath in
      let contextSize := if contextSize <=? 0 then 2048 else contextSize in
      throws LoadPathString || String.eqb path "" || throws LoadMakeUnique ||
      match llama_model_load_from_file E path {| use_mmap := true; use_mlock := false |} with
      | None => true
      | Some m =>
          match llama_init_from_model E m (load_context_params contextSize threads hw_threads) with
          | None => true
          | Some _ => throws LoadReserve || throws LoadInsert
          end
      end
  | _, _ => true
  end.

(** ** nativeGenerateText *)

(** [std::vector::resize] to [n] elements, new ones value-initialised. *)
Definition vector_resize (v : list llama_token) (n : Z) : list llama_token :=
  resize (Z.to_nat n) 0 v.

(** What the buffer [v] holds after the engine wrote [written] from its
    start: the engine writes through [data()], the size stays. *)
Definition buffer_write (written v : list llama_token) : list llama_token :=
  take (length v) (written ++ drop (length written) v).

(** The batch after [llama_batch_init(n_tokens, 0, 1)] and the loop that
    fills it from [ctx->tokens], with the last position marked for logits. *)
Definition prompt_batch (toks : list llama_token) (n_tokens : Z) : llama_batch :=
  let n := Z.to_nat n_tokens in
  {| batch_n_tokens := n_tokens;
     batch_token := take n toks;
     batch_pos := seqZ 0 n_tokens;
     batch_n_seq_id := replicate n 1;
     batch_seq_id := replicate n [0];
     batch_logits :=
       if 0 <? n_tokens then <[Z.to_nat (n_tokens - 1) := true]> (replicate n false)
       else replicate n false |}.

(** The batch reused for one new token at position [pos]. *)
Definition next_batch (b : llama_batch) (new_token : llama_token) (pos : Z) : llama_batch :=
  {| batch_n_tokens := 1;
     batch_token := <[0%nat := new_token]> (batch_token b);
     batch_pos := <[0%nat := pos]> (batch_pos b);
     batch_n_seq_id := <[0%nat := 1]> (batch_n_seq_id b);
     batch_seq_id := alter (λ ids, <[0%nat := 0]> ids) 0%nat (batch_seq_id b);
     batch_logits := <[0%nat := true]> (batch_logits b) |}.

(** The state the decode loop works on: the session's context and token
    history, the batch and the text so far. *)
Record gen_state : Type := {
  gs_context : llama_context E;
  gs_tokens : list llama_token;
  gs_batch : llama_batch;
  gs_result : string
}.

Inductive loop_outcome : Type :=
  | LoopContinue
  | LoopBreak
  | LoopThrow (e : cpp_exception).

(** The session object as the loop sees it. *)
Definition session_of (ctx : LlamaContext) (c : llama_context E) (toks : list llama_token)
    : LlamaContext :=
  {| model := model ctx; context := Some c; tokens := toks; rng := rng ctx |}.

(** The body of [for (int i = 0; i < max_gen_tokens; i++)]. *)
Definition generate_body (ctx : LlamaContext) (vocab : llama_vocab E)
    (throws : gen_point → option cpp_exception)
    (i : nat) (s : gen_state) : loop_outcome * gen_state :=
  match llama_get_logits_ith E (gs_context s) (batch_n_tokens (gs_batch s) - 1) with
  | Some logits =>
      let new_token :=
        sample_token_greedy (Some (session_of ctx (gs_context s) (gs_tokens s))) (Some logits) in
      if llama_vocab_is_eog E vocab new_token then (LoopBreak, s) else
      let '(piece_len, piece) := llama_token_to_piece E vocab new_token 256 0 false in
      match (if 0 <? piece_len then throws (GenAppend i) else None) with
      | Some e => (LoopThrow e, s)
      | None =>
          let result :=
            if 0 <? piece_len
            then (gs_result s +:+ String.substring 0 (Z.to_nat piece_len) piece)%string
            else gs_result s in
          let batch := next_batch (gs_batch s) new_token (Z.of_nat (length (gs_tokens s))) in
          match throws (GenPushBack i) with
          | Some e =>
              (LoopThrow e,
               {| gs_context := gs_context s; gs_tokens := gs_tokens s;
                  gs_batch := batch; gs_result := result |})
          | None =>
              let toks := gs_tokens s ++ [new_token] in
              let '(rc, c) := llama_decode E (gs_context s) batch in
              (if rc =? 0 then LoopContinue else LoopBreak,
               {| gs_context := c; gs_tokens := toks; gs_batch := batch;
                  gs_result := result |})
          end
      end
  | None => (LoopBreak, s)
  end.

(** The loop, for [fuel] more iterations from iteration [i]. *)
Fixpoint generate_loop (ctx : LlamaContext) (vocab : llama_vocab E)
    (throws : gen_point → option cpp_exception)
    (fuel : nat) (i : nat) (s : gen_state) : option cpp_exception * gen_state :=
  match fuel with
  | O => (None, s)
  | S fuel =>
      match generate_body ctx vocab throws i s with
      | (LoopContinue, s) => generate_loop ctx vocab throws fuel (S i) s
      | (LoopBreak, s) => (None, s)
      | (LoopThrow e, s) => (Some e, s)
      end
  end.

(** What the [catch] blocks return. *)
Definition generate_exception_text (e : cpp_exception) : string :=
  match e with
  | StdException => "Error: Exception during text generation"
  | UnknownException => "Error: Unknown exception during text generation"
  end.

(** The session stored under [handle] is the object the call worked on. *)
Definition update_session (st : globals) (handle : Z) (ctx : LlamaContext) : globals :=
  set_contexts st (<[handle := ctx]> (g_contexts st)).

Definition default_max_tokens (maxTokens : Z) : Z :=
  if maxTokens <=? 0 then 256 else maxTokens.

(** [max_gen_tokens]. *)
Definition max_gen_tokens (maxTokens : Z) (c : llama_context E) (n_tokens : Z) : Z :=
  Z.min maxTokens
        (to_int32 (to_int32 (to_uint32 (llama_n_ctx E c)) - n_tokens)).

(** The [try] block up to the decoding of the prompt: what the call returns
    when it ends there, or the state in which the loop starts, with
    [n_tokens]. *)
Definition generate_prefill (st : globals) (jni : JNIEnv) (handle : Z) (prompt : option jstring)
    (throws : gen_point → option cpp_exception)
    (ctx : LlamaContext) (m : llama_model E) (c : llama_context E)
    : (option jstring * globals) + (gen_state * Z) :=
  match throws GenInputString with
  | Some e => inl (Some (generate_exception_text e), st)
  | None =>
  let input := jstring_to_string jni prompt in
  if String.eqb input "" then inl (Some "Error: Empty prompt"%string, st) else
  let toks := [] in
  let c := llama_memory_clear E c in
  let vocab := llama_model_get_vocab E m in
  let max_input_tokens := to_int32 (to_uint32 (llama_n_ctx E c) / 2) in
  match throws GenResize with
  | Some e => inl (Some (generate_exception_text e), update_session st handle (session_of ctx c toks))
  | None =>
  let toks := vector_resize toks max_input_tokens in
  let '(n_tokens, written) := llama_tokenize E vocab input max_input_tokens true false in
  let toks := buffer_write written toks in
  if n_tokens <? 0
  then inl (Some "Error: Tokenization failed"%string,
            update_session st handle (session_of ctx c toks))
  else
  let toks := vector_resize toks n_tokens in
  let batch := prompt_batch toks n_tokens in
  let '(rc, c) := llama_decode E c batch in
  if negb (rc =? 0)
  then inl (Some "Error: Failed to decode prompt"%string,
            update_session st handle (session_of ctx c toks))
  else inr ({| gs_context := c; gs_tokens := toks; gs_batch := batch; gs_result := "" |},
            n_tokens)
  end
  end.

Definition nativeGenerateText (st : globals) (env : option JNIEnv) (handle : Z)
    (prompt : option jstring) (maxTokens : Z) (temperature topP : float) (topK : Z)
    (throws : gen_point → option cpp_exception) : option jstring * globals :=
  match env, prompt with
  | Some jni, Some _ =>
      if handle =? 0 then (string_to_jstring env "Error: Invalid parameters", st) else
      match get_context st handle with
      | Some ctx =>
          match model ctx, context ctx with
          | Some m, Some c =>
              match generate_prefill st jni handle prompt throws ctx m c with
              | inl r => r
              | inr (s, n_tokens) =>
                  let maxTokens := default_max_tokens maxTokens in
                  let fuel := Z.to_nat (max_gen_tokens maxTokens (gs_context s) n_tokens) in
                  let vocab := llama_model_get_vocab E m in
                  let '(exn, s) := generate_loop ctx vocab throws fuel 0 s in
                  let st := update_session st handle (session_of ctx (gs_context s) (gs_tokens s)) in
                  match exn with
                  | Some e => (string_to_jstring env (generate_exception_text e), st)
                  | None => (string_to_jstring env (gs_result s), st)
                  end
              end
          | _, _ => (string_to_jstring env "Error: Invalid handle or model not loaded", st)
          end
      | None => (string_to_jstring env "Error: Invalid handle or model not loaded", st)
      end
  | _, _ => (string_to_jstring env "Error: Invalid parameters", st)
  end.

(** ** nativeCleanup *)

(** [find] and [erase] do not throw, so the [catch] blocks take nothing. *)
Definition nativeCleanup (st : globals) (handle : Z) : globals :=
  if handle =? 0 then st
  else
    match g_contexts st !! handle with
    | Some ctx =>
        set_contexts (log_events st (LlamaContext_destroy ctx)) (delete handle (g_contexts st))
    | None => st
    end.

(** ** Sequences of calls *)

(** A call of the bridge, with what the environment decides for it. *)
Inductive call : Type :=
  | CallLoad (env : option JNIEnv) (modelPath : option jstring) (contextSize threads : Z)
      (hw_threads : N) (seed : Z) (throws : load_point → bool)
  | CallGenerate (env : option JNIEnv) (handle : Z) (prompt : option jstring)
      (maxTokens : Z) (temperature topP : float) (topK : Z)
      (throws : gen_point → option cpp_exception)
  | CallCleanup (handle : Z).

Inductive reply : Type :=
  | ReplyLoad (handle : Z)
  | ReplyGenerate (text : option jstring)
  | ReplyCleanup.

Definition step (st : globals) (c : call) : reply * globals :=
  match c with
  | CallLoad env modelPath contextSize threads hw_threads seed throws =>
      let '(h, st) := nativeLoadModel st env modelPath contextSize threads hw_threads seed throws in
      (ReplyLoad h, st)
  | CallGenerate env handle prompt maxTokens temperature topP topK throws =>
      let '(r, st) := nativeGenerateText st env handle prompt maxTokens temperature topP topK throws in
      (ReplyGenerate r, st)
  | CallCleanup handle => (ReplyCleanup, nativeCleanup st handle)
  end.

(** The replies to the calls [cs] made in order from [st], and the globals
    they leave. *)
Fixpoint run (st : globals) (cs : list call) : list reply * globals :=
  match cs with
  | [] => ([], st)
  | c :: cs =>
      let '(r, st) := step st c in
      let '(rs, st) := run st cs in
      (r :: rs, st)
  end.

(** The handles returned by the loads of [cs] that did not fail, in the
    order of issue; [rs] are the replies to [cs]. *)
Fixpoint issued_handles (cs : list call) (rs : list reply) : list Z :=
  match cs, rs with
  | CallLoad env modelPath contextSize threads hw_threads _ throws :: cs, ReplyLoad h :: rs =>
      if load_fails env modelPath contextSize threads hw_threads throws
      then issued_handles cs rs
      else h :: issued_handles cs rs
  | _ :: cs, _ :: rs => issued_handles cs rs
  | _, _ => []
  end.

(** [handle] was issued by a load of [cs] and a later call of [cs] cleaned
    it up. *)
Definition destroyed_in (st : globals) (cs : list call) (handle : Z) : Prop :=
  ∃ cs1 cs2, cs = cs1 ++ CallCleanup handle :: cs2 ∧
             handle ∈ issued_handles cs1 (fst (run st cs1)).

(** [handle] was cleaned up by a call of [cs] and no later load of [cs]
    returned it. *)
Definition cleaned_up_in (st : globals) (cs : list call) (handle : Z) : Prop :=
  ∃ cs1 cs2, cs = cs1 ++ CallCleanup handle :: cs2 ∧
    handle ∉ issued_handles cs2
               (fst (run (snd (run st (cs1 ++ [CallCleanup handle]))) cs2)).

(** ** Predicates on the globals *)

(** Every session in the registry has its model and its context. *)
Definition sessions_complete (st : globals) : Prop :=
  ∀ h s, g_contexts st !! h = Some s → is_Some (model s) ∧ is_Some (context s).

(** The counter is at least 1 and every handle in the registry is below it. *)
Definition handles_wf (st : globals) : Prop :=
  1 <= g_next_handle st ∧
  ∀ h, is_Some (g_contexts st !! h) → 1 <= h < g_next_handle st.

Definition is_backend_init (ev : engine_event) : bool :=
  match ev with EvBackendInit => true | _ => false end.

(** How many times the log has [llama_backend_init]. *)
Definition backend_inits (log : list engine_event) : nat :=
  length (List.filter is_backend_init log).

Definition is_load (c : call) : bool :=
  match c with CallLoad _ _ _ _ _ _ _ => true | _ => false end.

(** How many of the calls are load requests. *)
Definition count_loads (cs : list call) : nat := length (List.filter is_load cs).

Definition backend_once (st : globals) : Prop :=
  backend_inits (engine_log st) = if g_backend_initialized st then 1%nat else 0%nat.

(** ** Predicates on generation *)

(** The token history of [ctx] is no longer than the context length of its
    context. *)
Definition history_within (ctx : LlamaContext) : Prop :=
  match context ctx with
  | Some c => Z.of_nat (length (tokens ctx)) <= to_uint32 (llama_n_ctx E c)
  | None => True
  end.

(** Every session in the registry has a model and a context and a history
    within the context length. *)
Definition sessions_ok (st : globals) : Prop :=
  ∀ h ctx, get_context st h = Some ctx →
           is_Some (model ctx) ∧ is_Some (context ctx) ∧ history_within ctx.

(** The text that the loop appends for token [t]. *)
Definition piece_text (vocab : llama_vocab E) (t : llama_token) : string :=
  let '(piece_len, piece) := llama_token_to_piece E vocab t 256 0 false in
  if 0 <? piece_len then String.substring 0 (Z.to_nat piece_len) piece else ""%string.

(** The texts of the tokens [ts], one after the other. *)
Definition pieces_text (vocab : llama_vocab E) (ts : list llama_token) : string :=
  foldr (λ t acc, (piece_text vocab t +:+ acc)%string) ""%string ts.

(** What one turn of the loop does, by cases. *)
Inductive body_spec (ctx : LlamaContext) (vocab : llama_vocab E)
    (throws : gen_point → option cpp_exception) (i : nat) (s : gen_state)
    : loop_outcome → gen_state → Prop :=
  | body_no_logits :
      llama_get_logits_ith E (gs_context s) (batch_n_tokens (gs_batch s) - 1) = None →
      body_spec ctx vocab throws i s LoopBreak s
  | body_eog logits :
      llama_get_logits_ith E (gs_context s) (batch_n_tokens (gs_batch s) - 1) = Some logits →
      llama_vocab_is_eog E vocab
        (sample_token_greedy (Some (session_of ctx (gs_context s) (gs_tokens s)))
           (Some logits)) = true →
      body_spec ctx vocab throws i s LoopBreak s
  | body_throw_append logits e :
      llama_get_logits_ith E (gs_context s) (batch_n_tokens (gs_batch s) - 1) = Some logits →
      let t := sample_token_greedy (Some (session_of ctx (gs_context s) (gs_tokens s)))
                 (Some logits) in
      llama_vocab_is_eog E vocab t = false →
      0 < fst (llama_token_to_piece E vocab t 256 0 false) →
      throws (GenAppend i) = Some e →
      body_spec ctx vocab throws i s (LoopThrow e) s
  | body_throw_push logits e :
      llama_get_logits_ith E (gs_context s) (batch_n_tokens (gs_batch s) - 1) = Some logits →
      let t := sample_token_greedy (Some (session_of ctx (gs_context s) (gs_tokens s)))
                 (Some logits) in
      llama_vocab_is_eog E vocab t = false →
      throws (GenPushBack i) = Some e →
      body_spec ctx vocab throws i s (LoopThrow e)
        {| gs_context := gs_context s; gs_tokens := gs_tokens s;
           gs_batch := next_batch (gs_batch s) t (Z.of_nat (length (gs_tokens s)));
           gs_result := (gs_result s +:+ piece_text vocab t)%string |}
  | body_token logits :
      llama_get_logits_ith E (gs_context s) (batch_n_tokens (gs_batch s) - 1) = Some logits →
      let t := sample_token_greedy (Some (session_of ctx (gs_context s) (gs_tokens s)))
                 (Some logits) in
      let b := next_batch (gs_batch s) t (Z.of_nat (length (gs_tokens s))) in
      llama_vocab_is_eog E vocab t = false →
      throws (GenPushBack i) = None →
      body_spec ctx vocab throws i s
        (if fst (llama_decode E (gs_context s) b) =? 0 then LoopContinue else LoopBreak)
        {| gs_context := snd (llama_decode E (gs_context s) b);
           gs_tokens := gs_tokens s ++ [t];
           gs_batch := b;
           gs_result := (gs_result s +:+ piece_text vocab t)%string |}.

(** The loop started at turn [i] in state [s] comes to turn [k] in state
    [sk]: every turn between them went on to the next. *)
Inductive loop_reaches (ctx : LlamaContext) (vocab : llama_vocab E)
    (throws : gen_point → option cpp_exception)
    : nat → gen_state → nat → gen_state → Prop :=
  | reaches_here i s : loop_reaches ctx vocab throws i s i s
  | reaches_turn i s k sk :
      fst (generate_body ctx vocab throws i s) = LoopContinue →
      loop_reaches ctx vocab throws (S i) (snd (generate_body ctx vocab throws i s)) k sk →
      loop_reaches ctx vocab throws i s k sk.

(** What [llama_tokenize] returns for [input] in a context cleared to [c1],
    and the token buffer it leaves. *)
Definition prompt_tokens (m : llama_model E) (c1 : llama_context E) (input : string)
    : Z * list llama_token :=
  let max_input_tokens := to_int32 (to_uint32 (llama_n_ctx E c1) / 2) in
  let tk := llama_tokenize E (llama_model_get_vocab E m) input max_input_tokens true false in
  (fst tk, buffer_write (snd tk) (vector_resize [] max_input_tokens)).

(** Two results of [generate_prefill], from globals [st] and [st'] and
    session objects [ctx] and [ctx'], that differ at most in the globals
    they started from. *)
Definition prefill_alike (st st' : globals) (handle : Z) (ctx ctx' : LlamaContext)
    (F F' : (option jstring * globals) + (gen_state * Z)) : Prop :=
  match F, F' with
  | inl (r, g), inl (r', g') =>
      r = r' ∧
      ((g = st ∧ g' = st') ∨
       ∃ c toks, g = update_session st handle (session_of ctx c toks) ∧
                 g' = update_session st' handle (session_of ctx' c toks))
  | inr x, inr x' => x = x'
  | _, _ => False
  end.

End Bridge.

(** ** nativeGetModelInfo *)

(** The line feed of the report. *)
Definition newline : string := String (Ascii.ascii_of_nat 10) "".

Section Describe.

Context (E : Engine).

(** Two entry points of [llama.h] that only [nativeGetModelInfo] calls:
    the embedding width of a model, and the description that
    [llama_model_desc] writes into a buffer of the given size, of which
    [std::string(model_desc)] takes the characters before the first zero
    byte. *)
Variable llama_model_n_embd : llama_model E → Z.
Variable llama_model_desc : llama_model E → Z → string.

(** The report: [info] as the [+=] build it. *)
Definition model_info (handle : Z) (m : llama_model E) (c : llama_context E) : string :=
  let vocab := llama_model_get_vocab E m in
  let model_desc := c_str (llama_model_desc m 256) in
  let info := ("Model Information:" +:+ newline)%string in
  let info := (info +:+ ("Handle: " +:+ pretty handle +:+ newline))%string in
  let info := (info +:+ ("Vocabulary size: " +:+ pretty (llama_vocab_n_tokens E vocab)
                         +:+ newline))%string in
  let info := (info +:+ ("Context size: " +:+ pretty (to_uint32 (llama_n_ctx E c))
                         +:+ newline))%string in
  let info := (info +:+ ("Embedding size: " +:+ pretty (llama_model_n_embd m)
                         +:+ newline))%string in
  let info := (info +:+ ("Model type: " +:+ model_desc +:+ newline))%string in
  (info +:+ "Status: Loaded and ready")%string.

(** [throws] says that the runtime throws while the report is built, and
    which [catch] takes it. *)
Definition nativeGetModelInfo (st : globals E) (env : option JNIEnv) (handle : Z)
    (throws : option cpp_exception) : option jstring :=
  match env with
  | Some _ =>
      if handle =? 0 then string_to_jstring env "Error: Invalid parameters" else
      match get_context E st handle with
      | Some ctx =>
          match model E ctx, context E ctx with
          | Some m, Some c =>
              match throws with
              | Some StdException =>
                  string_to_jstring env "Error: Exception getting model info"
              | Some UnknownException =>
                  string_to_jstring env "Error: Unknown exception getting model info"
              | None => string_to_jstring env (model_info handle m c)
              end
          | _, _ => string_to_jstring env "Error: No model loaded for this handle"
          end
      | None => string_to_jstring env "Error: No model loaded for this handle"
      end
  | None => string_to_jstring env "Error: Invalid parameters"
  end.

End Describe.

(** ** A small engine

    An engine to run the bridge on: a vocabulary of four tokens, of which
    token 3 ends the sequence and token 2 has no text, a tokenizer that maps a
    character to its code modulo 3, and a context that is its length and the
    tokens decoded into it.  After token [t] the scores favour [t + 1]. *)

Definition toy_tokens (text : string) : list llama_token :=
  (λ ch, Z.of_N (Ascii.N_of_ascii ch) mod 3) <$> String.list_ascii_of_string text.

Definition toy_tokenize (_ : unit) (text : string) (n_tokens_max : Z) (_ _ : bool)
    : Z * list llama_token :=
  let toks := toy_tokens text in
  if Z.of_nat (length toks) <=? n_tokens_max
  then (Z.of_nat (length toks), toks)
  else (- Z.of_nat (length toks), []).

Definition toy_piece (_ : unit) (t : llama_token) (_ _ : Z) (_ : bool) : Z * string :=
  if t =? 0 then (1, "a"%string)
  else if t =? 1 then (1, "b"%string)
  else (0, ""%string).

Definition toy_decode (c : Z * list llama_token) (b : llama_batch)
    : Z * (Z * list llama_token) :=
  let toks := take (Z.to_nat (batch_n_tokens b)) (batch_token b) in
  if batch_n_tokens b <=? 0 then (-1, c)
  else if fst c <? Z.of_nat (length (snd c) + length toks) then (1, c)
  else (0, (fst c, snd c ++ toks)).

Definition toy_logits (c : Z * list llama_token) (_ : Z) : option (list float) :=
  match last (snd c) with
  | None => None
  | Some t =>
      let next := (t + 1) mod 4 in
      Some ((λ i, if i =? next then 1%float else 0%float) <$> seqZ 0 4)
  end.

Definition toy_engine : Engine :=
  {| llama_model := unit;
     llama_vocab := unit;
     llama_context := Z * list llama_token;
     llama_model_load_from_file := λ path _,
       if String.eqb path "model.gguf" then Some tt else None;
     llama_init_from_model := λ _ p, if 0 <? n_ctx p then Some (n_ctx p, []) else None;
     llama_model_get_vocab := λ m, m;
     llama_vocab_n_tokens := λ _, 4;
     llama_vocab_is_eog := λ _ t, t =? 3;
     llama_n_ctx := fst;
     llama_memory_clear := λ c, (fst c, []);
     llama_tokenize := toy_tokenize;
     llama_token_to_piece := toy_piece;
     llama_decode := toy_decode;
     llama_get_logits_ith := toy_logits |}.

Definition toy_jni : JNIEnv := {| GetStringUTFChars := Some |}.

Definition no_throw_load : load_point → bool := λ _, false.

Definition no_throw_gen : gen_point → option cpp_exception := λ _, None.

(** A model loaded with context length 8, then a text generated from "!"
    (token 0), and the session cleaned up. *)
Definition toy_calls : list call :=
  [ CallLoad (Some toy_jni) (Some "model.gguf"%string) 8 4 0 0 no_throw_load;
    CallGenerate (Some toy_jni) 1 (Some "!"%string) 10 1%float 1%float 40 no_throw_gen;
    CallCleanup 1 ].

(** The load of [toy_calls]. *)
Definition toy_load : call :=
  CallLoad (Some toy_jni) (Some "model.gguf"%string) 8 4 0 0 no_throw_load.

(** As many loads as a [jlong] has positive values, and one more. *)
Definition many_loads : list call := replicate (Z.to_nat (2 ^ 63)) toy_load.

(** A session of the small engine. *)
Definition toy_session : LlamaContext toy_engine :=
  Build_LlamaContext toy_engine (Some tt) (Some (8, [])) [] 0.

(** Scores of which the first is NaN. *)
Definition nan_scores : list float := [nan; 1%float; 0%float; 0%float].

(** Scores over its vocabulary with a NaN that is not the first, and the
    highest of the others held by two tokens. *)
Definition skip_scores : list float := [1%float; nan; 2%float; 2%float].

(** The globals after the load of [toy_calls]. *)
Definition toy_loaded : globals toy_engine :=
  snd (run toy_engine (initial_globals toy_engine) (take 1 toy_calls)).

(** The state in which the loop starts for the prompt "!" on [toy_loaded]. *)
Definition toy_start : gen_state toy_engine :=
  Build_gen_state toy_engine (8, [0]) [0] (prompt_batch [0] 1) "".

(** A loop state whose context has nothing decoded, so that no output
    distribution is available. *)
Definition toy_idle : gen_state toy_engine :=
  Build_gen_state toy_engine (8, []) [] (prompt_batch [] 0) "".

(** The embedding width and the description of the small engine's model. *)
Definition toy_n_embd : unit → Z := λ _, 16.

Definition toy_desc : unit → Z → string := λ _ _, "toy 4B"%string.

(** A runtime in which the second [push_back] of the loop throws. *)
Definition throw_at_push : gen_point → option cpp_exception :=
  λ p, match p with GenPushBack 1 => Some StdException | _ => None end.

(** The loop state of the small engine after the first turn from [toy_start]. *)
Definition toy_turn1 : gen_state toy_engine :=
  snd (generate_body toy_engine toy_session tt no_throw_gen 0 toy_start).

(** An engine whose pieces hold a zero byte and whose [llama_decode] fails
    once something was decoded into the context. *)
Definition nul_text : string := ("a" +:+ String Ascii.zero "b")%string.

Definition nul_piece (_ : unit) (_ : llama_token) (_ _ : Z) (_ : bool) : Z * string :=
  (3, nul_text).

Definition nul_decode (c : Z * list llama_token) (b : llama_batch)
    : Z * (Z * list llama_token) :=
  match snd c with
  | [] => toy_decode c b
  | _ :: _ => (1, c)
  end.

Definition nul_engine : Engine :=
  {| llama_model := unit;
     llama_vocab := unit;
     llama_context := Z * list llama_token;
     llama_model_load_from_file := llama_model_load_from_file toy_engine;
     llama_init_from_model := llama_init_from_model toy_engine;
     llama_model_get_vocab := λ m, m;
     llama_vocab_n_tokens := λ _, 4;
     llama_vocab_is_eog := λ _ t, t =? 3;
     llama_n_ctx := fst;
     llama_memory_clear := λ c, (fst c, []);
     llama_tokenize := toy_tokenize;
     llama_token_to_piece := nul_piece;
     llama_decode := nul_decode;
     llama_get_logits_ith := toy_logits |}.

(** The globals after a load on that engine. *)
Definition nul_loaded : globals nul_engine :=
  snd (run nul_engine (initial_globals nul_engine) [toy_load]).

(** The session of [nul_loaded] and the state in which the loop starts for
    the prompt "!" on it. *)
Definition nul_session : LlamaContext nul_engine :=
  Build_LlamaContext nul_engine (Some tt) (Some (8, [])) [] 0.

Definition nul_start : gen_state nul_engine :=
  Build_gen_state nul_engine (8, [0]) [0] (prompt_batch [0] 1) "".

(** The loop state of the small engine after the second turn. *)
Definition toy_turn2 : gen_state toy_engine :=
  snd (generate_body toy_engine toy_session tt no_throw_gen 1 toy_turn1).

(** Two loads with the cleanup of the first handle between them. *)
Definition toy_reload : list call := [toy_load; CallCleanup 1; toy_load].

(** * Properties *)

(** ** Machine integers *)

Lemma to_jlong_small (x : Z) : - 2 ^ 63 <= x < 2 ^ 63 → to_jlong x = x.
Proof.
  intros Hx. unfold to_jlong, wrap_signed.
  change (2 ^ (64 - 1)) with (2 ^ 63). change (2 ^ 64) with (2 * 2 ^ 63).
  rewrite Z.mod_small; lia.
Qed.

Lemma to_uint32_range (x : Z) : 0 <= to_uint32 x < 2 ^ 32.
Proof. unfold to_uint32. apply Z.mod_pos_bound. lia. Qed.

(** A non-negative value never grows when it is read as an [int]. *)
Lemma to_int32_le (x : Z) : 0 <= x → to_int32 x <= x.
Proof.
  intros Hx. unfold to_int32, wrap_signed.
  change (2 ^ (32 - 1)) with 2147483648. change (2 ^ 32) with 4294967296.
  pose proof (Z.mod_pos_bound (x + 2147483648) 4294967296 ltac:(lia)) as Hb.
  pose proof (Z.mod_le (x + 2147483648) 4294967296 ltac:(lia) ltac:(lia)).
  lia.
Qed.

Lemma to_int32_small (x : Z) : - 2 ^ 31 <= x < 2 ^ 31 → to_int32 x = x.
Proof.
  intros Hx. unfold to_int32, wrap_signed.
  change (2 ^ (32 - 1)) with (2 ^ 31). change (2 ^ 32) with (2 * 2 ^ 31).
  rewrite Z.mod_small; lia.
Qed.

(** Reading as an [int] commutes with subtraction up to the final wrap. *)
Lemma to_int32_sub_l (x y : Z) : to_int32 (to_int32 x - y) = to_int32 (x - y).
Proof.
  unfold to_int32, wrap_signed.
  change (2 ^ (32 - 1)) with 2147483648. change (2 ^ 32) with 4294967296.
  f_equal.
  replace ((x + 2147483648) mod 4294967296 - 2147483648 - y + 2147483648)
    with ((x + 2147483648) mod 4294967296 + (- y)) by lia.
  rewrite Zplus_mod_idemp_l. f_equal. lia.
Qed.

(** ** C strings *)

Lemma c_str_idem (s : string) : c_str (c_str s) = c_str s.
Proof.
  induction s as [|a s IH]; [reflexivity|]. cbn [c_str].
  destruct (Ascii.eqb a Ascii.zero) eqn:Ha; [reflexivity|].
  cbn [c_str]. rewrite Ha, IH. reflexivity.
Qed.

Lemma c_str_app (s1 s2 : string) :
  c_str s1 = s1 → c_str (s1 +:+ s2) = (s1 +:+ c_str s2)%string.
Proof.
  induction s1 as [|a s1 IH]; intros H; [reflexivity|].
  change (String a s1 +:+ s2)%string with (String a (s1 +:+ s2)).
  cbn [c_str] in H |- *. destruct (Ascii.eqb a Ascii.zero); [discriminate|].
  injection H as H. rewrite (IH H). reflexivity.
Qed.

Lemma c_str_app_id (s1 s2 : string) :
  c_str s1 = s1 → c_str s2 = s2 → c_str (s1 +:+ s2) = (s1 +:+ s2)%string.
Proof. intros H1 H2. rewrite c_str_app, H2; [reflexivity|exact H1]. Qed.

Lemma c_str_pretty_N_go (x : N) : ∀ s, c_str s = s → c_str (pretty_N_go x s) = pretty_N_go x s.
Proof.
  induction (N.lt_wf_0 x) as [x _ IH]; intros s Hs.
  destruct (decide (x = 0)%N) as [->|Hx]; [rewrite pretty_N_go_0; exact Hs|].
  rewrite pretty_N_go_step by lia.
  apply IH; [apply N.div_lt; lia|].
  cbn [c_str].
  assert (Hc : Ascii.eqb (pretty_N_char (x `mod` 10)) Ascii.zero = false).
  { unfold pretty_N_char. repeat case_match; reflexivity. }
  rewrite Hc, Hs. reflexivity.
Qed.

Lemma c_str_pretty_N (x : N) : c_str (pretty x) = pretty x.
Proof.
  unfold pretty, pretty_N. destruct (decide (x = 0)%N); [reflexivity|].
  apply c_str_pretty_N_go. reflexivity.
Qed.

Lemma c_str_pretty_Z (z : Z) : c_str (pretty z) = pretty z.
Proof.
  unfold pretty, pretty_Z. destruct z as [|q|q].
  - reflexivity.
  - apply c_str_pretty_N.
  - apply c_str_app_id; [reflexivity|apply c_str_pretty_N].
Qed.

(** ** The order of scores that are not NaN *)

Ltac key_case :=
  eexists; split; [reflexivity|];
  split; split; intros ?; try discriminate; try reflexivity; lia.

Lemma SFcompare_key (a b : spec_float) :
  SFis_nan a = false → SFis_nan b = false →
  ∃ c, SFcompare a b = Some c ∧
       (c = Lt ↔ key_lt (SFkey a) (SFkey b)) ∧
       (c = Gt ↔ key_lt (SFkey b) (SFkey a)).
Proof.
  intros Ha Hb.
  destruct a as [sa|sa| |sa ma ea], b as [sb|sb| |sb mb eb]; try discriminate;
    cbn [SFcompare SFkey key_lt].
  9: {
    change (PosDef.Pos.compare_cont Eq ma mb) with (Pos.compare ma mb).
    destruct sa, sb; cbn [key_lt]; try key_case.
    - destruct (Z.compare_spec ea eb) as [He|He|He]; try key_case.
      destruct (Pos.compare_spec ma mb) as [Hm|Hm|Hm]; cbn [CompOpp]; key_case.
    - destruct (Z.compare_spec ea eb) as [He|He|He]; try key_case.
      destruct (Pos.compare_spec ma mb) as [Hm|Hm|Hm]; cbn [CompOpp]; key_case. }
  all: try destruct sa; try destruct sb; cbn [key_lt]; key_case.
Qed.

Lemma key_le_not_lt (a b : Z * Z * Z) : key_le a b ↔ ¬ key_lt b a.
Proof. destruct a as [[a1 a2] a3], b as [[b1 b2] b3]. unfold key_le, key_lt. lia. Qed.

Lemma key_le_lt_trans (a b c : Z * Z * Z) : key_le a b → key_lt b c → key_lt a c.
Proof.
  destruct a as [[a1 a2] a3], b as [[b1 b2] b3], c as [[c1 c2] c3].
  unfold key_le, key_lt. lia.
Qed.

Lemma key_lt_le (a b : Z * Z * Z) : key_lt a b → key_le a b.
Proof. destruct a as [[a1 a2] a3], b as [[b1 b2] b3]. unfold key_le, key_lt. lia. Qed.

Lemma key_le_refl (a : Z * Z * Z) : key_le a a.
Proof. destruct a as [[a1 a2] a3]. unfold key_le. lia. Qed.

Lemma is_nan_Prim2SF (x : float) : PrimFloat.is_nan x = SFis_nan (Prim2SF x).
Proof.
  unfold PrimFloat.is_nan. rewrite FloatAxioms.eqb_spec. unfold SFeqb.
  destruct (Prim2SF x) as [s|s| |s m e] eqn:Hx; cbn; try reflexivity.
  - destruct s; reflexivity.
  - rewrite Z.compare_refl.
    change (PosDef.Pos.compare_cont Eq m m) with (Pos.compare m m).
    rewrite Pos.compare_refl. destruct s; reflexivity.
Qed.

Lemma float_ltb_key (x y : float) :
  PrimFloat.is_nan x = false → PrimFloat.is_nan y = false →
  PrimFloat.ltb x y = true ↔ key_lt (float_key x) (float_key y).
Proof.
  rewrite !is_nan_Prim2SF. intros Hx Hy.
  destruct (SFcompare_key _ _ Hx Hy) as (c & Hc & Hlt & Hgt).
  rewrite ltb_spec. unfold SFltb, float_key. rewrite Hc.
  destruct c; split; intros H; try discriminate; try reflexivity.
  - apply Hlt in H. discriminate.
  - apply Hlt. reflexivity.
  - apply Hlt in H. discriminate.
Qed.

Lemma float_leb_key (x y : float) :
  PrimFloat.is_nan x = false → PrimFloat.is_nan y = false →
  PrimFloat.leb x y = true ↔ key_le (float_key x) (float_key y).
Proof.
  rewrite !is_nan_Prim2SF. intros Hx Hy.
  destruct (SFcompare_key _ _ Hx Hy) as (c & Hc & Hlt & Hgt).
  rewrite leb_spec. unfold SFleb, float_key. rewrite Hc, key_le_not_lt.
  destruct c; split; intros H; try discriminate; try reflexivity.
  - intros Hk. apply Hgt in Hk. discriminate.
  - intros Hk. apply Hgt in Hk. discriminate.
  - exfalso. apply H, Hgt. reflexivity.
Qed.

(** ** The greedy scan *)

(** A comparison that holds has no NaN on either side. *)
Lemma float_ltb_not_nan (x y : float) :
  PrimFloat.ltb x y = true → PrimFloat.is_nan x = false ∧ PrimFloat.is_nan y = false.
Proof.
  rewrite ltb_spec, !is_nan_Prim2SF. unfold SFltb.
  destruct (Prim2SF x) as [sx|sx| |sx mx ex], (Prim2SF y) as [sy|sy| |sy my ey];
    cbn [SFcompare SFis_nan]; try discriminate; auto.
Qed.

(** The scan over the first [k + 1] scores, of which the first is not NaN:
    the best so far is not NaN, no score that is not NaN is above it, and
    every such score before it is strictly below it. *)
Lemma greedy_scan_prefix (lg : list float) (k : nat) :
  PrimFloat.is_nan (lg !!! 0%nat) = false →
  ∃ bi : nat,
    foldl (greedy_step lg) (0, lg !!! 0%nat) (seq 1 k) = (Z.of_nat bi, lg !!! bi) ∧
    (bi ≤ k)%nat ∧
    PrimFloat.is_nan (lg !!! bi) = false ∧
    (∀ j : nat, (j ≤ k)%nat → PrimFloat.is_nan (lg !!! j) = false →
       PrimFloat.leb (lg !!! j) (lg !!! bi) = true) ∧
    (∀ j : nat, (j < bi)%nat → PrimFloat.is_nan (lg !!! j) = false →
       PrimFloat.ltb (lg !!! j) (lg !!! bi) = true).
Proof.
  intros H0. induction k as [|k IH].
  - exists 0%nat. cbn. split; [reflexivity|]. split; [lia|]. split; [exact H0|].
    split; [|lia]. intros j Hj _. assert (j = 0%nat) as -> by lia.
    apply float_leb_key; [assumption..|]. apply key_le_refl.
  - destruct IH as (bi & Hfold & Hbi & Hnb & Hmax & Hfirst).
    rewrite seq_S, foldl_app, Hfold. cbn [foldl]. unfold greedy_step, float_gt. cbn [snd].
    change (1 + k)%nat with (S k).
    destruct (PrimFloat.ltb (lg !!! bi) (lg !!! S k)) eqn:Hlt.
    + destruct (float_ltb_not_nan _ _ Hlt) as [_ Hnk].
      apply float_ltb_key in Hlt; [|assumption..].
      exists (S k). split; [reflexivity|]. split; [lia|]. split; [exact Hnk|]. split.
      * intros j Hj Hnj. apply float_leb_key; [assumption..|].
        destruct (decide (j = S k)) as [->|Hne]; [apply key_le_refl|].
        apply key_lt_le. eapply key_le_lt_trans; [|exact Hlt].
        apply float_leb_key; [assumption..|]. apply Hmax; [lia|assumption].
      * intros j Hj Hnj. apply float_ltb_key; [assumption..|].
        eapply key_le_lt_trans; [|exact Hlt].
        apply float_leb_key; [assumption..|]. apply Hmax; [lia|assumption].
    + exists bi. split; [reflexivity|]. split; [lia|]. split; [exact Hnb|].
      split; [|assumption].
      intros j Hj Hnj. destruct (decide (j = S k)) as [->|Hne]; [|apply Hmax; [lia|assumption]].
      apply float_leb_key; [assumption..|].
      apply key_le_not_lt. intros Hk'.
      apply float_ltb_key in Hk'; [|assumption..]. congruence.
Qed.

Section Properties.

Context (E : Engine).

(** C5 (as amended).  For every array of scores over a vocabulary of at least
    one token of which the first score is not NaN, the token that
    [sample_token_greedy] selects is a token of the vocabulary whose score is
    not NaN and is the highest of the scores that are not NaN (each of them
    is at most its score), and every token with a lower id whose score is
    not NaN has a strictly lower score, so among the tokens that share the
    highest score it is the one with the lowest id.  The text and the globals
    that [nativeGenerateText] returns do not depend on [temperature], [topP]
    and [topK]. *)
Theorem sample_token_greedy_argmax (ctx : LlamaContext E) (m : llama_model E)
    (c : llama_context E) (logits : list float) :
  model E ctx = Some m → context E ctx = Some c →
  1 <= llama_vocab_n_tokens E (llama_model_get_vocab E m) →
  Z.of_nat (length logits) = llama_vocab_n_tokens E (llama_model_get_vocab E m) →
  PrimFloat.is_nan (logits !!! 0%nat) = false →
  let t := sample_token_greedy E (Some ctx) (Some logits) in
  0 <= t < llama_vocab_n_tokens E (llama_model_get_vocab E m) ∧
  PrimFloat.is_nan (logits !!! Z.to_nat t) = false ∧
  (∀ j : nat, (j < length logits)%nat → PrimFloat.is_nan (logits !!! j) = false →
     PrimFloat.leb (logits !!! j) (logits !!! Z.to_nat t) = true) ∧
  (∀ j : nat, (j < Z.to_nat t)%nat → PrimFloat.is_nan (logits !!! j) = false →
     PrimFloat.ltb (logits !!! j) (logits !!! Z.to_nat t) = true) ∧
  (∀ st env handle prompt maxTokens throws temperature topP topK temperature' topP' topK',
     nativeGenerateText E st env handle prompt maxTokens temperature topP topK throws =
     nativeGenerateText E st env handle prompt maxTokens temperature' topP' topK' throws).
Proof.
  intros Hm Hc Hn Hlen Hnan t. subst t.
  unfold sample_token_greedy, greedy_scan. rewrite Hm, Hc. cbn zeta.
  set (n := llama_vocab_n_tokens E (llama_model_get_vocab E m)) in *.
  destruct (greedy_scan_prefix logits (Z.to_nat n - 1) Hnan)
    as (bi & Hfold & Hbi & Hnb & Hmax & Hfirst).
  rewrite Hfold. cbn [fst]. rewrite Nat2Z.id.
  split; [lia|]. split; [exact Hnb|]. split; [|split].
  - intros j Hj. apply Hmax. lia.
  - exact Hfirst.
  - reflexivity.
Qed.

(** C9 (as amended).  The thread counts that [nativeLoadModel] configures: a
    positive [threads] is used as it is for both; [-1] takes the detected
    hardware parallelism when that is positive and below [2^31], and 4 when
    it is zero; any other value that is not positive gives 4; both counts
    are equal, and strictly positive unless [threads] is [-1] and the
    detected value is [2^31] or more.  They are the counts of the parameters
    with which a load that does not fail has the engine make the context
    that it stores. *)
Theorem load_threads_resolved (contextSize threads : Z) (hw_threads : N) :
  let p := load_context_params (if contextSize <=? 0 then 2048 else contextSize) threads
             hw_threads in
  let hw := to_uint32 (Z.of_N hw_threads) in
  (0 < threads → n_threads p = threads ∧ n_threads_batch p = threads) ∧
  (threads = -1 → 0 < hw < 2 ^ 31 → n_threads p = hw ∧ n_threads_batch p = hw) ∧
  (threads = -1 → hw = 0 → n_threads p = 4 ∧ n_threads_batch p = 4) ∧
  (threads <= 0 → threads ≠ -1 → n_threads p = 4 ∧ n_threads_batch p = 4) ∧
  (threads ≠ -1 ∨ hw < 2 ^ 31 → 0 < n_threads p) ∧
  n_threads_batch p = n_threads p ∧
  (∀ (st : globals E) (env : option JNIEnv) (modelPath : option jstring) (seed : Z)
     (throws : load_point → bool),
     let r := nativeLoadModel E st env modelPath contextSize threads hw_threads seed throws in
     load_fails E env modelPath contextSize threads hw_threads throws = false →
     ∃ jni m c,
       env = Some jni ∧
       llama_model_load_from_file E (jstring_to_string jni modelPath)
         {| use_mmap := true; use_mlock := false |} = Some m ∧
       llama_init_from_model E m p = Some c ∧
       get_context E (snd r) (fst r)
       = Some {| model := Some m; context := Some c; tokens := []; rng := seed |}).
Proof.
  cbn zeta.
  pose proof (to_uint32_range (Z.of_N hw_threads)) as Hr.
  assert (Hstored : ∀ (st : globals E) (env : option JNIEnv) (modelPath : option jstring)
            (seed : Z) (throws : load_point → bool),
            load_fails E env modelPath contextSize threads hw_threads throws = false →
            ∃ jni m c,
              env = Some jni ∧
              llama_model_load_from_file E (jstring_to_string jni modelPath)
                {| use_mmap := true; use_mlock := false |} = Some m ∧
              llama_init_from_model E m
                (load_context_params (if contextSize <=? 0 then 2048 else contextSize)
                   threads hw_threads) = Some c ∧
              get_context E
                (snd (nativeLoadModel E st env modelPath contextSize threads hw_threads seed
                        throws))
                (fst (nativeLoadModel E st env modelPath contextSize threads hw_threads seed
                        throws))
              = Some {| model := Some m; context := Some c; tokens := []; rng := seed |}).
  { intros st env modelPath seed throws Hf.
    unfold load_fails in Hf. unfold nativeLoadModel, get_context.
    destruct env as [jni|]; [|discriminate]. destruct modelPath as [mp|]; [|discriminate].
    destruct (throws LoadPathString); [discriminate|].
    destruct (String.eqb _ ""); [discriminate|].
    destruct (throws LoadMakeUnique); [discriminate|]. cbn [orb] in Hf.
    destruct (llama_model_load_from_file E _ _) as [m|] eqn:Hl; [|discriminate].
    destruct (llama_init_from_model E m _) as [c|] eqn:Hi; [|discriminate].
    destruct (throws LoadReserve); [discriminate|].
    destruct (throws LoadInsert); [discriminate|].
    exists jni, m, c. cbn [fst snd model context tokens rng].
    split; [reflexivity|]. split; [exact Hl|]. split; [exact Hi|].
    unfold store_context. cbn [set_contexts g_contexts]. apply lookup_insert_eq. }
  split; [|split; [|split; [|split; [|split; [|split; [|exact Hstored]]]]]].
  all: clear Hstored; unfold load_context_params, load_threads;
    cbn [n_threads n_threads_batch];
    destruct (Z.ltb_spec 0 threads) as [Hpos|Hnpos]; cbn [fst snd];
    [intros; repeat split; lia|];
    destruct (Z.eqb_spec threads (-1)) as [Hauto|Hother]; cbn [fst snd];
    [|intros; repeat split; lia];
    destruct (Z.ltb_spec 0 (to_uint32 (Z.of_N hw_threads))) as [Hhw|Hhw];
    [intros; repeat split; try lia; rewrite to_int32_small; lia
    |rewrite (to_int32_small 4) by lia; intros; repeat split; lia].
Qed.

End Properties.

(** ** The claims on concrete inputs *)

(** On [skip_scores], where the score of token 1 is NaN, the scan selects
    token 2, the first of the two tokens with the highest of the other
    scores. *)
Lemma sample_token_greedy_argmax_toy :
  sample_token_greedy toy_engine (Some toy_session) (Some skip_scores) = 2 ∧
  0 <= sample_token_greedy toy_engine (Some toy_session) (Some skip_scores) < 4.
Proof.
  split; [reflexivity|].
  exact (proj1 (sample_token_greedy_argmax toy_engine toy_session tt (8, []) skip_scores
                  eq_refl eq_refl ltac:(cbn; lia) eq_refl eq_refl)).
Defined.

(** C5 as stated fails on an array with a NaN: with NaN as the first score
    the scan keeps token 0, whose score is not the highest, since the score
    of token 1 is not at most it. *)
Lemma sample_token_greedy_nan :
  sample_token_greedy toy_engine (Some toy_session) (Some nan_scores) = 0 ∧
  ¬ (∀ j : nat, (j < length nan_scores)%nat →
       PrimFloat.leb (nan_scores !!! j) (nan_scores !!! 0%nat) = true).
Proof.
  split; [reflexivity|].
  intros H. specialize (H 1%nat ltac:(cbn; lia)). vm_compute in H. discriminate.
Qed.

(** C9 as stated fails where the detected hardware parallelism does not fit
    the signed thread fields: for 3000000000 the configured count is
    negative. *)
Lemma load_threads_wraps :
  n_threads (load_context_params 2048 (-1) 3000000000) = -1294967296 ∧
  ¬ 0 < n_threads (load_context_params 2048 (-1) 3000000000).
Proof. split; [reflexivity|]. vm_compute. discriminate. Qed.

(** ** The registry: loads, cleanups and sequences of calls *)

Section Registry.

Context (E : Engine).


Lemma backend_init_contexts (st : globals E) :
  g_contexts E (backend_init E st) = g_contexts E st.
Proof. unfold backend_init. destruct (g_backend_initialized E st); reflexivity. Qed.

Lemma backend_init_next_handle (st : globals E) :
  g_next_handle E (backend_init E st) = g_next_handle E st.
Proof. unfold backend_init. destruct (g_backend_initialized E st); reflexivity. Qed.

(** What a load returns and leaves, by whether the request fails. *)
Lemma nativeLoadModel_spec (st : globals E) env modelPath contextSize threads hw_threads seed throws :
  let r := nativeLoadModel E st env modelPath contextSize threads hw_threads seed throws in
  if load_fails E env modelPath contextSize threads hw_threads throws
  then fst r = 0 ∧ g_contexts E (snd r) = g_contexts E st ∧
       (g_next_handle E (snd r) = g_next_handle E st ∨
        g_next_handle E (snd r) = to_jlong (g_next_handle E st + 1))
  else fst r = g_next_handle E st ∧
       g_next_handle E (snd r) = to_jlong (g_next_handle E st + 1) ∧
       ∃ m c, g_contexts E (snd r) =
              <[g_next_handle E st := Build_LlamaContext E (Some m) (Some c) [] seed]>
                (g_contexts E st).
Proof.
  cbn zeta. unfold nativeLoadModel, load_fails.
  pose proof (backend_init_contexts st) as Hc.
  pose proof (backend_init_next_handle st) as Hn.
  destruct env as [jni|], modelPath as [p|]; cbn [fst snd]; auto.
  destruct (throws LoadPathString); cbn [orb fst snd]; auto.
  destruct (String.eqb _ ""); cbn [orb fst snd]; auto.
  destruct (throws LoadMakeUnique); cbn [orb fst snd]; auto.
  destruct (llama_model_load_from_file E _ _) as [m|]; cbn [fst snd]; auto.
  destruct (llama_init_from_model E m _) as [c|]; cbn [fst snd]; auto.
  destruct (throws LoadReserve); cbn [orb fst snd]; auto.
  destruct (throws LoadInsert); cbn [orb fst snd log_events set_next_handle g_contexts g_next_handle].
  - rewrite Hc, Hn. auto.
  - rewrite Hn. split; [reflexivity|]. split; [reflexivity|].
    exists m, c. unfold store_context. cbn. rewrite Hc. reflexivity.
Qed.

Lemma generate_prefill_globals (st : globals E) jni handle prompt throws ctx m c :
  match generate_prefill E st jni handle prompt throws ctx m c with
  | inl r => snd r = st ∨ ∃ c' toks, snd r = update_session E st handle (session_of E ctx c' toks)
  | inr _ => True
  end.
Proof.
  unfold generate_prefill.
  destruct (throws GenInputString); cbn [snd]; auto.
  destruct (String.eqb _ ""); cbn [snd]; auto.
  destruct (throws GenResize); cbn [snd]; eauto.
  destruct (llama_tokenize E _ _ _ _ _) as [n_tokens written].
  destruct (n_tokens <? 0); cbn [snd]; eauto.
  destruct (llama_decode E _ _) as [rc c'].
  destruct (negb (rc =? 0)); cbn [snd]; eauto.
Qed.

(** A generation call leaves the globals as they were or replaces the
    session under its handle by the session it worked on. *)
Lemma nativeGenerateText_globals (st : globals E) env handle prompt maxTokens temperature topP
    topK throws :
  let st' := snd (nativeGenerateText E st env handle prompt maxTokens temperature topP topK throws) in
  st' = st ∨
  ∃ ctx c toks, g_contexts E st !! handle = Some ctx ∧
                st' = update_session E st handle (session_of E ctx c toks).
Proof.
  cbn zeta. unfold nativeGenerateText, get_context.
  destruct env as [jni|], prompt as [p|]; cbn [snd]; auto.
  destruct (handle =? 0); cbn [snd]; auto.
  destruct (g_contexts E st !! handle) as [ctx|] eqn:Hctx; cbn [snd]; auto.
  destruct (model E ctx) as [m|]; cbn [snd]; auto.
  destruct (context E ctx) as [c|]; cbn [snd]; auto.
  pose proof (generate_prefill_globals st jni handle (Some p) throws ctx m c) as Hpre.
  destruct (generate_prefill E st jni handle (Some p) throws ctx m c) as [r|[s n_tokens]].
  - destruct Hpre as [Hpre|(c' & toks & Hpre)]; [auto|]. right. eauto.
  - destruct (generate_loop E ctx _ throws _ 0 s) as [exn s'].
    right. exists ctx, (gs_context E s'), (gs_tokens E s').
    split; [reflexivity|]. destruct exn; reflexivity.
Qed.

Lemma nativeGenerateText_next_handle (st : globals E) env handle prompt maxTokens temperature
    topP topK throws :
  g_next_handle E (snd (nativeGenerateText E st env handle prompt maxTokens temperature topP topK throws))
  = g_next_handle E st.
Proof.
  destruct (nativeGenerateText_globals st env handle prompt maxTokens temperature topP topK throws)
    as [->|(ctx & c & toks & _ & ->)]; reflexivity.
Qed.

Lemma nativeGenerateText_present (st : globals E) env handle prompt maxTokens temperature
    topP topK throws (h : Z) :
  is_Some (g_contexts E (snd (nativeGenerateText E st env handle prompt maxTokens temperature
                                topP topK throws)) !! h)
  ↔ is_Some (g_contexts E st !! h).
Proof.
  destruct (nativeGenerateText_globals st env handle prompt maxTokens temperature topP topK throws)
    as [->|(ctx & c & toks & Hctx & ->)]; [reflexivity|].
  cbn [update_session set_contexts g_contexts].
  destruct (decide (handle = h)) as [->|Hne].
  - rewrite lookup_insert_eq, Hctx. split; eauto.
  - rewrite lookup_insert_ne by assumption. reflexivity.
Qed.

Lemma nativeCleanup_next_handle (st : globals E) (handle : Z) :
  g_next_handle E (nativeCleanup E st handle) = g_next_handle E st.
Proof.
  unfold nativeCleanup. destruct (handle =? 0); [reflexivity|].
  destruct (g_contexts E st !! handle); reflexivity.
Qed.

Lemma nativeCleanup_lookup (st : globals E) (handle h : Z) :
  g_contexts E (nativeCleanup E st handle) !! h =
  if decide (handle ≠ 0 ∧ handle = h) then None else g_contexts E st !! h.
Proof.
  unfold nativeCleanup. destruct (Z.eqb_spec handle 0) as [->|H0].
  { rewrite decide_False by tauto. reflexivity. }
  destruct (g_contexts E st !! handle) as [ctx|] eqn:Hctx; cbn [set_contexts g_contexts].
  - destruct (decide (handle = h)) as [->|Hne].
    + rewrite lookup_delete_eq, decide_True by tauto. reflexivity.
    + rewrite lookup_delete_ne, decide_False by tauto. reflexivity.
  - case_decide as Hd; [|reflexivity]. destruct Hd as [_ <-]. exact Hctx.
Qed.

(** A handle that is zero or not in the registry: [nativeCleanup] changes nothing. *)
Lemma nativeCleanup_absent (st : globals E) (handle : Z) :
  handle = 0 ∨ g_contexts E st !! handle = None → nativeCleanup E st handle = st.
Proof.
  intros [->|Hnone]; unfold nativeCleanup; [reflexivity|].
  destruct (handle =? 0); [reflexivity|]. rewrite Hnone. reflexivity.
Qed.

Lemma nativeCleanup_twice (st : globals E) (handle : Z) :
  nativeCleanup E (nativeCleanup E st handle) handle = nativeCleanup E st handle.
Proof.
  apply nativeCleanup_absent.
  destruct (decide (handle = 0)) as [?|Hne]; [left; assumption|right].
  rewrite nativeCleanup_lookup, decide_True by tauto. reflexivity.
Qed.


Lemma issued_handles_cons (c : call) (r : reply) (cs : list call) (rs : list reply) :
  issued_handles E (c :: cs) (r :: rs) = issued_handles E [c] [r] ++ issued_handles E cs rs.
Proof.
  destruct c, r; cbn [issued_handles app]; try reflexivity.
  destruct (load_fails E _ _ _ _ _ _); [|destruct cs, rs]; reflexivity.
Qed.

Lemma step_handles (st : globals E) (c : call) :
  handles_wf E st → g_next_handle E st < JLONG_MAX →
  handles_wf E (snd (step E st c)) ∧
  g_next_handle E st <= g_next_handle E (snd (step E st c)) <= g_next_handle E st + 1 ∧
  Forall (λ h, g_next_handle E st <= h < g_next_handle E (snd (step E st c)))
         (issued_handles E [c] [fst (step E st c)]) ∧
  (∀ h, is_Some (g_contexts E (snd (step E st c)) !! h) →
        is_Some (g_contexts E st !! h) ∨ h ∈ issued_handles E [c] [fst (step E st c)]).
Proof.
  intros [Hnext Hdom] Hmax. unfold JLONG_MAX in Hmax.
  destruct c as [env modelPath contextSize threads hw_threads seed throws
                |env handle prompt maxTokens temperature topP topK throws
                |handle]; cbn [step].
  - pose proof (nativeLoadModel_spec st env modelPath contextSize threads hw_threads seed throws)
      as Hspec. cbn zeta in Hspec.
    destruct (nativeLoadModel E st env modelPath contextSize threads hw_threads seed throws)
      as [h st'] eqn:Hload. cbn [fst snd issued_handles] in *.
    assert (Hwrap : to_jlong (g_next_handle E st + 1) = g_next_handle E st + 1)
      by (apply to_jlong_small; lia).
    destruct (load_fails E env modelPath contextSize threads hw_threads throws).
    + destruct Hspec as (-> & Hc & Hn). rewrite Hwrap in Hn.
      split; [split; [lia|]|split; [lia|split; [constructor|]]].
      * intros h. rewrite Hc. intros Hh. specialize (Hdom h Hh). lia.
      * intros h. rewrite Hc. auto.
    + destruct Hspec as (-> & Hn & m & c & Hc). rewrite Hwrap in Hn.
      split; [split; [lia|]|split; [lia|split; [repeat constructor; lia|]]].
      * intros h. rewrite Hc, Hn.
        destruct (decide (g_next_handle E st = h)) as [<-|Hne]; [lia|].
        rewrite lookup_insert_ne by assumption. intros Hh. specialize (Hdom h Hh). lia.
      * intros h. rewrite Hc.
        destruct (decide (g_next_handle E st = h)) as [<-|Hne].
        { intros _. right. apply list_elem_of_singleton. reflexivity. }
        rewrite lookup_insert_ne by assumption. auto.
  - destruct (nativeGenerateText E st env handle prompt maxTokens temperature topP topK throws)
      as [r st'] eqn:Hgen. cbn [fst snd issued_handles].
    pose proof (nativeGenerateText_next_handle st env handle prompt maxTokens temperature topP
                  topK throws) as Hn.
    pose proof (nativeGenerateText_present st env handle prompt maxTokens temperature topP
                  topK throws) as Hp.
    rewrite Hgen in Hn, Hp. cbn [snd] in Hn, Hp. rewrite Hn.
    split; [split; [lia|]|split; [lia|split; [constructor|]]].
    + intros h Hh. rewrite Hn. apply Hdom, Hp, Hh.
    + intros h Hh. left. apply Hp, Hh.
  - cbn [fst snd issued_handles]. unfold handles_wf. rewrite nativeCleanup_next_handle.
    assert (Hsub : ∀ h, is_Some (g_contexts E (nativeCleanup E st handle) !! h) →
                        is_Some (g_contexts E st !! h)).
    { intros h. rewrite nativeCleanup_lookup. case_decide; [intros [? ?]; discriminate|auto]. }
    split; [split; [lia|]|split; [lia|split; [constructor|]]]; auto.
Qed.

Lemma run_cons (st : globals E) (c : call) (cs : list call) :
  run E st (c :: cs) =
  (fst (step E st c) :: fst (run E (snd (step E st c)) cs),
   snd (run E (snd (step E st c)) cs)).
Proof.
  cbn [run]. destruct (step E st c) as [r st1]. cbn [fst snd].
  destruct (run E st1 cs) as [rs st2]. reflexivity.
Qed.

Lemma run_length (cs : list call) (st : globals E) : length (fst (run E st cs)) = length cs.
Proof.
  revert st. induction cs as [|c cs IH]; intros st; [reflexivity|].
  rewrite run_cons. cbn [fst length]. rewrite IH. reflexivity.
Qed.

(** The handles issued along a run lie between the counter before and the
    counter after, in increasing order, and every session present after the
    run was present before it or is stored under one of them. *)
Lemma run_handles (cs : list call) (st : globals E) :
  handles_wf E st → g_next_handle E st + Z.of_nat (length cs) <= JLONG_MAX →
  handles_wf E (snd (run E st cs)) ∧
  g_next_handle E st <= g_next_handle E (snd (run E st cs))
    <= g_next_handle E st + Z.of_nat (length cs) ∧
  Forall (λ h, g_next_handle E st <= h < g_next_handle E (snd (run E st cs)))
         (issued_handles E cs (fst (run E st cs))) ∧
  StronglySorted Z.lt (issued_handles E cs (fst (run E st cs))) ∧
  (∀ h, is_Some (g_contexts E (snd (run E st cs)) !! h) →
        is_Some (g_contexts E st !! h) ∨ h ∈ issued_handles E cs (fst (run E st cs))).
Proof.
  revert st. induction cs as [|c cs IH]; intros st Hwf Hmax.
  - cbn [run fst snd issued_handles length]. rewrite Z.add_0_r.
    split; [assumption|]. split; [lia|]. split; [constructor|]. split; [constructor|]. auto.
  - rewrite run_cons. cbn [fst snd]. rewrite issued_handles_cons.
    cbn [length] in *. rewrite Nat2Z.inj_succ in *.
    destruct (step_handles st c Hwf ltac:(lia)) as (Hwf1 & Hn1 & Hi1 & Hd1).
    destruct (IH (snd (step E st c)) Hwf1 ltac:(lia)) as (Hwf2 & Hn2 & Hi2 & Hs2 & Hd2).
    split; [assumption|]. split; [lia|]. split; [|split].
    + apply Forall_app. split.
      * eapply Forall_impl; [exact Hi1|]. cbn beta. intros h Hh. lia.
      * eapply Forall_impl; [exact Hi2|]. cbn beta. intros h Hh. lia.
    + destruct (issued_handles E [c] [fst (step E st c)]) as [|h [|h' l]] eqn:Hone.
      * exact Hs2.
      * cbn [app]. constructor; [exact Hs2|].
        apply Forall_inv in Hi1.
        eapply Forall_impl; [exact Hi2|]. cbn beta. intros k Hk. lia.
      * exfalso. clear -Hone. destruct c, (fst (step E st _)); cbn in Hone; try discriminate.
        destruct (load_fails E _ _ _ _ _ _); discriminate.
    + intros h Hh. destruct (Hd2 h Hh) as [Hh1|Hh2].
      * destruct (Hd1 h Hh1) as [?|?]; [auto|]. right. apply elem_of_app. auto.
      * right. apply elem_of_app. auto.
Qed.

Lemma run_app (cs1 cs2 : list call) (st : globals E) :
  run E st (cs1 ++ cs2) =
  (fst (run E st cs1) ++ fst (run E (snd (run E st cs1)) cs2),
   snd (run E (snd (run E st cs1)) cs2)).
Proof.
  revert st. induction cs1 as [|c cs1 IH]; intros st.
  - cbn [app run fst snd]. destruct (run E st cs2); reflexivity.
  - rewrite <- app_comm_cons, !run_cons, IH. reflexivity.
Qed.

Lemma issued_handles_app (cs1 cs2 : list call) (rs1 rs2 : list reply) :
  length rs1 = length cs1 →
  issued_handles E (cs1 ++ cs2) (rs1 ++ rs2) = issued_handles E cs1 rs1 ++ issued_handles E cs2 rs2.
Proof.
  revert rs1. induction cs1 as [|c cs1 IH]; intros [|r rs1] Hlen; try discriminate.
  - reflexivity.
  - rewrite <- !app_comm_cons.
    rewrite (issued_handles_cons c r (cs1 ++ cs2) (rs1 ++ rs2)).
    rewrite (issued_handles_cons c r cs1 rs1).
    rewrite IH by (cbn in Hlen; lia). rewrite app_assoc. reflexivity.
Qed.

Lemma StronglySorted_lt_NoDup (l : list Z) : StronglySorted Z.lt l → NoDup l.
Proof.
  induction 1 as [|x l Hl IH Hx]; constructor; [|assumption].
  intros Hin. rewrite Forall_forall in Hx. specialize (Hx x Hin). lia.
Qed.

Lemma initial_globals_wf : handles_wf E (initial_globals E).
Proof.
  split; [cbn [initial_globals g_next_handle]; lia|].
  intros h [s Hs]. cbn [initial_globals g_contexts] in Hs.
  rewrite lookup_empty in Hs. discriminate.
Qed.

(** A handle below the counter that is not in the registry stays out of it. *)
Lemma run_absent (cs : list call) (st : globals E) (handle : Z) :
  handles_wf E st → g_next_handle E st + Z.of_nat (length cs) <= JLONG_MAX →
  handle < g_next_handle E st → g_contexts E st !! handle = None →
  g_contexts E (snd (run E st cs)) !! handle = None.
Proof.
  intros Hwf Hmax Hlt Hnone.
  destruct (run_handles cs st Hwf Hmax) as (_ & _ & Hi & _ & Hd).
  apply eq_None_not_Some. intros Hsome.
  destruct (Hd handle Hsome) as [Hold|Hnew].
  - rewrite Hnone in Hold. destruct Hold; discriminate.
  - rewrite Forall_forall in Hi. specialize (Hi handle Hnew). lia.
Qed.

(** X1.  Every load request that fails (the environment pointer or the path
    is null, the path is empty, the engine does not load the model or does
    not make the context, or the runtime throws at any point) returns 0 and
    leaves the registry as it was; and whatever the request, a session that
    the registry holds after it was there before or has both its model and
    its context. *)
Theorem nativeLoadModel_failure (st : globals E) (env : option JNIEnv)
    (modelPath : option jstring) (contextSize threads : Z) (hw_threads : N) (seed : Z)
    (throws : load_point → bool) :
  let r := nativeLoadModel E st env modelPath contextSize threads hw_threads seed throws in
  let fails := load_fails E env modelPath contextSize threads hw_threads throws in
  let model_params := {| use_mmap := true; use_mlock := false |} in
  let ctx_params :=
    load_context_params (if contextSize <=? 0 then 2048 else contextSize) threads hw_threads in
  (env = None ∨ modelPath = None ∨
   (∃ jni, env = Some jni ∧ jstring_to_string jni modelPath = ""%string) ∨
   (∃ jni, env = Some jni ∧
           llama_model_load_from_file E (jstring_to_string jni modelPath) model_params = None) ∨
   (∃ jni m, env = Some jni ∧
             llama_model_load_from_file E (jstring_to_string jni modelPath) model_params = Some m ∧
             llama_init_from_model E m ctx_params = None) ∨
   (∃ p, throws p = true) → fails = true) ∧
  (fails = true → fst r = 0 ∧ g_contexts E (snd r) = g_contexts E st) ∧
  (∀ h s, g_contexts E (snd r) !! h = Some s →
          g_contexts E st !! h = Some s ∨ (is_Some (model E s) ∧ is_Some (context E s))).
Proof.
  cbn zeta.
  pose proof (nativeLoadModel_spec st env modelPath contextSize threads hw_threads seed throws)
    as Hspec. cbn zeta in Hspec.
  split; [|split].
  - unfold load_fails.
    intros [->|[->|[(jni & -> & Hp)|[(jni & -> & Hl)|[(jni & m & -> & Hl & Hi)|(p & Hp)]]]]];
      [reflexivity|destruct env; reflexivity|..];
      (destruct modelPath as [mp|]; [|try destruct env; reflexivity]).
    + rewrite Hp. cbn [String.eqb]. rewrite orb_true_r. reflexivity.
    + rewrite Hl. apply orb_true_r.
    + rewrite Hl, Hi. apply orb_true_r.
    + destruct env as [jni|]; [|reflexivity].
      destruct (throws LoadPathString) eqn:H1; [reflexivity|].
      destruct (String.eqb _ "") eqn:H2; [reflexivity|].
      destruct (throws LoadMakeUnique) eqn:H3; [reflexivity|]. cbn [orb].
      destruct (llama_model_load_from_file E _ _) as [m|]; [|reflexivity].
      destruct (llama_init_from_model E m _) as [c|]; [|reflexivity].
      destruct p; rewrite ?Hp in *; try discriminate; [reflexivity|apply orb_true_r].
  - intros Hf. rewrite Hf in Hspec. tauto.
  - intros h s Hs.
    destruct (load_fails E env modelPath contextSize threads hw_threads throws).
    + destruct Hspec as (_ & Hc & _). rewrite Hc in Hs. auto.
    + destruct Hspec as (_ & _ & m & c & Hc). rewrite Hc in Hs.
      destruct (decide (g_next_handle E st = h)) as [<-|Hne].
      * rewrite lookup_insert_eq in Hs. injection Hs as <-. right. cbn. eauto.
      * rewrite lookup_insert_ne in Hs by assumption. auto.
Qed.



Lemma LlamaContext_destroy_no_init (ctx : LlamaContext E) :
  Forall (λ ev, is_backend_init E ev = false) (LlamaContext_destroy E ctx).
Proof.
  unfold LlamaContext_destroy, LlamaContext_cleanup. cbn [fst].
  destruct (context E ctx), (model E ctx); repeat constructor.
Qed.

(** What a load adds to the log after the initialisation of the backend:
    the releases of the session object it made, when it fails. *)
Lemma nativeLoadModel_log (st : globals E) env modelPath contextSize threads hw_threads seed throws :
  let r := nativeLoadModel E st env modelPath contextSize threads hw_threads seed throws in
  g_backend_initialized E (snd r) = true ∧
  ∃ evs, engine_log E (snd r) = engine_log E (backend_init E st) ++ evs ∧
         Forall (λ ev, is_backend_init E ev = false) evs.
Proof.
  cbn zeta. unfold nativeLoadModel.
  assert (Hinit : g_backend_initialized E (backend_init E st) = true).
  { unfold backend_init. destruct (g_backend_initialized E st) eqn:Hb; [exact Hb|reflexivity]. }
  assert (Hnil : ∃ evs, engine_log E (backend_init E st) = engine_log E (backend_init E st) ++ evs ∧
                        Forall (λ ev, is_backend_init E ev = false) evs).
  { exists []. rewrite app_nil_r. split; [reflexivity|constructor]. }
  destruct env as [jni|], modelPath as [p|]; cbn [fst snd]; auto.
  destruct (throws LoadPathString); cbn [fst snd]; auto.
  destruct (String.eqb _ ""); cbn [fst snd]; auto.
  destruct (throws LoadMakeUnique); cbn [fst snd]; auto.
  destruct (llama_model_load_from_file E _ _) as [m|]; cbn [fst snd];
    [|split; [exact Hinit|eexists; split; [reflexivity|apply LlamaContext_destroy_no_init]]].
  destruct (llama_init_from_model E m _) as [c|]; cbn [fst snd];
    [|split; [exact Hinit|eexists; split; [reflexivity|apply LlamaContext_destroy_no_init]]].
  destruct (throws LoadReserve); cbn [fst snd];
    [split; [exact Hinit|eexists; split; [reflexivity|apply LlamaContext_destroy_no_init]]|].
  destruct (throws LoadInsert); cbn [fst snd];
    [split; [exact Hinit|eexists; split; [reflexivity|apply LlamaContext_destroy_no_init]]|].
  split; [exact Hinit|].
  unfold store_context. cbn [set_next_handle g_contexts set_contexts log_events engine_log].
  rewrite backend_init_contexts.
  eexists. split; [reflexivity|].
  destruct (g_contexts E st !! g_next_handle E (backend_init E st)) as [old|];
    [apply LlamaContext_destroy_no_init|constructor].
Qed.


(** The globals after a load request that does not fail. *)
Lemma nativeLoadModel_stores (st : globals E) (env : option JNIEnv)
    (modelPath : option jstring) (contextSize threads : Z) (hw_threads : N) (seed : Z)
    (throws : load_point → bool) :
  load_fails E env modelPath contextSize threads hw_threads throws = false →
  handles_wf E st → g_next_handle E st < JLONG_MAX →
  let r := nativeLoadModel E st env modelPath contextSize threads hw_threads seed throws in
  ∃ jni m c,
    env = Some jni ∧
    llama_model_load_from_file E (jstring_to_string jni modelPath)
      {| use_mmap := true; use_mlock := false |} = Some m ∧
    llama_init_from_model E m
      (load_context_params (if contextSize <=? 0 then 2048 else contextSize) threads hw_threads)
      = Some c ∧
    fst r = g_next_handle E st ∧
    g_contexts E st !! g_next_handle E st = None ∧
    g_next_handle E (snd r) = g_next_handle E st + 1 ∧
    g_contexts E (snd r)
    = <[g_next_handle E st := Build_LlamaContext E (Some m) (Some c) [] seed]> (g_contexts E st) ∧
    engine_log E (snd r) = engine_log E (backend_init E st).
Proof.
  intros Hf [Hnext Hdom] Hmax. cbn zeta. unfold JLONG_MAX in Hmax.
  unfold load_fails in Hf. unfold nativeLoadModel.
  pose proof (backend_init_contexts st) as Hc.
  pose proof (backend_init_next_handle st) as Hn.
  destruct env as [jni|]; [|discriminate]. destruct modelPath as [p|]; [|discriminate].
  destruct (throws LoadPathString); [discriminate|].
  destruct (String.eqb _ ""); [discriminate|].
  destruct (throws LoadMakeUnique); [discriminate|]. cbn [orb] in Hf.
  destruct (llama_model_load_from_file E _ _) as [m|] eqn:Hl; [|discriminate].
  destruct (llama_init_from_model E m _) as [c|] eqn:Hi; [|discriminate].
  destruct (throws LoadReserve); [discriminate|].
  destruct (throws LoadInsert); [discriminate|].
  assert (Hfree : g_contexts E st !! g_next_handle E st = None).
  { apply eq_None_not_Some. intros Hs. specialize (Hdom _ Hs). lia. }
  exists jni, m, c. cbn [fst snd model context tokens rng].
  unfold store_context.
  cbn [set_next_handle set_contexts log_events g_contexts g_next_handle engine_log].
  rewrite Hc, Hn, Hfree, app_nil_r.
  split; [reflexivity|]. split; [exact Hl|]. split; [exact Hi|].
  split; [reflexivity|]. split; [reflexivity|]. split; [apply to_jlong_small; lia|].
  split; reflexivity.
Qed.

(** X2.  A load request that does not fail, made while the counter is below
    the largest [jlong] and every handle in the registry is below the
    counter, returns the counter as the handle, advances the counter by one
    and stores under the handle, which was free, a session that holds the
    model and the context the engine returned, an empty token history and
    the seed; every other handle keeps its session and nothing is released. *)
Theorem nativeLoadModel_success (st : globals E) (env : option JNIEnv)
    (modelPath : option jstring) (contextSize threads : Z) (hw_threads : N) (seed : Z)
    (throws : load_point → bool) :
  load_fails E env modelPath contextSize threads hw_threads throws = false →
  handles_wf E st → g_next_handle E st < JLONG_MAX →
  let r := nativeLoadModel E st env modelPath contextSize threads hw_threads seed throws in
  ∃ jni m c,
    env = Some jni ∧
    llama_model_load_from_file E (jstring_to_string jni modelPath)
      {| use_mmap := true; use_mlock := false |} = Some m ∧
    llama_init_from_model E m
      (load_context_params (if contextSize <=? 0 then 2048 else contextSize) threads hw_threads)
      = Some c ∧
    fst r = g_next_handle E st ∧ 0 < fst r ∧
    g_next_handle E (snd r) = g_next_handle E st + 1 ∧
    g_contexts E st !! fst r = None ∧
    get_context E (snd r) (fst r) = Some (Build_LlamaContext E (Some m) (Some c) [] seed) ∧
    (∀ h, h ≠ fst r → get_context E (snd r) h = get_context E st h) ∧
    engine_log E (snd r) = engine_log E (backend_init E st).
Proof.
  intros Hf Hwf Hmax. cbn zeta.
  destruct (nativeLoadModel_stores st env modelPath contextSize threads hw_threads seed throws
              Hf Hwf Hmax) as (jni & m & c & Henv & Hl & Hi & Hh & Hfree & Hn & Hmap & Hlog).
  cbn zeta in Hh, Hn, Hmap, Hlog. destruct Hwf as [Hnext _].
  exists jni, m, c. unfold get_context. rewrite Hh, Hmap.
  split; [exact Henv|]. split; [exact Hl|]. split; [exact Hi|].
  split; [reflexivity|]. split; [lia|]. split; [exact Hn|].
  split; [exact Hfree|]. split; [apply lookup_insert_eq|].
  split; [|exact Hlog]. intros h Hne. apply lookup_insert_ne. congruence.
Qed.

(** X3.  A load request with a context size that is not positive does what
    the same request does with the context size 2048. *)
Theorem nativeLoadModel_default_context_size (st : globals E) (env : option JNIEnv)
    (modelPath : option jstring) (contextSize threads : Z) (hw_threads : N) (seed : Z)
    (throws : load_point → bool) :
  contextSize <= 0 →
  nativeLoadModel E st env modelPath contextSize threads hw_threads seed throws =
  nativeLoadModel E st env modelPath 2048 threads hw_threads seed throws.
Proof.
  intros Hcs. unfold nativeLoadModel.
  destruct (Z.leb_spec contextSize 0) as [_|Hgt]; [|lia].
  change (2048 <=? 0) with false. reflexivity.
Qed.




Lemma backend_inits_app (l1 l2 : list (engine_event E)) :
  backend_inits E (l1 ++ l2) = (backend_inits E l1 + backend_inits E l2)%nat.
Proof. unfold backend_inits. rewrite List.filter_app, length_app. reflexivity. Qed.

Lemma backend_inits_none (l : list (engine_event E)) :
  Forall (λ ev, is_backend_init E ev = false) l → backend_inits E l = 0%nat.
Proof.
  unfold backend_inits. induction 1 as [|ev l Hev _ IH]; [reflexivity|].
  cbn [List.filter]. rewrite Hev. exact IH.
Qed.


Lemma step_backend_once (st : globals E) (c : call) :
  backend_once E st →
  backend_once E (snd (step E st c)) ∧
  g_backend_initialized E (snd (step E st c)) = is_load c || g_backend_initialized E st.
Proof.
  unfold backend_once. intros Hinv.
  destruct c as [env modelPath contextSize threads hw_threads seed throws
                |env handle prompt maxTokens temperature topP topK throws
                |handle]; cbn [step is_load orb].
  - destruct (nativeLoadModel_log st env modelPath contextSize threads hw_threads seed throws)
      as (Hflag & evs & Hlog & Hevs).
    destruct (nativeLoadModel E st env modelPath contextSize threads hw_threads seed throws)
      as [h st'] eqn:Hload. cbn [fst snd] in *.
    rewrite Hflag, Hlog, backend_inits_app, (backend_inits_none evs Hevs).
    split; [|reflexivity]. unfold backend_init.
    destruct (g_backend_initialized E st); cbn [engine_log]; [lia|].
    rewrite backend_inits_app, Hinv. reflexivity.
  - pose proof (nativeGenerateText_globals st env handle prompt maxTokens temperature topP
                  topK throws) as Hg. cbn zeta in Hg.
    destruct (nativeGenerateText E st env handle prompt maxTokens temperature topP topK throws)
      as [r st'] eqn:Hgen. cbn [fst snd] in *.
    destruct Hg as [->|(ctx & c & toks & _ & ->)]; auto.
  - cbn [snd]. unfold nativeCleanup. destruct (handle =? 0); [auto|].
    destruct (g_contexts E st !! handle) as [ctx|]; [|auto].
    cbn [set_contexts log_events engine_log g_backend_initialized].
    rewrite backend_inits_app, (backend_inits_none _ (LlamaContext_destroy_no_init ctx)).
    split; [lia|reflexivity].
Qed.

(** X4.  Along every sequence of calls from the initial globals the backend
    is initialised at most once: the log holds one initialisation when the
    flag is set and none when it is not, and the flag is set exactly when a
    load was called, whether or not it succeeded. *)
Theorem backend_initialized_once (cs : list call) :
  let st := snd (run E (initial_globals E) cs) in
  backend_inits E (engine_log E st) = (if g_backend_initialized E st then 1%nat else 0%nat) ∧
  g_backend_initialized E st = existsb is_load cs.
Proof.
  cbn zeta.
  assert (Hgen : ∀ cs st, backend_once E st →
            backend_once E (snd (run E st cs)) ∧
            g_backend_initialized E (snd (run E st cs))
            = existsb is_load cs || g_backend_initialized E st).
  { clear cs. induction cs as [|c cs IH]; intros st Hinv.
    - cbn [run snd existsb orb]. auto.
    - rewrite run_cons. cbn [snd existsb].
      destruct (step_backend_once st c Hinv) as [Hinv1 Hflag1].
      destruct (IH _ Hinv1) as [Hinv2 Hflag2].
      split; [exact Hinv2|]. rewrite Hflag2, Hflag1.
      destruct (is_load c), (existsb is_load cs); reflexivity. }
  destruct (Hgen cs (initial_globals E) eq_refl) as [Hinv Hflag].
  split; [exact Hinv|]. rewrite Hflag. cbn [initial_globals g_backend_initialized].
  apply orb_false_r.
Qed.


(** X5.  A load request that fails after the engine handed out resources
    gives them back before it returns: the model when the context could not
    be made, the context and then the model when the runtime throws after
    both were made; a request that fails before the model is loaded releases
    nothing. *)
Theorem nativeLoadModel_failure_releases (st : globals E) (env : option JNIEnv)
    (modelPath : option jstring) (contextSize threads : Z) (hw_threads : N) (seed : Z)
    (throws : load_point → bool) :
  let r := nativeLoadModel E st env modelPath contextSize threads hw_threads seed throws in
  let log0 := engine_log E (backend_init E st) in
  let model_params := {| use_mmap := true; use_mlock := false |} in
  let ctx_params :=
    load_context_params (if contextSize <=? 0 then 2048 else contextSize) threads hw_threads in
  (env = None ∨ modelPath = None ∨ throws LoadPathString = true ∨
   throws LoadMakeUnique = true ∨
   (∃ jni, env = Some jni ∧
      (jstring_to_string jni modelPath = ""%string ∨
       llama_model_load_from_file E (jstring_to_string jni modelPath) model_params = None)) →
   engine_log E (snd r) = log0) ∧
  (∀ jni m, env = Some jni → modelPath ≠ None → throws LoadPathString = false →
     jstring_to_string jni modelPath ≠ ""%string → throws LoadMakeUnique = false →
     llama_model_load_from_file E (jstring_to_string jni modelPath) model_params = Some m →
     (llama_init_from_model E m ctx_params = None →
      fst r = 0 ∧ engine_log E (snd r) = log0 ++ [EvModelFree E m]) ∧
     (∀ c, llama_init_from_model E m ctx_params = Some c →
           throws LoadReserve = true ∨ throws LoadInsert = true →
           fst r = 0 ∧ engine_log E (snd r) = log0 ++ [EvFree E c; EvModelFree E m])).
Proof.
  cbn zeta. unfold nativeLoadModel. split.
  - intros [->|[->|[Hp|[Hp|(jni & -> & Hp)]]]].
    + reflexivity.
    + destruct env; reflexivity.
    + destruct env, modelPath; try reflexivity. rewrite Hp. reflexivity.
    + destruct env, modelPath; try reflexivity.
      destruct (throws LoadPathString); [reflexivity|].
      destruct (String.eqb _ ""); [reflexivity|]. rewrite Hp. reflexivity.
    + destruct modelPath as [p|]; [|reflexivity].
      destruct (throws LoadPathString); [reflexivity|].
      destruct Hp as [Hp|Hp].
      * rewrite Hp. reflexivity.
      * destruct (String.eqb _ ""); [reflexivity|].
        destruct (throws LoadMakeUnique); [reflexivity|].
        rewrite Hp. cbn. apply app_nil_r.
  - intros jni m -> Hpath Hp1 Hne Hp2 Hl.
    destruct modelPath as [p|]; [|congruence]. rewrite Hp1.
    destruct (String.eqb_spec (jstring_to_string jni (Some p)) "") as [Heq|_]; [congruence|].
    rewrite Hp2, Hl. split.
    + intros Hi. rewrite Hi. split; reflexivity.
    + intros c Hi Hthrow. rewrite Hi.
      destruct (throws LoadReserve); [split; reflexivity|].
      destruct Hthrow as [Ht|Ht]; [discriminate|]. rewrite Ht. split; reflexivity.
Qed.

(** X6.  Along every sequence of fewer than [JLONG_MAX] calls from the
    initial globals, the handles returned by the loads that did not fail are
    positive and strictly increasing in the order of issue, hence pairwise
    distinct; every session in the registry is stored under one of them, and
    none under 0. *)
Theorem issued_handles_increasing (cs : list call) :
  Z.of_nat (length cs) < JLONG_MAX →
  let rs := fst (run E (initial_globals E) cs) in
  let st := snd (run E (initial_globals E) cs) in
  let hs := issued_handles E cs rs in
  Forall (λ h, 0 < h) hs ∧ StronglySorted Z.lt hs ∧ NoDup hs ∧
  (∀ h, is_Some (get_context E st h) → h ∈ hs) ∧
  get_context E st 0 = None.
Proof.
  intros Hlen. cbn zeta.
  destruct (run_handles cs (initial_globals E) initial_globals_wf) as (Hwf & _ & Hi & Hs & Hd).
  { cbn [initial_globals g_next_handle]. lia. }
  cbn [initial_globals g_next_handle g_contexts] in Hi, Hd.
  split; [|split; [exact Hs|split; [apply StronglySorted_lt_NoDup, Hs|split]]].
  - eapply Forall_impl; [exact Hi|]. cbn beta. intros h Hh. lia.
  - intros h Hh. destruct (Hd h Hh) as [[s Hempty]|Hin]; [|exact Hin].
    rewrite lookup_empty in Hempty. discriminate.
  - unfold get_context. apply eq_None_not_Some. intros Hsome.
    destruct Hwf as [_ Hdom]. specialize (Hdom 0 Hsome). lia.
Qed.

(** X7.  After every sequence of fewer than [JLONG_MAX] calls from the
    initial globals, [nativeCleanup] of a handle that is 0, was never issued,
    or was issued and already cleaned up leaves the globals as they are
    (registry, sessions, counter and log, so nothing is released), however
    many times it is called; and on any globals and any handle a second
    [nativeCleanup] changes nothing more than the first. *)
Theorem nativeCleanup_invalid_noop (cs : list call) (handle : Z) :
  Z.of_nat (length cs) < JLONG_MAX →
  let rs := fst (run E (initial_globals E) cs) in
  let st := snd (run E (initial_globals E) cs) in
  handle = 0 ∨ handle ∉ issued_handles E cs rs ∨ destroyed_in E (initial_globals E) cs handle →
  nativeCleanup E st handle = st ∧
  (∀ n : nat, Nat.iter n (λ s, nativeCleanup E s handle) st = st) ∧
  (∀ (st0 : globals E) (h : Z),
     nativeCleanup E (nativeCleanup E st0 h) h = nativeCleanup E st0 h).
Proof.
  intros Hlen. cbn zeta. intros Hinvalid.
  assert (Habs : handle = 0 ∨
                 g_contexts E (snd (run E (initial_globals E) cs)) !! handle = None).
  { destruct Hinvalid as [H0|[Hni|(cs1 & cs2 & -> & Hin)]]; [left; exact H0|right..].
    - destruct (run_handles cs (initial_globals E) initial_globals_wf) as (_ & _ & _ & _ & Hd).
      { cbn [initial_globals g_next_handle]. lia. }
      apply eq_None_not_Some. intros Hsome. destruct (Hd handle Hsome) as [[s Hs]|Hin].
      + cbn [initial_globals g_contexts] in Hs. rewrite lookup_empty in Hs. discriminate.
      + contradiction.
    - rewrite length_app in Hlen. cbn [length] in Hlen.
      rewrite run_app. cbn [snd]. rewrite run_cons. cbn [snd step].
      destruct (run_handles cs1 (initial_globals E) initial_globals_wf) as (Hwf1 & Hn1 & Hi1 & _).
      { cbn [initial_globals g_next_handle]. lia. }
      cbn [initial_globals g_next_handle] in Hn1, Hi1.
      rewrite Forall_forall in Hi1. specialize (Hi1 handle Hin).
      set (st1 := snd (run E (initial_globals E) cs1)) in *.
      destruct (step_handles st1 (CallCleanup handle) Hwf1 ltac:(unfold JLONG_MAX in *; lia))
        as (Hwf2 & _). cbn [step snd] in Hwf2.
      apply run_absent.
      + exact Hwf2.
      + rewrite nativeCleanup_next_handle. lia.
      + rewrite nativeCleanup_next_handle. lia.
      + rewrite nativeCleanup_lookup, decide_True; [reflexivity|]. split; [lia|reflexivity]. }
  split; [apply nativeCleanup_absent, Habs|]. split.
  - induction n as [|n IH]; [reflexivity|]. rewrite Nat.iter_succ, IH.
    apply nativeCleanup_absent, Habs.
  - apply nativeCleanup_twice.
Qed.

(** X8.  [nativeCleanup] of a handle under which the registry holds a
    session removes that session and no other, releases the session's
    context and then its model, and leaves the counter as it is. *)
Theorem nativeCleanup_live (st : globals E) (handle : Z) (ctx : LlamaContext E)
    (m : llama_model E) (c : llama_context E) :
  handle ≠ 0 → get_context E st handle = Some ctx →
  model E ctx = Some m → context E ctx = Some c →
  let st' := nativeCleanup E st handle in
  get_context E st' handle = None ∧
  (∀ h, h ≠ handle → get_context E st' h = get_context E st h) ∧
  S (size (g_contexts E st')) = size (g_contexts E st) ∧
  engine_log E st' = engine_log E st ++ [EvFree E c; EvModelFree E m] ∧
  g_next_handle E st' = g_next_handle E st.
Proof.
  unfold get_context. intros H0 Hctx Hm Hc. cbn zeta.
  split; [|split; [|split; [|split]]].
  - rewrite nativeCleanup_lookup, decide_True by tauto. reflexivity.
  - intros h Hh. rewrite nativeCleanup_lookup, decide_False; [reflexivity|].
    intros [_ ?]. congruence.
  - unfold nativeCleanup. destruct (Z.eqb_spec handle 0) as [?|_]; [contradiction|].
    rewrite Hctx. cbn [set_contexts g_contexts].
    rewrite <- (insert_delete_id (g_contexts E st) handle ctx Hctx) at 2.
    rewrite map_size_insert_None by apply lookup_delete_eq. reflexivity.
  - unfold nativeCleanup. destruct (Z.eqb_spec handle 0) as [?|_]; [contradiction|].
    rewrite Hctx. cbn [set_contexts log_events engine_log].
    unfold LlamaContext_destroy, LlamaContext_cleanup. rewrite Hm, Hc. reflexivity.
  - apply nativeCleanup_next_handle.
Qed.

End Registry.

(** ** The registry on concrete inputs *)

(** The load of [toy_calls] from the initial globals returns handle 1. *)
Lemma nativeLoadModel_success_toy :
  fst (nativeLoadModel toy_engine (initial_globals toy_engine) (Some toy_jni)
         (Some "model.gguf"%string) 8 4 0 0 no_throw_load) = 1.
Proof.
  destruct (nativeLoadModel_success toy_engine (initial_globals toy_engine) (Some toy_jni)
              (Some "model.gguf"%string) 8 4 0 0 no_throw_load
              eq_refl (initial_globals_wf toy_engine) eq_refl)
    as (jni & m & c & _ & _ & _ & Hh & _).
  exact Hh.
Defined.

(** A load with context size 0 is the load with context size 2048. *)
Lemma nativeLoadModel_default_context_size_toy :
  nativeLoadModel toy_engine (initial_globals toy_engine) (Some toy_jni)
    (Some "model.gguf"%string) 0 4 0 0 no_throw_load =
  nativeLoadModel toy_engine (initial_globals toy_engine) (Some toy_jni)
    (Some "model.gguf"%string) 2048 4 0 0 no_throw_load.
Proof.
  apply (nativeLoadModel_default_context_size toy_engine). discriminate.
Defined.

Lemma toy_calls_short : Z.of_nat (length toy_calls) < JLONG_MAX.
Proof. reflexivity. Defined.

(** [toy_calls] issue the one handle 1. *)
Lemma issued_handles_increasing_toy :
  issued_handles toy_engine toy_calls
    (fst (run toy_engine (initial_globals toy_engine) toy_calls)) = [1] ∧
  Forall (λ h, 0 < h)
    (issued_handles toy_engine toy_calls
       (fst (run toy_engine (initial_globals toy_engine) toy_calls))).
Proof.
  split; [reflexivity|].
  exact (proj1 (issued_handles_increasing toy_engine toy_calls toy_calls_short)).
Defined.

Lemma toy_calls_destroyed : destroyed_in toy_engine (initial_globals toy_engine) toy_calls 1.
Proof.
  exists (take 2 toy_calls), []. split; [reflexivity|].
  change (1 ∈ [1]). apply list_elem_of_here.
Defined.

(** After [toy_calls], which clean handle 1 up, cleaning it up again changes
    nothing. *)
Lemma nativeCleanup_invalid_noop_toy :
  nativeCleanup toy_engine (snd (run toy_engine (initial_globals toy_engine) toy_calls)) 1 =
  snd (run toy_engine (initial_globals toy_engine) toy_calls).
Proof.
  exact (proj1 (nativeCleanup_invalid_noop toy_engine toy_calls 1 toy_calls_short
                  (or_intror (or_intror toy_calls_destroyed)))).
Defined.

(** Cleaning up the session loaded by [toy_calls] empties the registry. *)
Lemma nativeCleanup_live_toy :
  get_context toy_engine (nativeCleanup toy_engine toy_loaded 1) 1 = None.
Proof.
  refine (proj1 (nativeCleanup_live toy_engine toy_loaded 1
                   (Build_LlamaContext toy_engine (Some tt) (Some (8, [])) [] 0) tt (8, [])
                   _ eq_refl eq_refl eq_refl)).
  discriminate.
Defined.

(** ** Generation *)

Section Generation.

Context (E : Engine).



Lemma string_app_nil_r (s : string) : (s +:+ "")%string = s.
Proof.
  induction s as [|a s IH]; [reflexivity|].
  change (String a (s +:+ "") = String a s). rewrite IH. reflexivity.
Qed.

Lemma string_app_assoc (s1 s2 s3 : string) :
  ((s1 +:+ s2) +:+ s3)%string = (s1 +:+ (s2 +:+ s3))%string.
Proof.
  induction s1 as [|a s1 IH]; [reflexivity|].
  change (String a ((s1 +:+ s2) +:+ s3) = String a (s1 +:+ (s2 +:+ s3))).
  rewrite IH. reflexivity.
Qed.

Lemma pieces_text_app (vocab : llama_vocab E) (ts1 ts2 : list llama_token) :
  pieces_text E vocab (ts1 ++ ts2) = (pieces_text E vocab ts1 +:+ pieces_text E vocab ts2)%string.
Proof.
  induction ts1 as [|t ts1 IH]; [reflexivity|].
  cbn [app pieces_text foldr]. fold (pieces_text E vocab (ts1 ++ ts2)).
  fold (pieces_text E vocab ts1). rewrite IH, string_app_assoc. reflexivity.
Qed.


Lemma generate_body_spec (ctx : LlamaContext E) (vocab : llama_vocab E)
    (throws : gen_point → option cpp_exception) (i : nat) (s : gen_state E) :
  body_spec E ctx vocab throws i s (fst (generate_body E ctx vocab throws i s))
    (snd (generate_body E ctx vocab throws i s)).
Proof.
  unfold generate_body.
  destruct (llama_get_logits_ith E _ _) as [logits|] eqn:Hlg;
    [|apply body_no_logits; exact Hlg].
  set (t := sample_token_greedy E _ _).
  destruct (llama_vocab_is_eog E vocab t) eqn:Heog; [eapply body_eog; eassumption|].
  pose proof (body_throw_append E ctx vocab throws i s logits) as Happ.
  pose proof (body_throw_push E ctx vocab throws i s logits) as Hpush.
  pose proof (body_token E ctx vocab throws i s logits Hlg) as Htok.
  cbn zeta in Happ, Hpush, Htok. fold t in Happ, Hpush, Htok.
  unfold piece_text in Hpush, Htok.
  destruct (llama_token_to_piece E vocab t 256 0 false) as [piece_len piece] eqn:Hpiece.
  cbn [fst] in Happ.
  destruct (Z.ltb_spec 0 piece_len) as [Hpos|Hnpos].
  - destruct (throws (GenAppend i)) as [e|] eqn:Hta; [cbn [fst snd]; eauto|].
    destruct (throws (GenPushBack i)) as [e|] eqn:Htp; [cbn [fst snd]; eauto|].
    specialize (Htok Heog eq_refl).
    destruct (llama_decode E _ _) as [rc c']. exact Htok.
  - destruct (throws (GenPushBack i)) as [e|] eqn:Htp.
    + cbn [fst snd]. specialize (Hpush e Hlg Heog eq_refl).
      rewrite string_app_nil_r in Hpush. exact Hpush.
    + specialize (Htok Heog eq_refl). rewrite string_app_nil_r in Htok.
      destruct (llama_decode E _ _) as [rc c']. exact Htok.
Qed.


Lemma generate_loop_S (ctx : LlamaContext E) (vocab : llama_vocab E)
    (throws : gen_point → option cpp_exception) (fuel i : nat) (s : gen_state E) :
  generate_loop E ctx vocab throws (S fuel) i s =
  match fst (generate_body E ctx vocab throws i s) with
  | LoopContinue =>
      generate_loop E ctx vocab throws fuel (S i) (snd (generate_body E ctx vocab throws i s))
  | LoopBreak => (None, snd (generate_body E ctx vocab throws i s))
  | LoopThrow e => (Some e, snd (generate_body E ctx vocab throws i s))
  end.
Proof.
  cbn [generate_loop]. destruct (generate_body E ctx vocab throws i s) as [[| |e] s'];
    reflexivity.
Qed.

(** The tokens the loop appends to the history: none of them ends the
    sequence, there are at most as many as turns, and when no exception ends
    the loop the text grows by their texts; an exception that ends the loop
    was thrown in the turn after them. *)
Lemma generate_loop_spec (ctx : LlamaContext E) (vocab : llama_vocab E)
    (throws : gen_point → option cpp_exception) (fuel : nat) :
  ∀ (i : nat) (s : gen_state E),
  ∃ new : list llama_token,
    gs_tokens E (snd (generate_loop E ctx vocab throws fuel i s)) = gs_tokens E s ++ new ∧
    Forall (λ t, llama_vocab_is_eog E vocab t = false) new ∧
    (length new ≤ fuel)%nat ∧
    match fst (generate_loop E ctx vocab throws fuel i s) with
    | None =>
        gs_result E (snd (generate_loop E ctx vocab throws fuel i s))
        = (gs_result E s +:+ pieces_text E vocab new)%string
    | Some e =>
        throws (GenAppend (i + length new)) = Some e ∨
        throws (GenPushBack (i + length new)) = Some e
    end.
Proof.
  induction fuel as [|fuel IH]; intros i s.
  { exists []. cbn [generate_loop fst snd pieces_text foldr length].
    rewrite app_nil_r, string_app_nil_r. repeat split; [constructor|lia]. }
  rewrite generate_loop_S.
  destruct (generate_body_spec ctx vocab throws i s)
    as [Hlg|logits Hlg Heog|logits e Hlg t Heog Hlen Hthrow|logits e Hlg t Heog Hthrow
       |logits Hlg t b Heog Hthrow].
  - exists []. cbn [fst snd pieces_text foldr length].
    rewrite app_nil_r, string_app_nil_r. repeat split; [constructor|lia].
  - exists []. cbn [fst snd pieces_text foldr length].
    rewrite app_nil_r, string_app_nil_r. repeat split; [constructor|lia].
  - exists []. cbn [fst snd length]. rewrite app_nil_r, Nat.add_0_r.
    repeat split; [constructor|lia|left; exact Hthrow].
  - exists []. cbn [fst snd length gs_tokens]. rewrite app_nil_r, Nat.add_0_r.
    repeat split; [constructor|lia|right; exact Hthrow].
  - destruct (fst (llama_decode E (gs_context E s) b) =? 0).
    + match goal with |- context [generate_loop E ctx vocab throws fuel (S i) ?s1] =>
        destruct (IH (S i) s1) as (new & Htoks & Hne & Hlen & Hres) end.
      exists (t :: new). rewrite Htoks. cbn [gs_tokens gs_result] in *.
      rewrite <- app_assoc. split; [reflexivity|].
      split; [constructor; assumption|]. split; [cbn [length]; lia|].
      cbn [length]. rewrite Nat.add_succ_r.
      destruct (fst (generate_loop E ctx vocab throws fuel (S i) _)) as [e|];
        [exact Hres|].
      rewrite Hres, string_app_assoc. reflexivity.
    + exists [t]. cbn [fst snd gs_tokens gs_result pieces_text foldr length].
      rewrite string_app_nil_r.
      repeat split; [repeat constructor; assumption|lia].
Qed.

(** The body of the loop, by what the engine and the runtime do in the turn. *)
Lemma generate_body_unfold (ctx : LlamaContext E) (vocab : llama_vocab E)
    (throws : gen_point → option cpp_exception) (i : nat) (s : gen_state E) :
  generate_body E ctx vocab throws i s =
  match llama_get_logits_ith E (gs_context E s) (batch_n_tokens (gs_batch E s) - 1) with
  | None => (LoopBreak, s)
  | Some logits =>
      let t := sample_token_greedy E (Some (session_of E ctx (gs_context E s) (gs_tokens E s)))
                 (Some logits) in
      if llama_vocab_is_eog E vocab t then (LoopBreak, s) else
      match (if 0 <? fst (llama_token_to_piece E vocab t 256 0 false)
             then throws (GenAppend i) else None) with
      | Some e => (LoopThrow e, s)
      | None =>
          let b := next_batch (gs_batch E s) t (Z.of_nat (length (gs_tokens E s))) in
          let text := (gs_result E s +:+ piece_text E vocab t)%string in
          match throws (GenPushBack i) with
          | Some e =>
              (LoopThrow e,
               {| gs_context := gs_context E s; gs_tokens := gs_tokens E s;
                  gs_batch := b; gs_result := text |})
          | None =>
              (if fst (llama_decode E (gs_context E s) b) =? 0 then LoopContinue else LoopBreak,
               {| gs_context := snd (llama_decode E (gs_context E s) b);
                  gs_tokens := gs_tokens E s ++ [t]; gs_batch := b; gs_result := text |})
          end
      end
  end.
Proof.
  unfold generate_body, piece_text.
  destruct (llama_get_logits_ith E _ _) as [logits|]; [|reflexivity]. cbn zeta.
  destruct (llama_vocab_is_eog E vocab _); [reflexivity|].
  destruct (llama_token_to_piece E vocab _ 256 0 false) as [piece_len piece]. cbn [fst].
  destruct (0 <? piece_len).
  - destruct (throws (GenAppend i)); [reflexivity|].
    destruct (throws (GenPushBack i)); [reflexivity|].
    destruct (llama_decode E _ _); reflexivity.
  - rewrite string_app_nil_r.
    destruct (throws (GenPushBack i)); [reflexivity|].
    destruct (llama_decode E _ _); reflexivity.
Qed.

Lemma loop_reaches_le (ctx : LlamaContext E) (vocab : llama_vocab E)
    (throws : gen_point → option cpp_exception) (i k : nat) (s sk : gen_state E) :
  loop_reaches E ctx vocab throws i s k sk → (i ≤ k)%nat.
Proof. induction 1; lia. Qed.

(** The loop that comes to turn [k] does from there what it does when it is
    started there with the turns that are left. *)
Lemma generate_loop_reaches (ctx : LlamaContext E) (vocab : llama_vocab E)
    (throws : gen_point → option cpp_exception) (i k : nat) (s sk : gen_state E) :
  loop_reaches E ctx vocab throws i s k sk →
  ∀ fuel : nat,
    generate_loop E ctx vocab throws ((k - i) + fuel) i s
    = generate_loop E ctx vocab throws fuel k sk.
Proof.
  induction 1 as [i s|i s k sk Hbody Hreach IH]; intros fuel.
  - rewrite Nat.sub_diag. reflexivity.
  - pose proof (loop_reaches_le _ _ _ _ _ _ _ Hreach) as Hle.
    replace (k - i + fuel)%nat with (S (k - S i + fuel)) by lia.
    rewrite generate_loop_S, Hbody. apply IH.
Qed.

(** A turn that goes on to the next appended one token, which does not end
    the sequence, and its text, and the runtime did not throw in it. *)
Lemma generate_body_continue (ctx : LlamaContext E) (vocab : llama_vocab E)
    (throws : gen_point → option cpp_exception) (i : nat) (s : gen_state E) :
  fst (generate_body E ctx vocab throws i s) = LoopContinue →
  ∃ t, llama_vocab_is_eog E vocab t = false ∧
       gs_tokens E (snd (generate_body E ctx vocab throws i s)) = gs_tokens E s ++ [t] ∧
       gs_result E (snd (generate_body E ctx vocab throws i s))
       = (gs_result E s +:+ piece_text E vocab t)%string ∧
       throws (GenPushBack i) = None ∧
       (0 < fst (llama_token_to_piece E vocab t 256 0 false) → throws (GenAppend i) = None) ∧
       ∃ b, gs_context E (snd (generate_body E ctx vocab throws i s))
            = snd (llama_decode E (gs_context E s) b).
Proof.
  rewrite generate_body_unfold.
  destruct (llama_get_logits_ith E _ _) as [logits|]; [|discriminate]. cbn zeta.
  set (t := sample_token_greedy E _ _).
  destruct (llama_vocab_is_eog E vocab t) eqn:Heog; [discriminate|].
  destruct (Z.ltb_spec 0 (fst (llama_token_to_piece E vocab t 256 0 false))) as [Hlen|Hlen].
  - destruct (throws (GenAppend i)) eqn:Ha; [discriminate|].
    destruct (throws (GenPushBack i)) eqn:Hp; [discriminate|].
    cbn [fst snd gs_tokens gs_result gs_context]. intros _. exists t. eauto 10.
  - destruct (throws (GenPushBack i)) eqn:Hp; [discriminate|].
    cbn [fst snd gs_tokens gs_result gs_context]. intros _. exists t.
    split; [exact Heog|]. split; [reflexivity|]. split; [reflexivity|].
    split; [reflexivity|]. split; [lia|]. eauto.
Qed.

(** What the turns up to turn [k] did: one token each, none of which ends
    the sequence, and their texts. *)
Lemma loop_reaches_history (ctx : LlamaContext E) (vocab : llama_vocab E)
    (throws : gen_point → option cpp_exception) (i k : nat) (s sk : gen_state E) :
  loop_reaches E ctx vocab throws i s k sk →
  ∃ new : list llama_token,
    length new = (k - i)%nat ∧
    gs_tokens E sk = gs_tokens E s ++ new ∧
    Forall (λ t, llama_vocab_is_eog E vocab t = false) new ∧
    gs_result E sk = (gs_result E s +:+ pieces_text E vocab new)%string.
Proof.
  induction 1 as [i s|i s k sk Hbody Hreach (new & Hlen & Htoks & Hne & Hres)].
  - exists []. rewrite Nat.sub_diag, app_nil_r. cbn [pieces_text foldr].
    rewrite string_app_nil_r. repeat split. constructor.
  - pose proof (loop_reaches_le _ _ _ _ _ _ _ Hreach) as Hle.
    destruct (generate_body_continue ctx vocab throws i s Hbody)
      as (t & Heog & Ht & Hr & _).
    exists (t :: new). rewrite Htoks, Hres, Ht, Hr, <- app_assoc, string_app_assoc.
    cbn [length]. split; [lia|]. split; [reflexivity|]. split; [|reflexivity].
    constructor; assumption.
Qed.

(** Token histories, by length. *)
Lemma generate_loop_length (ctx : LlamaContext E) (vocab : llama_vocab E)
    (throws : gen_point → option cpp_exception) (fuel i : nat) (s : gen_state E) :
  (length (gs_tokens E s)
   ≤ length (gs_tokens E (snd (generate_loop E ctx vocab throws fuel i s)))
   ≤ length (gs_tokens E s) + fuel)%nat.
Proof.
  destruct (generate_loop_spec ctx vocab throws fuel i s) as (new & -> & _ & Hlen & _).
  rewrite length_app. lia.
Qed.



Lemma generate_prefill_unfold (st : globals E) jni handle prompt throws ctx m c :
  generate_prefill E st jni handle prompt throws ctx m c =
  match throws GenInputString with
  | Some e => inl (Some (generate_exception_text e), st)
  | None =>
      let input := jstring_to_string jni prompt in
      if String.eqb input "" then inl (Some "Error: Empty prompt"%string, st) else
      let c1 := llama_memory_clear E c in
      match throws GenResize with
      | Some e =>
          inl (Some (generate_exception_text e),
               update_session E st handle (session_of E ctx c1 []))
      | None =>
          let n_tokens := fst (prompt_tokens E m c1 input) in
          let buf := snd (prompt_tokens E m c1 input) in
          if n_tokens <? 0
          then inl (Some "Error: Tokenization failed"%string,
                    update_session E st handle (session_of E ctx c1 buf))
          else
            let toks := vector_resize buf n_tokens in
            let batch := prompt_batch toks n_tokens in
            if negb (fst (llama_decode E c1 batch) =? 0)
            then inl (Some "Error: Failed to decode prompt"%string,
                      update_session E st handle
                        (session_of E ctx (snd (llama_decode E c1 batch)) toks))
            else inr ({| gs_context := snd (llama_decode E c1 batch); gs_tokens := toks;
                         gs_batch := batch; gs_result := "" |}, n_tokens)
      end
  end.
Proof.
  unfold generate_prefill, prompt_tokens.
  destruct (throws GenInputString); [reflexivity|]. cbn zeta.
  destruct (String.eqb _ ""); [reflexivity|].
  destruct (throws GenResize); [reflexivity|].
  destruct (llama_tokenize E _ _ _ _ _) as [n_tokens written]. cbn [fst snd].
  destruct (n_tokens <? 0); [reflexivity|].
  destruct (llama_decode E _ _) as [rc c2]. reflexivity.
Qed.

Lemma nativeGenerateText_unfold (st : globals E) jni handle p maxTokens temperature topP topK
    throws ctx m c :
  handle ≠ 0 → get_context E st handle = Some ctx →
  model E ctx = Some m → context E ctx = Some c →
  nativeGenerateText E st (Some jni) handle (Some p) maxTokens temperature topP topK throws =
  match generate_prefill E st jni handle (Some p) throws ctx m c with
  | inl r => r
  | inr (s, n_tokens) =>
      let fuel := Z.to_nat (max_gen_tokens E (default_max_tokens maxTokens)
                              (gs_context E s) n_tokens) in
      let l := generate_loop E ctx (llama_model_get_vocab E m) throws fuel 0 s in
      (Some (match fst l with
             | Some e => generate_exception_text e
             | None => c_str (gs_result E (snd l))
             end),
       update_session E st handle
         (session_of E ctx (gs_context E (snd l)) (gs_tokens E (snd l))))
  end.
Proof.
  intros H0 Hctx Hm Hc. unfold nativeGenerateText.
  destruct (Z.eqb_spec handle 0) as [?|_]; [contradiction|].
  rewrite Hctx, Hm, Hc.
  destruct (generate_prefill E st jni handle (Some p) throws ctx m c) as [r|[s n_tokens]];
    [reflexivity|].
  cbn zeta. destruct (generate_loop E ctx _ throws _ 0 s) as [[[|]|] s']; reflexivity.
Qed.

(** A call whose loop comes to turn [k] within the ceiling returns what the
    loop gives from there. *)
Lemma nativeGenerateText_from_turn (st : globals E) jni handle p maxTokens temperature topP
    topK throws ctx m c (s0 : gen_state E) (n_tokens : Z) (k : nat) (sk : gen_state E) :
  handle ≠ 0 → get_context E st handle = Some ctx →
  model E ctx = Some m → context E ctx = Some c →
  generate_prefill E st jni handle (Some p) throws ctx m c = inr (s0, n_tokens) →
  loop_reaches E ctx (llama_model_get_vocab E m) throws 0 s0 k sk →
  Z.of_nat k <= max_gen_tokens E (default_max_tokens maxTokens) (gs_context E s0) n_tokens →
  nativeGenerateText E st (Some jni) handle (Some p) maxTokens temperature topP topK throws =
  let fuel := Z.to_nat (max_gen_tokens E (default_max_tokens maxTokens)
                          (gs_context E s0) n_tokens) in
  let l := generate_loop E ctx (llama_model_get_vocab E m) throws (fuel - k) k sk in
  (Some (match fst l with
         | Some e => generate_exception_text e
         | None => c_str (gs_result E (snd l))
         end),
   update_session E st handle
     (session_of E ctx (gs_context E (snd l)) (gs_tokens E (snd l)))).
Proof.
  intros H0 Hctx Hm Hc Hpre Hreach Hk.
  rewrite (nativeGenerateText_unfold st jni handle p maxTokens temperature topP topK throws
             ctx m c H0 Hctx Hm Hc), Hpre. cbn zeta.
  set (fuel := Z.to_nat _) in *.
  rewrite <- (generate_loop_reaches _ _ _ _ _ _ _ Hreach (fuel - k)).
  replace (k - 0 + (fuel - k))%nat with fuel by lia. reflexivity.
Qed.

Lemma buffer_write_length (written v : list llama_token) :
  length (buffer_write written v) = length v.
Proof.
  unfold buffer_write. rewrite length_take, length_app, length_drop. lia.
Qed.

Lemma vector_resize_length (v : list llama_token) (n : Z) :
  length (vector_resize v n) = Z.to_nat n.
Proof. apply length_resize. Qed.

Lemma half_uint32_as_int (x : Z) : to_int32 (to_uint32 x / 2) = to_uint32 x / 2.
Proof.
  pose proof (to_uint32_range x) as Hx. apply to_int32_small.
  change (2 ^ 32) with 4294967296 in Hx. change (2 ^ 31) with 2147483648.
  split; [|apply Z.div_lt_upper_bound; lia].
  pose proof (Z.div_pos (to_uint32 x) 2 ltac:(lia) ltac:(lia)). lia.
Qed.

(** X10.  What [nativeGenerateText] refuses: with a null environment it
    returns null; with a null prompt or handle 0 it returns "Error: Invalid
    parameters"; with a handle under which the registry holds no session, or
    one without model or context, "Error: Invalid handle or model not
    loaded"; with a prompt whose characters are empty or unavailable,
    "Error: Empty prompt".  In each case the globals stay as they are; in
    particular a handle that was cleaned up is refused and is not stored
    again. *)
Theorem nativeGenerateText_rejects (st : globals E) (env : option JNIEnv) (handle : Z)
    (prompt : option jstring) (maxTokens : Z) (temperature topP : float) (topK : Z)
    (throws : gen_point → option cpp_exception) :
  let gen st := nativeGenerateText E st env handle prompt maxTokens temperature topP topK throws in
  (env = None → gen st = (None, st)) ∧
  (env ≠ None → prompt = None ∨ handle = 0 →
   gen st = (Some "Error: Invalid parameters"%string, st)) ∧
  (env ≠ None → prompt ≠ None → handle ≠ 0 →
   (get_context E st handle = None ∨
    ∃ ctx, get_context E st handle = Some ctx ∧ (model E ctx = None ∨ context E ctx = None)) →
   gen st = (Some "Error: Invalid handle or model not loaded"%string, st)) ∧
  (env ≠ None → prompt ≠ None → handle ≠ 0 →
   gen (nativeCleanup E st handle)
   = (Some "Error: Invalid handle or model not loaded"%string, nativeCleanup E st handle)) ∧
  (∀ jni ctx, env = Some jni → prompt ≠ None → handle ≠ 0 →
   get_context E st handle = Some ctx → is_Some (model E ctx) → is_Some (context E ctx) →
   throws GenInputString = None → jstring_to_string jni prompt = ""%string →
   gen st = (Some "Error: Empty prompt"%string, st)).
Proof.
  cbn zeta.
  assert (Habsent : ∀ st0 : globals E, env ≠ None → prompt ≠ None → handle ≠ 0 →
            (get_context E st0 handle = None ∨
             ∃ ctx, get_context E st0 handle = Some ctx ∧
                    (model E ctx = None ∨ context E ctx = None)) →
            nativeGenerateText E st0 env handle prompt maxTokens temperature topP topK throws
            = (Some "Error: Invalid handle or model not loaded"%string, st0)).
  { intros st0 Henv Hprompt H0 Hno. unfold nativeGenerateText.
    destruct env as [jni|]; [|contradiction]. destruct prompt as [p|]; [|contradiction].
    destruct (Z.eqb_spec handle 0) as [?|_]; [contradiction|].
    destruct Hno as [->|(ctx & -> & [Hm|Hc])]; [reflexivity|rewrite Hm; reflexivity|].
    rewrite Hc. destruct (model E ctx); reflexivity. }
  split; [|split; [|split; [|split]]].
  - intros ->. reflexivity.
  - intros Henv Hbad. unfold nativeGenerateText.
    destruct env as [jni|]; [|contradiction]. destruct prompt as [p|]; [|reflexivity].
    destruct Hbad as [?| ->]; [discriminate|]. reflexivity.
  - apply Habsent.
  - intros Henv Hprompt H0. apply Habsent; try assumption. left.
    unfold get_context. rewrite nativeCleanup_lookup, decide_True by tauto. reflexivity.
  - intros jni ctx -> Hprompt H0 Hctx [m Hm] [c Hc] Hthrow Hempty.
    destruct prompt as [p|]; [|contradiction].
    rewrite (nativeGenerateText_unfold st jni handle p maxTokens temperature topP topK throws
               ctx m c H0 Hctx Hm Hc), generate_prefill_unfold, Hthrow.
    cbn zeta. rewrite Hempty. reflexivity.
Qed.

(** X11.  What a generation call leaves alone: the handle counter, the
    backend flag and the log of engine set-ups and releases; the set of
    handles in the registry; and every session other than the one under its
    handle.  That session keeps its model and its generator state, and has a
    context after the call if it had one before. *)
Theorem nativeGenerateText_frame (st : globals E) (env : option JNIEnv) (handle : Z)
    (prompt : option jstring) (maxTokens : Z) (temperature topP : float) (topK : Z)
    (throws : gen_point → option cpp_exception) :
  let st' := snd (nativeGenerateText E st env handle prompt maxTokens temperature topP topK
                    throws) in
  g_next_handle E st' = g_next_handle E st ∧
  g_backend_initialized E st' = g_backend_initialized E st ∧
  engine_log E st' = engine_log E st ∧
  (∀ h, is_Some (get_context E st' h) ↔ is_Some (get_context E st h)) ∧
  (∀ h, h ≠ handle → get_context E st' h = get_context E st h) ∧
  (∀ ctx, get_context E st handle = Some ctx →
     ∃ ctx', get_context E st' handle = Some ctx' ∧
             model E ctx' = model E ctx ∧ rng E ctx' = rng E ctx ∧
             (is_Some (context E ctx) → is_Some (context E ctx'))).
Proof.
  cbn zeta.
  pose proof (nativeGenerateText_present E st env handle prompt maxTokens temperature topP topK
                throws) as Hp.
  destruct (nativeGenerateText_globals E st env handle prompt maxTokens temperature topP topK throws)
    as [Hst|(ctx & c & toks & Hctx & Hst)]; rewrite Hst in *.
  - repeat split; try reflexivity; try tauto. intros ctx Hctx. exists ctx. tauto.
  - unfold get_context, update_session. cbn [set_contexts g_contexts g_next_handle
      g_backend_initialized engine_log].
    split; [reflexivity|]. split; [reflexivity|]. split; [reflexivity|].
    split; [exact Hp|]. split.
    + intros h Hh. apply lookup_insert_ne. congruence.
    + intros ctx0 Hctx0. rewrite Hctx in Hctx0. injection Hctx0 as <-.
      rewrite lookup_insert_eq. eexists. split; [reflexivity|].
      cbn [session_of model rng context]. eauto.
Qed.

(** X12.  A generation call with a limit that is zero or negative does what
    the same call does with the limit 256. *)
Theorem nativeGenerateText_default_max_tokens (st : globals E) (env : option JNIEnv)
    (handle : Z) (prompt : option jstring) (maxTokens : Z) (temperature topP : float)
    (topK : Z) (throws : gen_point → option cpp_exception) :
  maxTokens <= 0 →
  nativeGenerateText E st env handle prompt maxTokens temperature topP topK throws =
  nativeGenerateText E st env handle prompt 256 temperature topP topK throws.
Proof.
  intros Hle. unfold nativeGenerateText, default_max_tokens.
  destruct (Z.leb_spec maxTokens 0) as [_|?]; [|lia].
  change (256 <=? 0) with false. reflexivity.
Qed.

(** X13.  When the engine fails before the loop, the call returns an error
    and no text: "Error: Tokenization failed" when the tokenizer returns a
    negative count, "Error: Failed to decode prompt" when the decoding of the
    prompt returns a non-zero result. *)
Theorem nativeGenerateText_engine_failure (st : globals E) (jni : JNIEnv) (handle : Z)
    (p : jstring) (maxTokens : Z) (temperature topP : float) (topK : Z)
    (throws : gen_point → option cpp_exception)
    (ctx : LlamaContext E) (m : llama_model E) (c : llama_context E) :
  handle ≠ 0 → get_context E st handle = Some ctx →
  model E ctx = Some m → context E ctx = Some c →
  throws GenInputString = None → throws GenResize = None →
  jstring_to_string jni (Some p) ≠ ""%string →
  let r := nativeGenerateText E st (Some jni) handle (Some p) maxTokens temperature topP topK
             throws in
  let c1 := llama_memory_clear E c in
  let n_tokens := fst (prompt_tokens E m c1 (jstring_to_string jni (Some p))) in
  let toks := vector_resize (snd (prompt_tokens E m c1 (jstring_to_string jni (Some p)))) n_tokens in
  (n_tokens < 0 → fst r = Some "Error: Tokenization failed"%string) ∧
  (0 <= n_tokens → fst (llama_decode E c1 (prompt_batch toks n_tokens)) ≠ 0 →
   fst r = Some "Error: Failed to decode prompt"%string ∧
   get_context E (snd r) handle
   = Some (session_of E ctx (snd (llama_decode E c1 (prompt_batch toks n_tokens))) toks)).
Proof.
  intros H0 Hctx Hm Hc Ht1 Ht2 Hne. cbn zeta.
  rewrite (nativeGenerateText_unfold st jni handle p maxTokens temperature topP topK throws
             ctx m c H0 Hctx Hm Hc), generate_prefill_unfold, Ht1, Ht2.
  cbn zeta.
  destruct (String.eqb_spec (jstring_to_string jni (Some p)) "") as [?|_]; [contradiction|].
  split.
  - intros Hneg. destruct (Z.ltb_spec (fst (prompt_tokens E m (llama_memory_clear E c)
                                              (jstring_to_string jni (Some p)))) 0);
      [reflexivity|lia].
  - intros Hpos Hrc.
    destruct (Z.ltb_spec (fst (prompt_tokens E m (llama_memory_clear E c)
                                 (jstring_to_string jni (Some p)))) 0); [lia|].
    destruct (Z.eqb_spec (fst (llama_decode E (llama_memory_clear E c)
      (prompt_batch (vector_resize (snd (prompt_tokens E m (llama_memory_clear E c)
         (jstring_to_string jni (Some p))))
         (fst (prompt_tokens E m (llama_memory_clear E c) (jstring_to_string jni (Some p)))))
         (fst (prompt_tokens E m (llama_memory_clear E c) (jstring_to_string jni (Some p)))))))
      0) as [?|_]; [contradiction|].
    cbn [negb fst snd]. split; [reflexivity|].
    unfold get_context, update_session. cbn [set_contexts g_contexts].
    apply lookup_insert_eq.
Qed.

(** X14.  When the output distribution is unavailable, or the token
    selected from it ends the sequence, the loop stops at once and leaves its
    state as it is: nothing is appended to the text or to the history and
    nothing is decoded. *)
Theorem generate_loop_stops (ctx : LlamaContext E) (vocab : llama_vocab E)
    (throws : gen_point → option cpp_exception) (fuel i : nat) (s : gen_state E) :
  llama_get_logits_ith E (gs_context E s) (batch_n_tokens (gs_batch E s) - 1) = None ∨
  (∃ logits,
     llama_get_logits_ith E (gs_context E s) (batch_n_tokens (gs_batch E s) - 1) = Some logits ∧
     llama_vocab_is_eog E vocab
       (sample_token_greedy E (Some (session_of E ctx (gs_context E s) (gs_tokens E s)))
          (Some logits)) = true) →
  generate_loop E ctx vocab throws fuel i s = (None, s).
Proof.
  intros Hstop. destruct fuel as [|fuel]; [reflexivity|].
  cbn [generate_loop]. unfold generate_body.
  destruct Hstop as [->|(logits & -> & Heog)]; [reflexivity|].
  rewrite Heog. reflexivity.
Qed.

(** X15.  A turn of the loop in which a token that does not end the sequence
    is selected and the runtime does not throw: the token is appended to the
    history and decoded alone, at the position that is the length of the
    history before it, with its logits requested; its text is appended to
    the text, and that is nothing when the length of its piece is not
    positive; the loop goes on when the decoding returns 0 and otherwise
    ends with the text so far, this token's included. *)
Theorem generate_loop_token (ctx : LlamaContext E) (vocab : llama_vocab E)
    (throws : gen_point → option cpp_exception) (fuel i : nat) (s : gen_state E)
    (logits : list float) :
  llama_get_logits_ith E (gs_context E s) (batch_n_tokens (gs_batch E s) - 1) = Some logits →
  let t := sample_token_greedy E (Some (session_of E ctx (gs_context E s) (gs_tokens E s)))
             (Some logits) in
  let b := next_batch (gs_batch E s) t (Z.of_nat (length (gs_tokens E s))) in
  let piece_len := fst (llama_token_to_piece E vocab t 256 0 false) in
  let s' := {| gs_context := snd (llama_decode E (gs_context E s) b);
               gs_tokens := gs_tokens E s ++ [t];
               gs_batch := b;
               gs_result := (gs_result E s +:+ piece_text E vocab t)%string |} in
  llama_vocab_is_eog E vocab t = false →
  (0 < piece_len → throws (GenAppend i) = None) → throws (GenPushBack i) = None →
  generate_loop E ctx vocab throws (S fuel) i s
  = (if fst (llama_decode E (gs_context E s) b) =? 0
     then generate_loop E ctx vocab throws fuel (S i) s' else (None, s')) ∧
  (piece_len <= 0 → gs_result E s' = gs_result E s) ∧
  batch_n_tokens b = 1 ∧
  ((0 < length (batch_token (gs_batch E s)))%nat → batch_token b !! 0%nat = Some t) ∧
  ((0 < length (batch_pos (gs_batch E s)))%nat →
   batch_pos b !! 0%nat = Some (Z.of_nat (length (gs_tokens E s)))) ∧
  ((0 < length (batch_logits (gs_batch E s)))%nat → batch_logits b !! 0%nat = Some true).
Proof.
  intros Hlg t b piece_len s' Heog Happ Hpush.
  split; [|split; [|split; [reflexivity|split; [|split]]]].
  - rewrite generate_loop_S.
    destruct (generate_body_spec ctx vocab throws i s)
      as [Hlg'|lg' Hlg' Heog'|lg' e Hlg' t' Heog' Hlen Hthrow|lg' e Hlg' t' Heog' Hthrow
         |lg' Hlg' t' b' Heog' Hthrow]; rewrite Hlg in Hlg'; try discriminate;
      injection Hlg' as <-.
    + fold t in Heog'. congruence.
    + subst t'. fold t in Hlen. fold piece_len in Hlen. rewrite (Happ Hlen) in Hthrow.
      discriminate.
    + congruence.
    + subst t' b'. fold t b s'.
      destruct (fst (llama_decode E (gs_context E s) b) =? 0); reflexivity.
  - intros Hle. cbn [s' gs_result]. unfold piece_text. fold t.
    unfold piece_len in Hle.
    destruct (llama_token_to_piece E vocab t 256 0 false) as [len piece]. cbn [fst] in Hle.
    destruct (Z.ltb_spec 0 len); [lia|]. apply string_app_nil_r.
  - intros Hcap. cbn [b next_batch batch_token]. apply list_lookup_insert_eq, Hcap.
  - intros Hcap. cbn [b next_batch batch_pos]. apply list_lookup_insert_eq, Hcap.
  - intros Hcap. cbn [b next_batch batch_logits]. apply list_lookup_insert_eq, Hcap.
Qed.

Section Contracts.

(** What the bridge relies on of the engine: the tokenizer returns no more
    than the capacity it is given, and the context length of a context is
    fixed. *)
Hypothesis tokenize_within :
  ∀ vocab text n_tokens_max add_special parse_special,
    0 <= n_tokens_max →
    fst (llama_tokenize E vocab text n_tokens_max add_special parse_special) <= n_tokens_max.
Hypothesis n_ctx_decode :
  ∀ c b, llama_n_ctx E (snd (llama_decode E c b)) = llama_n_ctx E c.
Hypothesis n_ctx_clear :
  ∀ c, llama_n_ctx E (llama_memory_clear E c) = llama_n_ctx E c.

Lemma generate_loop_n_ctx (ctx : LlamaContext E) (vocab : llama_vocab E)
    (throws : gen_point → option cpp_exception) (fuel : nat) :
  ∀ (i : nat) (s : gen_state E),
  llama_n_ctx E (gs_context E (snd (generate_loop E ctx vocab throws fuel i s)))
  = llama_n_ctx E (gs_context E s).
Proof.
  induction fuel as [|fuel IH]; intros i s; [reflexivity|].
  rewrite generate_loop_S.
  destruct (generate_body_spec ctx vocab throws i s)
    as [Hlg|logits Hlg Heog|logits e Hlg t Heog Hlen Hthrow|logits e Hlg t Heog Hthrow
       |logits Hlg t b Heog Hthrow]; try reflexivity.
  destruct (fst (llama_decode E (gs_context E s) b) =? 0); cbn [snd gs_context].
  - rewrite IH. cbn [gs_context]. apply n_ctx_decode.
  - apply n_ctx_decode.
Qed.

Lemma prompt_tokens_bounds (m : llama_model E) (c1 : llama_context E) (input : string) :
  fst (prompt_tokens E m c1 input) <= to_uint32 (llama_n_ctx E c1) / 2 ∧
  Z.of_nat (length (snd (prompt_tokens E m c1 input))) = to_uint32 (llama_n_ctx E c1) / 2.
Proof.
  unfold prompt_tokens. cbn [fst snd]. rewrite half_uint32_as_int.
  pose proof (to_uint32_range (llama_n_ctx E c1)) as Hr.
  pose proof (Z.div_pos (to_uint32 (llama_n_ctx E c1)) 2 ltac:(lia) ltac:(lia)) as Hh.
  split; [apply tokenize_within; exact Hh|].
  rewrite buffer_write_length, vector_resize_length. lia.
Qed.

Lemma max_gen_tokens_le (maxTokens : Z) (c : llama_context E) (n_tokens : Z) :
  0 <= n_tokens <= to_uint32 (llama_n_ctx E c) →
  max_gen_tokens E maxTokens c n_tokens
  <= Z.min maxTokens (to_uint32 (llama_n_ctx E c) - n_tokens).
Proof.
  intros Hn. unfold max_gen_tokens. rewrite to_int32_sub_l.
  pose proof (to_int32_le (to_uint32 (llama_n_ctx E c) - n_tokens) ltac:(lia)). lia.
Qed.


(** What a generation call that gets past the decoding of the prompt returns
    and stores. *)
Lemma nativeGenerateText_loop (st : globals E) (jni : JNIEnv) (handle : Z)
    (p : jstring) (maxTokens : Z) (temperature topP : float) (topK : Z)
    (throws : gen_point → option cpp_exception)
    (ctx : LlamaContext E) (m : llama_model E) (c : llama_context E)
    (s : gen_state E) (n_tokens : Z) :
  handle ≠ 0 → get_context E st handle = Some ctx →
  model E ctx = Some m → context E ctx = Some c →
  generate_prefill E st jni handle (Some p) throws ctx m c = inr (s, n_tokens) →
  let r := nativeGenerateText E st (Some jni) handle (Some p) maxTokens temperature topP topK
             throws in
  let n_ctx := to_uint32 (llama_n_ctx E c) in
  let vocab := llama_model_get_vocab E m in
  ∃ (new : list llama_token) (c' : llama_context E),
    0 <= n_tokens <= n_ctx / 2 ∧
    Z.of_nat (length (gs_tokens E s)) = n_tokens ∧
    Z.of_nat (length new) <= Z.min (default_max_tokens maxTokens) (n_ctx - n_tokens) ∧
    Forall (λ t, llama_vocab_is_eog E vocab t = false) new ∧
    snd r = update_session E st handle (session_of E ctx c' (gs_tokens E s ++ new)) ∧
    to_uint32 (llama_n_ctx E c') = n_ctx ∧
    (fst r = Some (c_str (pieces_text E vocab new)) ∨
     ∃ e, (throws (GenAppend (length new)) = Some e ∨
           throws (GenPushBack (length new)) = Some e) ∧
          fst r = Some (generate_exception_text e)).
Proof.
  intros H0 Hctx Hm Hc Hpre. cbn zeta.
  rewrite (nativeGenerateText_unfold st jni handle p maxTokens temperature topP topK throws
             ctx m c H0 Hctx Hm Hc), Hpre. cbn zeta.
  rewrite generate_prefill_unfold in Hpre. cbn zeta in Hpre.
  destruct (throws GenInputString); [discriminate|].
  destruct (String.eqb _ ""); [discriminate|].
  destruct (throws GenResize); [discriminate|].
  set (c1 := llama_memory_clear E c) in *.
  set (input := jstring_to_string jni (Some p)) in *.
  destruct (prompt_tokens_bounds m c1 input) as [Hle Hbuf].
  unfold prompt_tokens in Hpre, Hle, Hbuf. cbn [fst snd] in Hpre, Hle, Hbuf.
  set (n := fst (llama_tokenize E _ _ _ _ _)) in *.
  destruct (Z.ltb_spec n 0) as [|Hge]; [discriminate|].
  destruct (negb _); [discriminate|]. injection Hpre as <- <-.
  set (toks := vector_resize _ n) in *.
  match goal with |- context [generate_loop E ctx _ throws _ 0 ?x] => set (s0 := x) end.
  assert (Hn1 : llama_n_ctx E c1 = llama_n_ctx E c) by apply n_ctx_clear.
  rewrite Hn1 in Hle.
  pose proof (to_uint32_range (llama_n_ctx E c)) as Hr.
  assert (Hhalf : to_uint32 (llama_n_ctx E c) / 2 <= to_uint32 (llama_n_ctx E c)).
  { apply Z.div_le_upper_bound; lia. }
  assert (Hs0 : llama_n_ctx E (gs_context E s0) = llama_n_ctx E c).
  { cbn [s0 gs_context]. rewrite n_ctx_decode. exact Hn1. }
  set (fuel := Z.to_nat (max_gen_tokens E (default_max_tokens maxTokens) (gs_context E s0) n)).
  destruct (generate_loop_spec ctx (llama_model_get_vocab E m) throws fuel 0 s0)
    as (new & Htoks & Hne & Hlen & Hres).
  pose proof (generate_loop_n_ctx ctx (llama_model_get_vocab E m) throws fuel 0 s0) as Hnc.
  pose proof (max_gen_tokens_le (default_max_tokens maxTokens) (gs_context E s0) n) as Hmax.
  rewrite Hs0 in Hmax, Hnc. specialize (Hmax ltac:(lia)).
  assert (Hdef : 0 < default_max_tokens maxTokens).
  { unfold default_max_tokens. destruct (Z.leb_spec maxTokens 0); lia. }
  assert (Hnew : Z.of_nat (length new)
                 <= Z.min (default_max_tokens maxTokens) (to_uint32 (llama_n_ctx E c) - n)).
  { subst fuel. lia. }
  assert (Hlen0 : Z.of_nat (length (gs_tokens E s0)) = n).
  { change (gs_tokens E s0) with toks. unfold toks. rewrite vector_resize_length. lia. }
  assert (Hr0 : gs_result E s0 = ""%string) by reflexivity.
  rewrite Hr0 in Hres. cbn [Nat.add] in Hres.
  clearbody fuel s0 toks n c1 input.
  exists new, (gs_context E (snd (generate_loop E ctx (llama_model_get_vocab E m) throws fuel 0 s0))).
  cbn [fst snd]. rewrite Htoks.
  split; [lia|]. split; [exact Hlen0|]. split; [exact Hnew|]. split; [exact Hne|].
  split; [reflexivity|]. split; [rewrite Hnc; reflexivity|].
  destruct (fst (generate_loop E ctx (llama_model_get_vocab E m) throws fuel 0 s0)) as [e|].
  - right. eauto.
  - left. rewrite Hres. reflexivity.
Qed.

(** X9.  A generation call that gets past the decoding of the prompt: the
    prompt was tokenized into at most half the context length; the loop
    appends to the prompt tokens at most
    [min(max_tokens after the default, context length - prompt tokens)]
    tokens, none of which ends the sequence; so the history stored in the
    session never exceeds the context length; and the call returns the texts
    of the appended tokens, one after the other, up to the first zero byte.
    It returns something else only when the runtime throws in the turn after
    these tokens, at [result.append] or at [push_back], and then it is the
    text of the [catch] that takes what was thrown; so a call in which the
    runtime throws nowhere returns the texts. *)
Theorem nativeGenerateText_generated (st : globals E) (jni : JNIEnv) (handle : Z)
    (p : jstring) (maxTokens : Z) (temperature topP : float) (topK : Z)
    (throws : gen_point → option cpp_exception)
    (ctx : LlamaContext E) (m : llama_model E) (c : llama_context E)
    (s : gen_state E) (n_tokens : Z) :
  handle ≠ 0 → get_context E st handle = Some ctx →
  model E ctx = Some m → context E ctx = Some c →
  generate_prefill E st jni handle (Some p) throws ctx m c = inr (s, n_tokens) →
  let r := nativeGenerateText E st (Some jni) handle (Some p) maxTokens temperature topP topK
             throws in
  let n_ctx := to_uint32 (llama_n_ctx E c) in
  let vocab := llama_model_get_vocab E m in
  let text e := match e with
                | StdException => "Error: Exception during text generation"%string
                | UnknownException => "Error: Unknown exception during text generation"%string
                end in
  ∃ (new : list llama_token) (c' : llama_context E),
    0 <= n_tokens <= n_ctx / 2 ∧
    Z.of_nat (length (gs_tokens E s)) = n_tokens ∧
    Z.of_nat (length new) <= Z.min (default_max_tokens maxTokens) (n_ctx - n_tokens) ∧
    Forall (λ t, llama_vocab_is_eog E vocab t = false) new ∧
    get_context E (snd r) handle = Some (session_of E ctx c' (gs_tokens E s ++ new)) ∧
    to_uint32 (llama_n_ctx E c') = n_ctx ∧
    Z.of_nat (length (gs_tokens E s ++ new)) <= n_ctx ∧
    (fst r = Some (c_str (pieces_text E vocab new)) ∨
     ∃ e, (throws (GenAppend (length new)) = Some e ∨
           throws (GenPushBack (length new)) = Some e) ∧
          fst r = Some (text e)) ∧
    ((∀ i, throws (GenAppend i) = None ∧ throws (GenPushBack i) = None) →
     fst r = Some (c_str (pieces_text E vocab new))).
Proof.
  intros H0 Hctx Hm Hc Hpre. cbn zeta.
  destruct (nativeGenerateText_loop st jni handle p maxTokens temperature topP topK throws
              ctx m c s n_tokens H0 Hctx Hm Hc Hpre)
    as (new & c' & Hn & Hlen & Hnew & Hne & Hsnd & Hnc & Hres).
  cbn zeta in Hn, Hnew, Hne, Hsnd, Hnc, Hres.
  exists new, c'. rewrite Hsnd.
  split; [exact Hn|]. split; [exact Hlen|]. split; [exact Hnew|]. split; [exact Hne|].
  split; [unfold get_context, update_session; cbn [set_contexts g_contexts];
          apply lookup_insert_eq|].
  split; [exact Hnc|]. split; [rewrite length_app; lia|]. split; [exact Hres|].
  intros Hquiet. destruct Hres as [Hres|(e & Hthrown & _)]; [exact Hres|].
  destruct (Hquiet (length new)) as [Ha Hp].
  destruct Hthrown as [Ht|Ht]; congruence.
Qed.


Lemma sessions_ok_update (st : globals E) (handle : Z) (ctx : LlamaContext E) :
  sessions_ok E st →
  is_Some (model E ctx) ∧ is_Some (context E ctx) ∧ history_within E ctx →
  sessions_ok E (update_session E st handle ctx).
Proof.
  intros Hst Hctx h ctx'. unfold get_context, update_session. cbn [set_contexts g_contexts].
  destruct (decide (handle = h)) as [->|Hne].
  - rewrite lookup_insert_eq. intros [= <-]. exact Hctx.
  - rewrite lookup_insert_ne by assumption. apply Hst.
Qed.

Lemma session_of_ok (ctx : LlamaContext E) (c : llama_context E) (toks : list llama_token) :
  is_Some (model E ctx) →
  Z.of_nat (length toks) <= to_uint32 (llama_n_ctx E c) →
  is_Some (model E (session_of E ctx c toks)) ∧
  is_Some (context E (session_of E ctx c toks)) ∧
  history_within E (session_of E ctx c toks).
Proof.
  intros Hm Hlen. unfold history_within. cbn [session_of model context tokens]. eauto.
Qed.

Lemma nativeGenerateText_sessions_ok (st : globals E) env handle prompt maxTokens temperature
    topP topK throws :
  sessions_ok E st →
  sessions_ok E (snd (nativeGenerateText E st env handle prompt maxTokens temperature topP topK
                      throws)).
Proof.
  intros Hst.
  destruct env as [jni|]; [|exact Hst]. destruct prompt as [p|]; [|exact Hst].
  destruct (decide (handle = 0)) as [->|H0]; [exact Hst|].
  destruct (get_context E st handle) as [ctx|] eqn:Hctx.
  2: { unfold nativeGenerateText. destruct (handle =? 0); [exact Hst|].
       rewrite Hctx. exact Hst. }
  destruct (Hst handle ctx Hctx) as ([m Hm] & [c Hc] & Hwithin).
  pose proof (nativeGenerateText_loop st jni handle p maxTokens temperature topP topK
                throws ctx m c) as Hgen.
  rewrite (nativeGenerateText_unfold st jni handle p maxTokens temperature topP topK throws
             ctx m c H0 Hctx Hm Hc) in *.
  destruct (generate_prefill E st jni handle (Some p) throws ctx m c) as [r|[s n_tokens]] eqn:Hpre.
  - clear Hgen. rewrite generate_prefill_unfold in Hpre. cbn zeta in Hpre.
    pose proof (to_uint32_range (llama_n_ctx E (llama_memory_clear E c))) as Hr.
    assert (Hhalf : to_uint32 (llama_n_ctx E (llama_memory_clear E c)) / 2
                    <= to_uint32 (llama_n_ctx E (llama_memory_clear E c))).
    { apply Z.div_le_upper_bound; lia. }
    destruct (prompt_tokens_bounds m (llama_memory_clear E c) (jstring_to_string jni (Some p)))
      as [Hle Hbuf].
    unfold prompt_tokens in Hpre, Hle, Hbuf. cbn [fst snd] in Hpre, Hle, Hbuf.
    destruct (throws GenInputString); [apply (inj inl) in Hpre; subst r; exact Hst|].
    destruct (String.eqb _ ""); [apply (inj inl) in Hpre; subst r; exact Hst|].
    destruct (throws GenResize).
    { apply (inj inl) in Hpre; subst r. apply sessions_ok_update; [exact Hst|].
      apply session_of_ok; [eauto|]. cbn [length]. lia. }
    match type of Hpre with context [?x <? 0] => destruct (Z.ltb_spec x 0) as [|Hge] end.
    { apply (inj inl) in Hpre; subst r. apply sessions_ok_update; [exact Hst|].
      apply session_of_ok; [eauto|]. lia. }
    destruct (negb _); [|discriminate].
    apply (inj inl) in Hpre; subst r. apply sessions_ok_update; [exact Hst|].
    apply session_of_ok; [eauto|].
    rewrite n_ctx_decode, vector_resize_length. lia.
  - destruct (Hgen s n_tokens H0 Hctx Hm Hc eq_refl)
      as (new & c' & Hn & Hlen & Hnew & _ & Hsnd & Hnc & _).
    cbn zeta in Hn, Hnew, Hsnd, Hnc |- *. cbn [snd] in Hsnd |- *. rewrite Hsnd.
    apply sessions_ok_update; [exact Hst|].
    apply session_of_ok; [eauto|]. rewrite Hnc, length_app. lia.
Qed.

Lemma nativeLoadModel_sessions_ok (st : globals E) env modelPath contextSize threads hw_threads
    seed throws :
  sessions_ok E st →
  sessions_ok E (snd (nativeLoadModel E st env modelPath contextSize threads hw_threads seed throws)).
Proof.
  intros Hst h ctx. unfold get_context.
  pose proof (nativeLoadModel_spec E st env modelPath contextSize threads hw_threads seed throws)
    as Hspec. cbn zeta in Hspec.
  destruct (load_fails E env modelPath contextSize threads hw_threads throws).
  - destruct Hspec as (_ & -> & _). apply Hst.
  - destruct Hspec as (_ & _ & m & c & ->).
    destruct (decide (g_next_handle E st = h)) as [->|Hne].
    + rewrite lookup_insert_eq. intros [= <-]. unfold history_within.
      cbn [model context tokens length].
      pose proof (to_uint32_range (llama_n_ctx E c)). split; [eauto|]. split; [eauto|lia].
    + rewrite lookup_insert_ne by assumption. apply Hst.
Qed.

(** X16.  Along every sequence of calls from the initial globals, every
    session in the registry has a model and a context, and its token history
    is no longer than the context length of its context. *)
Theorem run_sessions_ok (cs : list call) :
  ∀ h ctx, get_context E (snd (run E (initial_globals E) cs)) h = Some ctx →
    is_Some (model E ctx) ∧ is_Some (context E ctx) ∧
    ∀ c, context E ctx = Some c →
         Z.of_nat (length (tokens E ctx)) <= to_uint32 (llama_n_ctx E c).
Proof.
  assert (Hgen : ∀ cs st, sessions_ok E st → sessions_ok E (snd (run E st cs))).
  { clear cs. induction cs as [|c cs IH]; intros st Hst; [exact Hst|].
    rewrite run_cons. cbn [snd]. apply IH.
    destruct c as [env modelPath contextSize threads hw_threads seed throws
                  |env handle prompt maxTokens temperature topP topK throws
                  |handle]; cbn [step].
    - pose proof (nativeLoadModel_sessions_ok st env modelPath contextSize threads hw_threads
                    seed throws Hst) as Hl.
      destruct (nativeLoadModel E st env modelPath contextSize threads hw_threads seed throws).
      exact Hl.
    - pose proof (nativeGenerateText_sessions_ok st env handle prompt maxTokens temperature
                    topP topK throws Hst) as Hg.
      destruct (nativeGenerateText E st env handle prompt maxTokens temperature topP topK throws).
      exact Hg.
    - cbn [snd]. intros h ctx. unfold get_context. rewrite nativeCleanup_lookup.
      case_decide; [discriminate|]. apply Hst. }
  intros h ctx Hctx.
  assert (Hinit : sessions_ok E (initial_globals E)).
  { intros h0 ctx0. unfold get_context. cbn [initial_globals g_contexts].
    rewrite lookup_empty. discriminate. }
  destruct (Hgen cs _ Hinit h ctx Hctx) as (Hm & Hc & Hw).
  split; [exact Hm|]. split; [exact Hc|].
  intros c Hcc. unfold history_within in Hw. rewrite Hcc in Hw. exact Hw.
Qed.

End Contracts.



Lemma generate_prefill_alike (st st' : globals E) jni handle prompt throws
    (ctx ctx' : LlamaContext E) (m : llama_model E) (c c' : llama_context E) :
  llama_memory_clear E c' = llama_memory_clear E c →
  prefill_alike E st st' handle ctx ctx'
    (generate_prefill E st jni handle prompt throws ctx m c)
    (generate_prefill E st' jni handle prompt throws ctx' m c').
Proof.
  intros Hclear. rewrite !generate_prefill_unfold. cbn zeta. rewrite Hclear.
  unfold prefill_alike.
  destruct (throws GenInputString); [auto|].
  destruct (String.eqb _ ""); [auto|].
  destruct (throws GenResize); [eauto 6|].
  destruct (_ <? 0); [eauto 6|].
  destruct (negb _); [eauto 6|reflexivity].
Qed.

Lemma generate_loop_session (ctx ctx' : LlamaContext E) (vocab : llama_vocab E)
    (throws : gen_point → option cpp_exception) (fuel : nat) :
  model E ctx' = model E ctx → rng E ctx' = rng E ctx →
  ∀ (i : nat) (s : gen_state E),
  generate_loop E ctx' vocab throws fuel i s = generate_loop E ctx vocab throws fuel i s.
Proof.
  intros Hm Hr. induction fuel as [|fuel IH]; intros i s; [reflexivity|].
  cbn [generate_loop].
  assert (Hbody : generate_body E ctx' vocab throws i s = generate_body E ctx vocab throws i s).
  { unfold generate_body, session_of. rewrite Hm, Hr. reflexivity. }
  rewrite Hbody. destruct (generate_body E ctx vocab throws i s) as [[| |e] s']; auto.
Qed.

Lemma update_session_twice (st : globals E) (handle : Z) (x y : LlamaContext E) :
  update_session E (update_session E st handle x) handle y = update_session E st handle y.
Proof.
  unfold update_session, set_contexts. cbn [g_contexts g_next_handle g_backend_initialized
    engine_log]. rewrite insert_insert_eq. reflexivity.
Qed.

Section Reset.

(** What the bridge relies on of [llama_memory_clear]: clearing a context
    gives the same cleared context whatever was decoded into it before. *)
Hypothesis clear_decode :
  ∀ c b, llama_memory_clear E (snd (llama_decode E c b)) = llama_memory_clear E c.
Hypothesis clear_clear :
  ∀ c, llama_memory_clear E (llama_memory_clear E c) = llama_memory_clear E c.

Lemma generate_loop_clear (ctx : LlamaContext E) (vocab : llama_vocab E)
    (throws : gen_point → option cpp_exception) (fuel : nat) :
  ∀ (i : nat) (s : gen_state E),
  llama_memory_clear E (gs_context E (snd (generate_loop E ctx vocab throws fuel i s)))
  = llama_memory_clear E (gs_context E s).
Proof.
  induction fuel as [|fuel IH]; intros i s; [reflexivity|].
  rewrite generate_loop_S.
  destruct (generate_body_spec ctx vocab throws i s)
    as [Hlg|logits Hlg Heog|logits e Hlg t Heog Hlen Hthrow|logits e Hlg t Heog Hthrow
       |logits Hlg t b Heog Hthrow]; try reflexivity.
  destruct (fst (llama_decode E (gs_context E s) b) =? 0); cbn [snd gs_context].
  - rewrite IH. cbn [gs_context]. apply clear_decode.
  - apply clear_decode.
Qed.

(** The globals a generation call leaves: those it found, or those with the
    session under its handle replaced by one that has the same model and a
    context that clears to what the old context clears to. *)
Lemma nativeGenerateText_leaves (st : globals E) env handle prompt maxTokens temperature topP
    topK throws :
  let st' := snd (nativeGenerateText E st env handle prompt maxTokens temperature topP topK
                    throws) in
  st' = st ∨
  ∃ ctx m c c' toks,
    get_context E st handle = Some ctx ∧ model E ctx = Some m ∧ context E ctx = Some c ∧
    llama_memory_clear E c' = llama_memory_clear E c ∧
    st' = update_session E st handle (session_of E ctx c' toks).
Proof.
  cbn zeta.
  destruct env as [jni|]; [|left; reflexivity]. destruct prompt as [p|]; [|left; reflexivity].
  destruct (decide (handle = 0)) as [->|H0]; [left; reflexivity|].
  destruct (get_context E st handle) as [ctx|] eqn:Hctx.
  2: { left. unfold nativeGenerateText. destruct (handle =? 0); [reflexivity|].
       rewrite Hctx. reflexivity. }
  destruct (model E ctx) as [m|] eqn:Hm.
  2: { left. unfold nativeGenerateText. destruct (handle =? 0); [reflexivity|].
       rewrite Hctx, Hm. reflexivity. }
  destruct (context E ctx) as [c|] eqn:Hc.
  2: { left. unfold nativeGenerateText. destruct (handle =? 0); [reflexivity|].
       rewrite Hctx, Hm, Hc. reflexivity. }
  rewrite (nativeGenerateText_unfold st jni handle p maxTokens temperature topP topK throws
             ctx m c H0 Hctx Hm Hc), generate_prefill_unfold. cbn zeta.
  destruct (throws GenInputString); [left; reflexivity|].
  destruct (String.eqb _ ""); [left; reflexivity|].
  destruct (throws GenResize).
  { right. exists ctx, m, c, (llama_memory_clear E c), []. auto. }
  destruct (_ <? 0).
  { right. exists ctx, m, c, (llama_memory_clear E c). eauto 6. }
  destruct (negb _).
  { right. exists ctx, m, c. eexists. eexists.
    split; [first [reflexivity|exact Hctx]|].
    split; [first [reflexivity|exact Hm]|]. split; [first [reflexivity|exact Hc]|].
    split; [|reflexivity]. rewrite clear_decode. apply clear_clear. }
  right. exists ctx, m, c. eexists. eexists.
  split; [first [reflexivity|exact Hctx]|].
    split; [first [reflexivity|exact Hm]|]. split; [first [reflexivity|exact Hc]|].
  split; [|reflexivity]. cbn [snd]. rewrite generate_loop_clear. cbn [gs_context].
  rewrite clear_decode. apply clear_clear.
Qed.


(** A generation call made after the session under [h1] was replaced by one
    with the same model and a context that clears alike returns what it
    returns without the replacement. *)
Lemma nativeGenerateText_alike (st : globals E) (h1 : Z) (ctx1 : LlamaContext E)
    (m1 : llama_model E) (c1 c1' : llama_context E) (toks1 : list llama_token)
    env handle prompt maxTokens temperature topP topK throws :
  get_context E st h1 = Some ctx1 → model E ctx1 = Some m1 → context E ctx1 = Some c1 →
  llama_memory_clear E c1' = llama_memory_clear E c1 →
  let st' := update_session E st h1 (session_of E ctx1 c1' toks1) in
  let r := nativeGenerateText E st env handle prompt maxTokens temperature topP topK throws in
  let r' := nativeGenerateText E st' env handle prompt maxTokens temperature topP topK throws in
  fst r' = fst r ∧
  (handle = h1 → snd r' = snd r ∨ (snd r = st ∧ snd r' = st')).
Proof.
  intros Hctx1 Hm1 Hc1 Hclear. cbn zeta.
  set (st' := update_session E st h1 (session_of E ctx1 c1' toks1)).
  destruct env as [jni|]; [|cbn; auto]. destruct prompt as [p|]; [|cbn; auto].
  destruct (decide (handle = 0)) as [->|H0]; [cbn; auto|].
  destruct (decide (handle = h1)) as [->|Hne].
  - assert (Hctx' : get_context E st' h1 = Some (session_of E ctx1 c1' toks1)).
    { unfold get_context, st', update_session. cbn [set_contexts g_contexts].
      apply lookup_insert_eq. }
    rewrite (nativeGenerateText_unfold st jni h1 p maxTokens temperature topP topK throws
               ctx1 m1 c1 H0 Hctx1 Hm1 Hc1).
    rewrite (nativeGenerateText_unfold st' jni h1 p maxTokens temperature topP topK throws
               (session_of E ctx1 c1' toks1) m1 c1' H0 Hctx' Hm1 eq_refl).
    pose proof (generate_prefill_alike st st' jni h1 (Some p) throws ctx1
                  (session_of E ctx1 c1' toks1) m1 c1 c1' Hclear) as Halike.
    unfold prefill_alike in Halike.
    destruct (generate_prefill E st jni h1 (Some p) throws ctx1 m1 c1) as [[r g]|[s n]],
             (generate_prefill E st' jni h1 (Some p) throws _ m1 c1') as [[r' g']|[s' n']];
      try contradiction.
    + destruct Halike as [-> [[-> ->]|(c & toks & -> & ->)]]; cbn [fst snd].
      * auto.
      * split; [reflexivity|]. intros _. left. apply update_session_twice.
    + injection Halike as -> ->. cbn zeta.
      rewrite (generate_loop_session ctx1 (session_of E ctx1 c1' toks1)) by reflexivity.
      cbn [fst snd]. split; [reflexivity|]. intros _. left. apply update_session_twice.
  - split; [|contradiction].
    assert (Hsame : get_context E st' handle = get_context E st handle).
    { unfold get_context, st', update_session. cbn [set_contexts g_contexts].
      apply lookup_insert_ne. congruence. }
    destruct (get_context E st handle) as [ctx|] eqn:Hctx.
    2: { unfold nativeGenerateText. destruct (handle =? 0); [reflexivity|].
         rewrite Hsame, Hctx. reflexivity. }
    destruct (model E ctx) as [m|] eqn:Hm.
    2: { unfold nativeGenerateText. destruct (handle =? 0); [reflexivity|].
         rewrite Hsame, Hctx, Hm. reflexivity. }
    destruct (context E ctx) as [c|] eqn:Hc.
    2: { unfold nativeGenerateText. destruct (handle =? 0); [reflexivity|].
         rewrite Hsame, Hctx, Hm, Hc. reflexivity. }
    rewrite (nativeGenerateText_unfold st jni handle p maxTokens temperature topP topK throws
               ctx m c H0 Hctx Hm Hc).
    rewrite (nativeGenerateText_unfold st' jni handle p maxTokens temperature topP topK throws
               ctx m c H0 Hsame Hm Hc).
    pose proof (generate_prefill_alike st st' jni handle (Some p) throws ctx ctx m c c eq_refl)
      as Halike.
    unfold prefill_alike in Halike.
    destruct (generate_prefill E st jni handle (Some p) throws ctx m c) as [[r g]|[s n]],
             (generate_prefill E st' jni handle (Some p) throws ctx m c) as [[r' g']|[s' n']];
      try contradiction.
    + destruct Halike as [-> _]. reflexivity.
    + injection Halike as -> ->. reflexivity.
Qed.

(** X17.  With an engine whose [llama_memory_clear] resets the context
    whatever was decoded into it, what a generation call returns does not
    depend on an earlier generation call, whatever its arguments and its
    handle; and a call repeated with the same arguments returns the same text
    and leaves the same globals as the first. *)
Theorem nativeGenerateText_repeat (st : globals E) (env : option JNIEnv) (handle : Z)
    (prompt : option jstring) (maxTokens : Z) (temperature topP : float) (topK : Z)
    (throws : gen_point → option cpp_exception) :
  let gen st := nativeGenerateText E st env handle prompt maxTokens temperature topP topK throws in
  (∀ env0 handle0 prompt0 maxTokens0 temperature0 topP0 topK0 throws0,
     fst (gen (snd (nativeGenerateText E st env0 handle0 prompt0 maxTokens0 temperature0 topP0
                      topK0 throws0)))
     = fst (gen st)) ∧
  fst (gen (snd (gen st))) = fst (gen st) ∧
  snd (gen (snd (gen st))) = snd (gen st).
Proof.
  cbn zeta.
  assert (Hindep : ∀ env0 handle0 prompt0 maxTokens0 temperature0 topP0 topK0 throws0,
    fst (nativeGenerateText E
           (snd (nativeGenerateText E st env0 handle0 prompt0 maxTokens0 temperature0 topP0
                   topK0 throws0))
           env handle prompt maxTokens temperature topP topK throws)
    = fst (nativeGenerateText E st env handle prompt maxTokens temperature topP topK throws)).
  { intros env0 handle0 prompt0 maxTokens0 temperature0 topP0 topK0 throws0.
    destruct (nativeGenerateText_leaves st env0 handle0 prompt0 maxTokens0 temperature0 topP0
                topK0 throws0) as [->|(ctx & m & c & c' & toks & Hctx & Hm & Hc & Hclear & ->)];
      [reflexivity|].
    apply (nativeGenerateText_alike st handle0 ctx m c c' toks env handle prompt maxTokens
             temperature topP topK throws Hctx Hm Hc Hclear). }
  split; [exact Hindep|]. split; [apply Hindep|].
  destruct (nativeGenerateText_leaves st env handle prompt maxTokens temperature topP topK throws)
    as [Hst|(ctx & m & c & c' & toks & Hctx & Hm & Hc & Hclear & Hst)].
  - rewrite Hst. exact Hst.
  - destruct (nativeGenerateText_alike st handle ctx m c c' toks env handle prompt maxTokens
                temperature topP topK throws Hctx Hm Hc Hclear) as [_ Hstate].
    cbn zeta in Hstate. rewrite <- Hst in Hstate.
    destruct (Hstate eq_refl) as [Heq|[Heq1 Heq2]]; [exact Heq|].
    rewrite Heq2. reflexivity.
Qed.

End Reset.


Lemma key_lt_trans (a b c : Z * Z * Z) : key_lt a b → key_lt b c → key_lt a c.
Proof.
  destruct a as [[a1 a2] a3], b as [[b1 b2] b3], c as [[c1 c2] c3]. unfold key_lt. lia.
Qed.

Lemma key_lt_irrefl (a : Z * Z * Z) : ¬ key_lt a a.
Proof. destruct a as [[a1 a2] a3]. unfold key_lt. lia. Qed.

(** The scan on any array, NaN or not: no score compares greater than the
    score it keeps. *)
Lemma greedy_scan_unbeaten (lg : list float) (k : nat) :
  ∃ bi : nat,
    foldl (greedy_step lg) (0, lg !!! 0%nat) (seq 1 k) = (Z.of_nat bi, lg !!! bi) ∧
    (bi ≤ k)%nat ∧
    ∀ j : nat, (j ≤ k)%nat → float_gt (lg !!! j) (lg !!! bi) = false.
Proof.
  assert (Hirr : ∀ x : float, PrimFloat.ltb x x = false).
  { intros x. destruct (PrimFloat.ltb x x) eqn:Hx; [|reflexivity].
    destruct (float_ltb_not_nan x x Hx) as [Hn _].
    apply (float_ltb_key x x Hn Hn) in Hx. destruct (key_lt_irrefl _ Hx). }
  induction k as [|k (bi & Hfold & Hbi & Hmax)].
  - exists 0%nat. cbn [seq foldl]. split; [reflexivity|]. split; [lia|].
    intros j Hj. assert (j = 0%nat) as -> by lia. apply Hirr.
  - rewrite seq_S, foldl_app, Hfold. cbn [foldl]. unfold greedy_step. cbn [snd].
    change (1 + k)%nat with (S k). unfold float_gt in *.
    destruct (PrimFloat.ltb (lg !!! bi) (lg !!! S k)) eqn:Hlt.
    + exists (S k). split; [reflexivity|]. split; [lia|]. intros j Hj.
      destruct (PrimFloat.ltb (lg !!! S k) (lg !!! j)) eqn:Hj'; [|reflexivity].
      destruct (float_ltb_not_nan _ _ Hlt) as [Hnb Hnk].
      destruct (float_ltb_not_nan _ _ Hj') as [_ Hnj].
      apply (float_ltb_key _ _ Hnb Hnk) in Hlt. apply (float_ltb_key _ _ Hnk Hnj) in Hj'.
      destruct (decide (j = S k)) as [->|Hne]; [destruct (key_lt_irrefl _ Hj')|].
      pose proof (key_lt_trans _ _ _ Hlt Hj') as Hbj.
      apply (float_ltb_key _ _ Hnb Hnj) in Hbj. rewrite Hmax in Hbj by lia. discriminate.
    + exists bi. split; [reflexivity|]. split; [lia|]. intros j Hj.
      destruct (decide (j = S k)) as [->|Hne]; [exact Hlt|]. apply Hmax. lia.
Qed.

(** X18.  For every array of scores over a vocabulary of at least one token,
    whether or not it holds NaN, the token [sample_token_greedy] selects is a
    token of the vocabulary, and no token's score compares greater than its
    score. *)
Theorem sample_token_greedy_unbeaten (ctx : LlamaContext E) (m : llama_model E)
    (c : llama_context E) (logits : list float) :
  model E ctx = Some m → context E ctx = Some c →
  1 <= llama_vocab_n_tokens E (llama_model_get_vocab E m) →
  Z.of_nat (length logits) = llama_vocab_n_tokens E (llama_model_get_vocab E m) →
  let t := sample_token_greedy E (Some ctx) (Some logits) in
  0 <= t < llama_vocab_n_tokens E (llama_model_get_vocab E m) ∧
  ∀ j : nat, (j < length logits)%nat →
    float_gt (logits !!! j) (logits !!! Z.to_nat t) = false.
Proof.
  intros Hm Hc Hn Hlen. cbn zeta.
  unfold sample_token_greedy, greedy_scan. rewrite Hm, Hc. cbn zeta.
  set (n := llama_vocab_n_tokens E (llama_model_get_vocab E m)) in *.
  destruct (greedy_scan_unbeaten logits (Z.to_nat n - 1)) as (bi & Hfold & Hbi & Hmax).
  rewrite Hfold. cbn [fst]. rewrite Nat2Z.id. split; [lia|].
  intros j Hj. apply Hmax. lia.
Qed.

(** X19.  The batch in which the prompt is decoded holds the first
    [n_tokens] tokens of the history at the positions 0, 1, ..., each in
    sequence 0, and requests logits for the last position only. *)
Theorem prompt_batch_shape (toks : list llama_token) (n_tokens : Z) (i : nat) :
  (Z.to_nat n_tokens ≤ length toks)%nat → Z.of_nat i < n_tokens →
  let b := prompt_batch toks n_tokens in
  batch_n_tokens b = n_tokens ∧
  length (batch_token b) = Z.to_nat n_tokens ∧
  batch_token b !! i = toks !! i ∧
  batch_pos b !! i = Some (Z.of_nat i) ∧
  batch_n_seq_id b !! i = Some 1 ∧
  batch_seq_id b !! i = Some [0] ∧
  batch_logits b !! i = Some (bool_decide (Z.of_nat i = n_tokens - 1)).
Proof.
  intros Hlen Hi. cbn zeta. unfold prompt_batch.
  cbn [batch_n_tokens batch_token batch_pos batch_n_seq_id batch_seq_id batch_logits].
  split; [reflexivity|]. split; [rewrite length_take; lia|].
  split; [apply lookup_take_lt; lia|].
  split; [rewrite lookup_seqZ_lt by lia; f_equal; lia|].
  split; [apply lookup_replicate_2; lia|]. split; [apply lookup_replicate_2; lia|].
  destruct (Z.ltb_spec 0 n_tokens) as [_|?]; [|lia].
  destruct (decide (Z.of_nat i = n_tokens - 1)) as [Heq|Hne].
  - rewrite bool_decide_eq_true_2 by assumption.
    replace (Z.to_nat (n_tokens - 1)) with i by lia.
    apply list_lookup_insert_eq. rewrite length_replicate. lia.
  - rewrite bool_decide_eq_false_2 by assumption.
    rewrite list_lookup_insert_ne by lia. apply lookup_replicate_2. lia.
Qed.

End Generation.

(** ** Generation on concrete inputs *)

Lemma toy_tokenize_within :
  ∀ vocab text n_tokens_max add_special parse_special,
    0 <= n_tokens_max →
    fst (llama_tokenize toy_engine vocab text n_tokens_max add_special parse_special)
    <= n_tokens_max.
Proof.
  intros vocab text n_tokens_max add_special parse_special Hmax.
  cbn [llama_tokenize toy_engine]. unfold toy_tokenize.
  destruct (Z.leb_spec (Z.of_nat (length (toy_tokens text))) n_tokens_max); cbn [fst]; lia.
Qed.

Lemma toy_n_ctx_decode :
  ∀ c b, llama_n_ctx toy_engine (snd (llama_decode toy_engine c b)) = llama_n_ctx toy_engine c.
Proof.
  intros c b. cbn [llama_n_ctx llama_decode toy_engine]. unfold toy_decode.
  destruct (batch_n_tokens b <=? 0); [reflexivity|].
  destruct (fst c <? _); reflexivity.
Qed.

Lemma toy_n_ctx_clear :
  ∀ c, llama_n_ctx toy_engine (llama_memory_clear toy_engine c) = llama_n_ctx toy_engine c.
Proof. reflexivity. Qed.

Lemma toy_clear_decode :
  ∀ c b, llama_memory_clear toy_engine (snd (llama_decode toy_engine c b))
         = llama_memory_clear toy_engine c.
Proof.
  intros c b. cbn [llama_memory_clear llama_decode toy_engine]. unfold toy_decode.
  destruct (batch_n_tokens b <=? 0); [reflexivity|].
  destruct (fst c <? _); reflexivity.
Qed.

Lemma toy_clear_clear :
  ∀ c, llama_memory_clear toy_engine (llama_memory_clear toy_engine c)
       = llama_memory_clear toy_engine c.
Proof. reflexivity. Qed.

(** From "!" the small engine appends at most 7 tokens, none of them the
    token 3 that ends the sequence, and the call, in which the runtime
    throws nowhere, returns their texts. *)
Lemma nativeGenerateText_generated_toy :
  ∃ new : list llama_token,
    Z.of_nat (length new) <= 7 ∧ Forall (λ t, (t =? 3) = false) new ∧
    fst (nativeGenerateText toy_engine toy_loaded (Some toy_jni) 1 (Some "!"%string) 10
           1%float 1%float 40 no_throw_gen)
    = Some (c_str (pieces_text toy_engine tt new)).
Proof.
  destruct (nativeGenerateText_generated toy_engine toy_tokenize_within toy_n_ctx_decode
              toy_n_ctx_clear toy_loaded toy_jni 1 "!"%string 10 1%float 1%float 40
              no_throw_gen toy_session tt (8, []) toy_start 1
              ltac:(discriminate) eq_refl eq_refl eq_refl eq_refl)
    as (new & c' & _ & _ & Hlen & Hne & _ & _ & _ & _ & Htext).
  exists new. split; [exact Hlen|]. split; [exact Hne|].
  apply Htext. intros i. split; reflexivity.
Defined.

(** A limit of 0 is the limit 256. *)
Lemma nativeGenerateText_default_max_tokens_toy :
  nativeGenerateText toy_engine toy_loaded (Some toy_jni) 1 (Some "!"%string) 0
    1%float 1%float 40 no_throw_gen =
  nativeGenerateText toy_engine toy_loaded (Some toy_jni) 1 (Some "!"%string) 256
    1%float 1%float 40 no_throw_gen.
Proof.
  apply (nativeGenerateText_default_max_tokens toy_engine). discriminate.
Defined.

(** Five tokens do not fit the half of a context of length 8. *)
Lemma nativeGenerateText_engine_failure_toy :
  fst (nativeGenerateText toy_engine toy_loaded (Some toy_jni) 1 (Some "!!!!!"%string) 10
         1%float 1%float 40 no_throw_gen) = Some "Error: Tokenization failed"%string.
Proof.
  refine (proj1 (nativeGenerateText_engine_failure toy_engine toy_loaded toy_jni 1
                   "!!!!!"%string 10 1%float 1%float 40 no_throw_gen toy_session tt (8, [])
                   _ eq_refl eq_refl eq_refl eq_refl eq_refl _) _).
  - discriminate.
  - discriminate.
  - reflexivity.
Defined.

(** With nothing decoded the loop stops where it is. *)
Lemma generate_loop_stops_toy :
  generate_loop toy_engine toy_session tt no_throw_gen 5 0 toy_idle = (None, toy_idle).
Proof.
  apply (generate_loop_stops toy_engine). left. reflexivity.
Defined.

(** After token 0 the small engine selects token 1, and the turn appends it. *)
Lemma generate_loop_token_toy :
  batch_n_tokens
    (next_batch (gs_batch toy_engine toy_start)
       (sample_token_greedy toy_engine
          (Some (session_of toy_engine toy_session (gs_context toy_engine toy_start)
                   (gs_tokens toy_engine toy_start)))
          (Some [0%float; 1%float; 0%float; 0%float]))
       (Z.of_nat (length (gs_tokens toy_engine toy_start)))) = 1.
Proof.
  refine (proj1 (proj2 (proj2 (generate_loop_token toy_engine toy_session tt no_throw_gen 3 0
                                 toy_start [0%float; 1%float; 0%float; 0%float]
                                 eq_refl eq_refl _ eq_refl)))).
  intros _. reflexivity.
Defined.

(** After [toy_calls] without the cleanup the session's history is within
    its context length. *)
Lemma run_sessions_ok_toy :
  is_Some (model toy_engine
             (Build_LlamaContext toy_engine (Some tt) (Some (8, [0; 1; 2])) [0; 1; 2] 0)).
Proof.
  refine (proj1 (run_sessions_ok toy_engine toy_tokenize_within toy_n_ctx_decode
                   toy_n_ctx_clear (take 2 toy_calls) 1 _ _)).
  reflexivity.
Defined.

(** The generation of [toy_calls] repeated returns the same text. *)
Lemma nativeGenerateText_repeat_toy :
  fst (nativeGenerateText toy_engine
         (snd (nativeGenerateText toy_engine toy_loaded (Some toy_jni) 1 (Some "!"%string) 10
                 1%float 1%float 40 no_throw_gen))
         (Some toy_jni) 1 (Some "!"%string) 10 1%float 1%float 40 no_throw_gen)
  = fst (nativeGenerateText toy_engine toy_loaded (Some toy_jni) 1 (Some "!"%string) 10
           1%float 1%float 40 no_throw_gen).
Proof.
  exact (proj1 (proj2 (nativeGenerateText_repeat toy_engine toy_clear_decode toy_clear_clear
                         toy_loaded (Some toy_jni) 1 (Some "!"%string) 10 1%float 1%float 40
                         no_throw_gen))).
Defined.

(** On [nan_scores] the scan keeps token 0, and no score compares greater
    than NaN. *)
Lemma sample_token_greedy_unbeaten_toy :
  0 <= sample_token_greedy toy_engine (Some toy_session) (Some nan_scores) < 4.
Proof.
  exact (proj1 (sample_token_greedy_unbeaten toy_engine toy_session tt (8, []) nan_scores
                  eq_refl eq_refl ltac:(cbn; lia) eq_refl)).
Defined.

(** In the batch of a prompt of three tokens the last position asks for
    logits. *)
Lemma prompt_batch_shape_toy :
  batch_logits (prompt_batch [0; 1; 2] 3) !! 2%nat = Some true.
Proof.
  refine (proj2 (proj2 (proj2 (proj2 (proj2 (proj2
            (prompt_batch_shape [0; 1; 2] 3 2 _ _))))))).
  - cbn. lia.
  - lia.
Defined.

(** ** nativeGetModelInfo *)

Section DescribeProperties.

Context (E : Engine).
Variable llama_model_n_embd : llama_model E → Z.
Variable llama_model_desc : llama_model E → Z → string.

(** The report has no zero byte, so the Java string holds all of it. *)
Lemma c_str_model_info (handle : Z) (m : llama_model E) (c : llama_context E) :
  c_str (model_info E llama_model_n_embd llama_model_desc handle m c)
  = model_info E llama_model_n_embd llama_model_desc handle m c.
Proof.
  unfold model_info. cbn zeta.
  apply c_str_app_id; [|reflexivity].
  apply c_str_app_id;
    [|apply c_str_app_id; [reflexivity|apply c_str_app_id; [apply c_str_idem|reflexivity]]].
  do 4 (apply c_str_app_id;
    [|apply c_str_app_id;
        [reflexivity|apply c_str_app_id; [apply c_str_pretty_Z|reflexivity]]]).
  reflexivity.
Qed.

(** X20.  What [nativeGetModelInfo] returns: null with a null environment;
    "Error: Invalid parameters" for handle 0; "Error: No model loaded for
    this handle" for a handle under which the registry holds no session or
    one without model or context, and so for a handle that was cleaned up;
    for a session with model and context the text of the exception when the
    runtime throws, and otherwise the report, which starts with the line
    "Model Information:" and the line "Handle: " with the handle in
    decimal. *)
Theorem nativeGetModelInfo_outcomes (st : globals E) (env : option JNIEnv) (handle : Z)
    (throws : option cpp_exception) :
  let info st := nativeGetModelInfo E llama_model_n_embd llama_model_desc st env handle throws in
  (env = None → info st = None) ∧
  (env ≠ None → handle = 0 → info st = Some "Error: Invalid parameters"%string) ∧
  (env ≠ None → handle ≠ 0 →
   (get_context E st handle = None ∨
    ∃ ctx, get_context E st handle = Some ctx ∧ (model E ctx = None ∨ context E ctx = None)) →
   info st = Some "Error: No model loaded for this handle"%string) ∧
  (env ≠ None → handle ≠ 0 →
   info (nativeCleanup E st handle) = Some "Error: No model loaded for this handle"%string) ∧
  (∀ ctx m c, env ≠ None → handle ≠ 0 → get_context E st handle = Some ctx →
     model E ctx = Some m → context E ctx = Some c →
     info st = Some (match throws with
                     | Some StdException => "Error: Exception getting model info"
                     | Some UnknownException => "Error: Unknown exception getting model info"
                     | None => model_info E llama_model_n_embd llama_model_desc handle m c
                     end)%string ∧
     ∃ rest, model_info E llama_model_n_embd llama_model_desc handle m c
             = ("Model Information:" +:+ newline +:+ "Handle: " +:+ pretty handle +:+ newline
                +:+ rest)%string).
Proof.
  cbn zeta.
  assert (Habsent : ∀ st0 : globals E, env ≠ None → handle ≠ 0 →
            (get_context E st0 handle = None ∨
             ∃ ctx, get_context E st0 handle = Some ctx ∧
                    (model E ctx = None ∨ context E ctx = None)) →
            nativeGetModelInfo E llama_model_n_embd llama_model_desc st0 env handle throws
            = Some "Error: No model loaded for this handle"%string).
  { intros st0 Henv H0 Hno. unfold nativeGetModelInfo.
    destruct env as [jni|]; [|contradiction].
    destruct (Z.eqb_spec handle 0) as [?|_]; [contradiction|].
    destruct Hno as [->|(ctx & -> & [Hm|Hc])]; [reflexivity|rewrite Hm; reflexivity|].
    rewrite Hc. destruct (model E ctx); reflexivity. }
  split; [|split; [|split; [|split]]].
  - intros ->. reflexivity.
  - intros Henv ->. destruct env; [reflexivity|contradiction].
  - apply Habsent.
  - intros Henv H0. apply Habsent; try assumption. left.
    unfold get_context. rewrite nativeCleanup_lookup, decide_True by tauto. reflexivity.
  - intros ctx m c Henv H0 Hctx Hm Hc. split.
    + unfold nativeGetModelInfo. destruct env as [jni|]; [|contradiction].
      destruct (Z.eqb_spec handle 0) as [?|_]; [contradiction|].
      rewrite Hctx, Hm, Hc. destruct throws as [[|]|]; [reflexivity|reflexivity|].
      cbn [string_to_jstring]. rewrite c_str_model_info. reflexivity.
    + unfold model_info. cbn zeta. eexists.
      rewrite !string_app_assoc. reflexivity.
Qed.

(** X22.  After a load that does not fail (made with the counter below the
    largest [jlong] and above the handles in the registry),
    [nativeGetModelInfo] of the handle it returned gives the report for that
    handle, the model and the context the engine returned for the request. *)
Theorem nativeGetModelInfo_after_load (st : globals E) (env : option JNIEnv)
    (modelPath : option jstring) (contextSize threads : Z) (hw_threads : N) (seed : Z)
    (throws : load_point → bool) (env' : option JNIEnv) :
  load_fails E env modelPath contextSize threads hw_threads throws = false →
  handles_wf E st → g_next_handle E st < JLONG_MAX → env' ≠ None →
  let r := nativeLoadModel E st env modelPath contextSize threads hw_threads seed throws in
  ∃ jni m c,
    env = Some jni ∧
    llama_model_load_from_file E (jstring_to_string jni modelPath)
      {| use_mmap := true; use_mlock := false |} = Some m ∧
    llama_init_from_model E m
      (load_context_params (if contextSize <=? 0 then 2048 else contextSize) threads hw_threads)
      = Some c ∧
    nativeGetModelInfo E llama_model_n_embd llama_model_desc (snd r) env' (fst r) None
    = Some (model_info E llama_model_n_embd llama_model_desc (fst r) m c).
Proof.
  intros Hf Hwf Hmax Henv. cbn zeta.
  destruct (nativeLoadModel_stores E st env modelPath contextSize threads hw_threads seed throws
              Hf Hwf Hmax) as (jni & m & c & -> & Hl & Hi & Hh & _ & _ & Hmap & _).
  cbn zeta in Hh, Hmap. destruct Hwf as [Hnext _].
  exists jni, m, c. split; [reflexivity|]. split; [exact Hl|]. split; [exact Hi|].
  unfold nativeGetModelInfo, get_context. destruct env' as [jni'|]; [|contradiction].
  rewrite Hmap, Hh.
  destruct (Z.eqb_spec (g_next_handle E st) 0) as [H0|_]; [lia|].
  rewrite lookup_insert_eq. cbn [model context string_to_jstring].
  rewrite c_str_model_info. reflexivity.
Qed.

Section Contracts.

Hypothesis n_ctx_decode :
  ∀ c b, llama_n_ctx E (snd (llama_decode E c b)) = llama_n_ctx E c.
Hypothesis n_ctx_clear :
  ∀ c, llama_n_ctx E (llama_memory_clear E c) = llama_n_ctx E c.

Lemma nativeGenerateText_keeps_n_ctx (st : globals E) env handle prompt maxTokens temperature
    topP topK throws :
  let st' := snd (nativeGenerateText E st env handle prompt maxTokens temperature topP topK
                    throws) in
  st' = st ∨
  ∃ ctx m c c' toks,
    get_context E st handle = Some ctx ∧ model E ctx = Some m ∧ context E ctx = Some c ∧
    llama_n_ctx E c' = llama_n_ctx E c ∧
    st' = update_session E st handle (session_of E ctx c' toks).
Proof.
  cbn zeta.
  destruct env as [jni|]; [|left; reflexivity]. destruct prompt as [p|]; [|left; reflexivity].
  destruct (decide (handle = 0)) as [->|H0]; [left; reflexivity|].
  destruct (get_context E st handle) as [ctx|] eqn:Hctx.
  2: { left. unfold nativeGenerateText. destruct (handle =? 0); [reflexivity|].
       rewrite Hctx. reflexivity. }
  destruct (model E ctx) as [m|] eqn:Hm.
  2: { left. unfold nativeGenerateText. destruct (handle =? 0); [reflexivity|].
       rewrite Hctx, Hm. reflexivity. }
  destruct (context E ctx) as [c|] eqn:Hc.
  2: { left. unfold nativeGenerateText. destruct (handle =? 0); [reflexivity|].
       rewrite Hctx, Hm, Hc. reflexivity. }
  rewrite (nativeGenerateText_unfold E st jni handle p maxTokens temperature topP topK throws
             ctx m c H0 Hctx Hm Hc), generate_prefill_unfold. cbn zeta.
  destruct (throws GenInputString); [left; reflexivity|].
  destruct (String.eqb _ ""); [left; reflexivity|].
  destruct (throws GenResize).
  { right. exists ctx, m, c, (llama_memory_clear E c), []. auto. }
  destruct (_ <? 0).
  { right. exists ctx, m, c, (llama_memory_clear E c). eauto 6. }
  destruct (negb _).
  { right. exists ctx, m, c. eexists. eexists.
    split; [first [reflexivity|exact Hctx]|].
    split; [first [reflexivity|exact Hm]|]. split; [first [reflexivity|exact Hc]|].
    split; [|reflexivity]. rewrite n_ctx_decode. apply n_ctx_clear. }
  right. exists ctx, m, c. eexists. eexists.
  split; [first [reflexivity|exact Hctx]|].
  split; [first [reflexivity|exact Hm]|]. split; [first [reflexivity|exact Hc]|].
  split; [|reflexivity]. cbn [snd]. rewrite (generate_loop_n_ctx E n_ctx_decode). cbn [gs_context].
  rewrite n_ctx_decode. apply n_ctx_clear.
Qed.

(** X21.  With an engine that keeps the context length of a context fixed,
    a generation call changes nothing of what [nativeGetModelInfo] returns,
    for any handle. *)
Theorem nativeGetModelInfo_after_generate (st : globals E) (env0 : option JNIEnv) (handle0 : Z)
    (prompt : option jstring) (maxTokens : Z) (temperature topP : float) (topK : Z)
    (throws0 : gen_point → option cpp_exception)
    (env : option JNIEnv) (handle : Z) (throws : option cpp_exception) :
  nativeGetModelInfo E llama_model_n_embd llama_model_desc
    (snd (nativeGenerateText E st env0 handle0 prompt maxTokens temperature topP topK throws0))
    env handle throws
  = nativeGetModelInfo E llama_model_n_embd llama_model_desc st env handle throws.
Proof.
  destruct (nativeGenerateText_keeps_n_ctx st env0 handle0 prompt maxTokens temperature topP
              topK throws0) as [->|(ctx & m & c & c' & toks & Hctx & Hm & Hc & Hn & ->)];
    [reflexivity|].
  unfold nativeGetModelInfo, get_context, update_session. cbn [set_contexts g_contexts].
  destruct env as [jni|]; [|reflexivity]. destruct (handle =? 0); [reflexivity|].
  destruct (decide (handle0 = handle)) as [->|Hne].
  - unfold get_context in Hctx. rewrite lookup_insert_eq, Hctx.
    cbn [session_of model context]. rewrite Hm, Hc.
    destruct throws as [[|]|]; [reflexivity|reflexivity|].
    unfold model_info. rewrite Hn. reflexivity.
  - rewrite lookup_insert_ne by assumption. reflexivity.
Qed.

End Contracts.

End DescribeProperties.

(** ** nativeGetModelInfo on concrete inputs *)

(** The report for the session loaded by [toy_calls]. *)
Lemma nativeGetModelInfo_after_load_toy :
  ∃ m c,
    nativeGetModelInfo toy_engine toy_n_embd toy_desc toy_loaded (Some toy_jni) 1 None
    = Some (model_info toy_engine toy_n_embd toy_desc 1 m c).
Proof.
  destruct (nativeGetModelInfo_after_load toy_engine toy_n_embd toy_desc
              (initial_globals toy_engine) (Some toy_jni) (Some "model.gguf"%string) 8 4 0 0
              no_throw_load (Some toy_jni) eq_refl (initial_globals_wf toy_engine) eq_refl
              ltac:(discriminate))
    as (jni & m & c & _ & _ & _ & Hinfo).
  exists m, c. exact Hinfo.
Defined.

(** The report is the same after the generation of [toy_calls]. *)
Lemma nativeGetModelInfo_after_generate_toy :
  nativeGetModelInfo toy_engine toy_n_embd toy_desc
    (snd (nativeGenerateText toy_engine toy_loaded (Some toy_jni) 1 (Some "!"%string) 10
            1%float 1%float 40 no_throw_gen))
    (Some toy_jni) 1 None
  = nativeGetModelInfo toy_engine toy_n_embd toy_desc toy_loaded (Some toy_jni) 1 None.
Proof.
  apply (nativeGetModelInfo_after_generate toy_engine toy_n_embd toy_desc
           toy_n_ctx_decode toy_n_ctx_clear).
Defined.

(** ** Lifetime of a session *)

Section Lifetime.

Context (E : Engine).

(** X23.  A load that does not fail followed by the cleanup of the handle it
    returned leaves the registry as it was before the load, and has released
    the context and then the model that the engine returned for the load. *)
Theorem load_cleanup_round_trip (st : globals E) (env : option JNIEnv)
    (modelPath : option jstring) (contextSize threads : Z) (hw_threads : N) (seed : Z)
    (throws : load_point → bool) :
  load_fails E env modelPath contextSize threads hw_threads throws = false →
  handles_wf E st → g_next_handle E st < JLONG_MAX →
  let r := nativeLoadModel E st env modelPath contextSize threads hw_threads seed throws in
  let st' := nativeCleanup E (snd r) (fst r) in
  g_contexts E st' = g_contexts E st ∧
  ∃ jni m c,
    env = Some jni ∧
    llama_model_load_from_file E (jstring_to_string jni modelPath)
      {| use_mmap := true; use_mlock := false |} = Some m ∧
    llama_init_from_model E m
      (load_context_params (if contextSize <=? 0 then 2048 else contextSize) threads hw_threads)
      = Some c ∧
    engine_log E st' = engine_log E (backend_init E st) ++ [EvFree E c; EvModelFree E m].
Proof.
  intros Hf Hwf Hmax. cbn zeta.
  destruct (nativeLoadModel_stores E st env modelPath contextSize threads hw_threads seed throws
              Hf Hwf Hmax) as (jni & m & c & Henv & Hl & Hi & Hh & Hfree & _ & Hmap & Hlog).
  cbn zeta in Hh, Hmap, Hlog. destruct Hwf as [Hnext _].
  set (r := nativeLoadModel E st env modelPath contextSize threads hw_threads seed throws) in *.
  unfold nativeCleanup. rewrite Hh.
  destruct (Z.eqb_spec (g_next_handle E st) 0) as [?|_]; [lia|].
  rewrite Hmap, lookup_insert_eq. cbn [set_contexts log_events g_contexts engine_log].
  split.
  - rewrite delete_insert_id by exact Hfree. reflexivity.
  - exists jni, m, c. split; [exact Henv|]. split; [exact Hl|]. split; [exact Hi|].
    rewrite Hlog. reflexivity.
Qed.

(** X24.  When the runtime throws in a generation call on a session with
    model and context, the call returns the text of the [catch] that takes
    the exception, wherever it is thrown.  An exception while the prompt is
    copied leaves the globals as they are; an exception while the token
    buffer is resized leaves the session with an empty history and the
    cleared context; an exception in a turn of the loop, at [result.append]
    (which is called when the piece has a positive length) or, when that did
    not throw, at [push_back], leaves the session with the history and the
    context that the turn started with. *)
Theorem nativeGenerateText_exception (st : globals E) (jni : JNIEnv) (handle : Z)
    (p : jstring) (maxTokens : Z) (temperature topP : float) (topK : Z)
    (throws : gen_point → option cpp_exception)
    (ctx : LlamaContext E) (m : llama_model E) (c : llama_context E) (e : cpp_exception) :
  handle ≠ 0 → get_context E st handle = Some ctx →
  model E ctx = Some m → context E ctx = Some c →
  let r := nativeGenerateText E st (Some jni) handle (Some p) maxTokens temperature topP topK
             throws in
  let vocab := llama_model_get_vocab E m in
  let text := match e with
              | StdException => "Error: Exception during text generation"%string
              | UnknownException => "Error: Unknown exception during text generation"%string
              end in
  (throws GenInputString = Some e → r = (Some text, st)) ∧
  (throws GenInputString = None → jstring_to_string jni (Some p) ≠ ""%string →
   throws GenResize = Some e →
   fst r = Some text ∧
   get_context E (snd r) handle = Some (session_of E ctx (llama_memory_clear E c) [])) ∧
  (∀ (s0 : gen_state E) (n_tokens : Z) (k : nat) (sk : gen_state E) (logits : list float),
     generate_prefill E st jni handle (Some p) throws ctx m c = inr (s0, n_tokens) →
     loop_reaches E ctx vocab throws 0 s0 k sk →
     Z.of_nat k < max_gen_tokens E (default_max_tokens maxTokens) (gs_context E s0) n_tokens →
     llama_get_logits_ith E (gs_context E sk) (batch_n_tokens (gs_batch E sk) - 1)
     = Some logits →
     let t := sample_token_greedy E
                (Some (session_of E ctx (gs_context E sk) (gs_tokens E sk))) (Some logits) in
     let piece_len := fst (llama_token_to_piece E vocab t 256 0 false) in
     llama_vocab_is_eog E vocab t = false →
     (0 < piece_len ∧ throws (GenAppend k) = Some e) ∨
     ((0 < piece_len → throws (GenAppend k) = None) ∧ throws (GenPushBack k) = Some e) →
     r = (Some text,
          update_session E st handle
            (session_of E ctx (gs_context E sk) (gs_tokens E sk)))).
Proof.
  intros H0 Hctx Hm Hc. cbn zeta.
  split; [|split].
  - rewrite (nativeGenerateText_unfold E st jni handle p maxTokens temperature topP topK throws
               ctx m c H0 Hctx Hm Hc), generate_prefill_unfold.
    intros ->. destruct e; reflexivity.
  - rewrite (nativeGenerateText_unfold E st jni handle p maxTokens temperature topP topK throws
               ctx m c H0 Hctx Hm Hc), generate_prefill_unfold.
    intros -> Hne ->. cbn zeta.
    destruct (String.eqb_spec (jstring_to_string jni (Some p)) "") as [?|_]; [contradiction|].
    cbn [fst snd]. split; [destruct e; reflexivity|].
    unfold get_context, update_session. cbn [set_contexts g_contexts].
    apply lookup_insert_eq.
  - intros s0 n_tokens k sk logits Hpre Hreach Hk Hlg Heog Hthrown.
    rewrite (nativeGenerateText_from_turn E st jni handle p maxTokens temperature topP topK
               throws ctx m c s0 n_tokens k sk H0 Hctx Hm Hc Hpre Hreach ltac:(lia)).
    cbn zeta.
    destruct (Z.to_nat (max_gen_tokens E (default_max_tokens maxTokens) (gs_context E s0)
                          n_tokens) - k)%nat as [|fuel] eqn:Hfuel; [lia|].
    rewrite generate_loop_S, generate_body_unfold, Hlg. cbn zeta. rewrite Heog.
    destruct Hthrown as [[Hlen Ha]|[Ha Hp]].
    + destruct (Z.ltb_spec 0 (fst (llama_token_to_piece E (llama_model_get_vocab E m)
                  (sample_token_greedy E
                     (Some (session_of E ctx (gs_context E sk) (gs_tokens E sk)))
                     (Some logits)) 256 0 false))) as [_|?]; [|lia].
      rewrite Ha. cbn [fst snd]. destruct e; reflexivity.
    + destruct (Z.ltb_spec 0 (fst (llama_token_to_piece E (llama_model_get_vocab E m)
                  (sample_token_greedy E
                     (Some (session_of E ctx (gs_context E sk) (gs_tokens E sk)))
                     (Some logits)) 256 0 false))) as [Hlen|_].
      * rewrite (Ha Hlen), Hp. cbn [fst snd gs_context gs_tokens]. destruct e; reflexivity.
      * rewrite Hp. cbn [fst snd gs_context gs_tokens]. destruct e; reflexivity.
Qed.

End Lifetime.

(** ** Lifetime on concrete inputs *)

(** The registry after the load of [toy_calls] and the cleanup of its handle. *)
Lemma load_cleanup_round_trip_toy :
  g_contexts toy_engine (nativeCleanup toy_engine toy_loaded 1)
  = g_contexts toy_engine (initial_globals toy_engine).
Proof.
  exact (proj1 (load_cleanup_round_trip toy_engine (initial_globals toy_engine) (Some toy_jni)
                  (Some "model.gguf"%string) 8 4 0 0 no_throw_load
                  eq_refl (initial_globals_wf toy_engine) eq_refl)).
Defined.

(** The second [push_back] of the loop throws in a call on the loaded
    session: the call returns the text of the first [catch] and the session
    keeps the prompt token and the token of the first turn. *)
Lemma nativeGenerateText_exception_toy :
  nativeGenerateText toy_engine toy_loaded (Some toy_jni) 1 (Some "!"%string) 10
    1%float 1%float 40 throw_at_push
  = (Some "Error: Exception during text generation"%string,
     update_session toy_engine toy_loaded 1
       (session_of toy_engine toy_session (8, [0; 1]) [0; 1])).
Proof.
  eapply (proj2 (proj2 (nativeGenerateText_exception toy_engine toy_loaded toy_jni 1
                          "!"%string 10 1%float 1%float 40 throw_at_push toy_session tt
                          (8, []) StdException ltac:(discriminate) eq_refl eq_refl eq_refl))
           toy_start 1 1%nat
           (snd (generate_body toy_engine toy_session tt throw_at_push 0 toy_start))).
  - reflexivity.
  - apply reaches_turn; [reflexivity|apply reaches_here].
  - reflexivity.
  - reflexivity.
  - reflexivity.
  - right. split; [intros H; vm_compute in H; discriminate|reflexivity].
Defined.

(** * The claims of the specification on sequences of calls and on generation *)

Section Claims.
Context (E : Engine).

Lemma load_fails_causes (env : option JNIEnv) (modelPath : option jstring)
    (contextSize threads : Z) (hw_threads : N) (throws : load_point → bool) :
  let model_params := {| use_mmap := true; use_mlock := false |} in
  let ctx_params :=
    load_context_params (if contextSize <=? 0 then 2048 else contextSize) threads hw_threads in
  env = None ∨ modelPath = None ∨
  (∃ jni, env = Some jni ∧ jstring_to_string jni modelPath = ""%string) ∨
  (∃ jni, env = Some jni ∧
          llama_model_load_from_file E (jstring_to_string jni modelPath) model_params = None) ∨
  (∃ jni m, env = Some jni ∧
            llama_model_load_from_file E (jstring_to_string jni modelPath) model_params = Some m ∧
            llama_init_from_model E m ctx_params = None) ∨
  (∃ p, throws p = true) →
  load_fails E env modelPath contextSize threads hw_threads throws = true.
Proof.
  cbn zeta. unfold load_fails.
  intros [->|[->|[(jni & -> & Hp)|[(jni & -> & Hl)|[(jni & m & -> & Hl & Hi)|(p & Hp)]]]]];
    [reflexivity|destruct env; reflexivity|..];
    (destruct modelPath as [mp|]; [|try destruct env; reflexivity]).
  - rewrite Hp. cbn [String.eqb]. rewrite orb_true_r. reflexivity.
  - rewrite Hl. apply orb_true_r.
  - rewrite Hl, Hi. apply orb_true_r.
  - destruct env as [jni|]; [|reflexivity].
    destruct (throws LoadPathString) eqn:H1; [reflexivity|].
    destruct (String.eqb _ "") eqn:H2; [reflexivity|].
    destruct (throws LoadMakeUnique) eqn:H3; [reflexivity|]. cbn [orb].
    destruct (llama_model_load_from_file E _ _) as [m|]; [|reflexivity].
    destruct (llama_init_from_model E m _) as [c|]; [|reflexivity].
    destruct p; rewrite ?Hp in *; try discriminate; [reflexivity|apply orb_true_r].
Qed.

Lemma step_sessions_complete (st : globals E) (c : call) :
  sessions_complete E st → sessions_complete E (snd (step E st c)).
Proof.
  intros Hst.
  destruct c as [env modelPath contextSize threads hw_threads seed throws
                |env handle prompt maxTokens temperature topP topK throws
                |handle]; cbn [step].
  - pose proof (nativeLoadModel_spec E st env modelPath contextSize threads hw_threads seed throws)
      as Hspec. cbn zeta in Hspec.
    destruct (nativeLoadModel E st env modelPath contextSize threads hw_threads seed throws)
      as [h st'] eqn:Hload. cbn [fst snd] in *.
    intros h' s. destruct (load_fails E env modelPath contextSize threads hw_threads throws).
    + destruct Hspec as (_ & -> & _). apply Hst.
    + destruct Hspec as (_ & _ & m & c & ->).
      destruct (decide (g_next_handle E st = h')) as [<-|Hne].
      * rewrite lookup_insert_eq. intros [= <-]. cbn [model context]. eauto.
      * rewrite lookup_insert_ne by assumption. apply Hst.
  - pose proof (nativeGenerateText_globals E st env handle prompt maxTokens temperature topP
                  topK throws) as Hg. cbn zeta in Hg.
    destruct (nativeGenerateText E st env handle prompt maxTokens temperature topP topK throws)
      as [r st'] eqn:Hgen. cbn [fst snd] in *.
    destruct Hg as [->|(ctx & c & toks & Hctx & ->)]; [exact Hst|].
    intros h' s. unfold update_session. cbn [set_contexts g_contexts].
    destruct (decide (handle = h')) as [<-|Hne].
    + rewrite lookup_insert_eq. intros [= <-]. cbn [session_of model context].
      split; [apply (Hst handle ctx Hctx)|eauto].
    + rewrite lookup_insert_ne by assumption. apply Hst.
  - cbn [snd]. intros h' s. rewrite nativeCleanup_lookup.
    case_decide; [discriminate|apply Hst].
Qed.

Lemma run_sessions_complete (cs : list call) (st : globals E) :
  sessions_complete E st → sessions_complete E (snd (run E st cs)).
Proof.
  revert st. induction cs as [|c cs IH]; intros st Hst; [exact Hst|].
  rewrite run_cons. cbn [snd]. apply IH, step_sessions_complete, Hst.
Qed.

Lemma initial_sessions_complete : sessions_complete E (initial_globals E).
Proof. intros h s. cbn [initial_globals g_contexts]. rewrite lookup_empty. discriminate. Qed.

(** C1.  A load request, made after any sequence of calls, in which a step
    fails (the environment pointer or the path is null, the path is empty,
    the engine does not load the model or does not make the context, or the
    runtime throws at any point) returns 0 and leaves the registry as it
    was; and before and after a load request, whatever it does, every
    session in the registry has both its model and its context. *)
Theorem load_failure_clean (cs : list call) (env : option JNIEnv)
    (modelPath : option jstring) (contextSize threads : Z) (hw_threads : N) (seed : Z)
    (throws : load_point → bool) :
  let st := snd (run E (initial_globals E) cs) in
  let r := nativeLoadModel E st env modelPath contextSize threads hw_threads seed throws in
  let model_params := {| use_mmap := true; use_mlock := false |} in
  let ctx_params :=
    load_context_params (if contextSize <=? 0 then 2048 else contextSize) threads hw_threads in
  (env = None ∨ modelPath = None ∨
   (∃ jni, env = Some jni ∧ jstring_to_string jni modelPath = ""%string) ∨
   (∃ jni, env = Some jni ∧
           llama_model_load_from_file E (jstring_to_string jni modelPath) model_params = None) ∨
   (∃ jni m, env = Some jni ∧
             llama_model_load_from_file E (jstring_to_string jni modelPath) model_params = Some m ∧
             llama_init_from_model E m ctx_params = None) ∨
   (∃ p, throws p = true) →
   fst r = 0 ∧ g_contexts E (snd r) = g_contexts E st) ∧
  sessions_complete E st ∧ sessions_complete E (snd r).
Proof.
  cbn zeta. split; [|split].
  - intros Hcause.
    pose proof (load_fails_causes env modelPath contextSize threads hw_threads throws Hcause)
      as Hf.
    pose proof (nativeLoadModel_spec E (snd (run E (initial_globals E) cs)) env modelPath
                  contextSize threads hw_threads seed throws) as Hspec.
    cbn zeta in Hspec. rewrite Hf in Hspec. tauto.
  - apply run_sessions_complete, initial_sessions_complete.
  - pose proof (step_sessions_complete _
                  (CallLoad env modelPath contextSize threads hw_threads seed throws)
                  (run_sessions_complete cs _ initial_sessions_complete)) as Hstep.
    cbn [step] in Hstep.
    destruct (nativeLoadModel E _ env modelPath contextSize threads hw_threads seed throws).
    exact Hstep.
Qed.

(** Every handle in the registry was there before the call or is the handle
    that the call returned. *)
Lemma step_keys_issued (st : globals E) (c : call) (h : Z) :
  is_Some (g_contexts E (snd (step E st c)) !! h) →
  is_Some (g_contexts E st !! h) ∨ h ∈ issued_handles E [c] [fst (step E st c)].
Proof.
  destruct c as [env modelPath contextSize threads hw_threads seed throws
                |env handle prompt maxTokens temperature topP topK throws
                |handle]; cbn [step].
  - pose proof (nativeLoadModel_spec E st env modelPath contextSize threads hw_threads seed throws)
      as Hspec. cbn zeta in Hspec.
    destruct (nativeLoadModel E st env modelPath contextSize threads hw_threads seed throws)
      as [h0 st'] eqn:Hload. cbn [fst snd issued_handles] in *.
    destruct (load_fails E env modelPath contextSize threads hw_threads throws).
    + destruct Hspec as (_ & -> & _). auto.
    + destruct Hspec as (-> & _ & m & c & ->).
      destruct (decide (g_next_handle E st = h)) as [<-|Hne].
      * intros _. right. apply list_elem_of_singleton. reflexivity.
      * rewrite lookup_insert_ne by assumption. auto.
  - pose proof (nativeGenerateText_present E st env handle prompt maxTokens temperature topP
                  topK throws h) as Hp.
    destruct (nativeGenerateText E st env handle prompt maxTokens temperature topP topK throws)
      as [r st'] eqn:Hgen. cbn [fst snd] in *. intros Hh. left. apply Hp, Hh.
  - cbn [fst snd]. rewrite nativeCleanup_lookup. case_decide; [intros [? ?]; discriminate|auto].
Qed.

Lemma run_keys_issued (cs : list call) (st : globals E) (h : Z) :
  is_Some (g_contexts E (snd (run E st cs)) !! h) →
  is_Some (g_contexts E st !! h) ∨ h ∈ issued_handles E cs (fst (run E st cs)).
Proof.
  revert st. induction cs as [|c cs IH]; intros st; [cbn; auto|].
  rewrite run_cons. cbn [fst snd]. rewrite issued_handles_cons. intros Hh.
  destruct (IH _ Hh) as [Hh1|Hh2].
  - destruct (step_keys_issued st c h Hh1) as [?|?]; [auto|].
    right. apply elem_of_app. auto.
  - right. apply elem_of_app. auto.
Qed.

(** C2.  After any sequence of calls, [nativeCleanup] of a handle that is 0,
    that no load returned, or that was cleaned up and not returned by a load
    since, leaves the globals as they are: the registry and its sessions,
    the counter, and the log of releases, so that nothing is released; and
    so it is however many times it is called.  On any globals and for any
    handle, a second [nativeCleanup] right after the first changes nothing. *)
Theorem cleanup_invalid_handle (cs : list call) (handle : Z) :
  let rs := fst (run E (initial_globals E) cs) in
  let st := snd (run E (initial_globals E) cs) in
  (handle = 0 ∨ handle ∉ issued_handles E cs rs ∨ cleaned_up_in E (initial_globals E) cs handle →
   nativeCleanup E st handle = st ∧
   ∀ n : nat, Nat.iter n (λ s, nativeCleanup E s handle) st = st) ∧
  (∀ (st0 : globals E) (h : Z),
     nativeCleanup E (nativeCleanup E st0 h) h = nativeCleanup E st0 h).
Proof.
  cbn zeta. split; [|intros st0 h; apply nativeCleanup_twice].
  intros Hinvalid.
  assert (Habs : handle = 0 ∨
                 g_contexts E (snd (run E (initial_globals E) cs)) !! handle = None).
  { destruct Hinvalid as [H0|[Hni|(cs1 & cs2 & -> & Hni)]]; [left; exact H0|right|].
    - apply eq_None_not_Some. intros Hsome.
      destruct (run_keys_issued cs _ handle Hsome) as [[s Hs]|Hin]; [|contradiction].
      cbn [initial_globals g_contexts] in Hs. rewrite lookup_empty in Hs. discriminate.
    - destruct (decide (handle = 0)) as [H0|H0]; [left; exact H0|right].
      replace (cs1 ++ CallCleanup handle :: cs2)
        with ((cs1 ++ [CallCleanup handle]) ++ cs2) by (rewrite <- app_assoc; reflexivity).
      rewrite run_app. cbn [snd].
      apply eq_None_not_Some. intros Hsome.
      destruct (run_keys_issued cs2 _ handle Hsome) as [[s Hs]|Hin]; [|contradiction].
      rewrite run_app in Hs. cbn [snd run step] in Hs.
      rewrite nativeCleanup_lookup, decide_True in Hs by tauto. discriminate. }
  split; [apply nativeCleanup_absent, Habs|].
  induction n as [|n IH]; [reflexivity|]. rewrite Nat.iter_succ, IH.
  apply nativeCleanup_absent, Habs.
Qed.
(** Calls that are not loads keep the counter and issue nothing. *)
Lemma step_other (st : globals E) (c : call) :
  is_load c = false →
  g_next_handle E (snd (step E st c)) = g_next_handle E st ∧
  issued_handles E [c] [fst (step E st c)] = [] ∧
  (handles_wf E st → handles_wf E (snd (step E st c))).
Proof.
  destruct c as [env modelPath contextSize threads hw_threads seed throws
                |env handle prompt maxTokens temperature topP topK throws
                |handle]; cbn [is_load step]; [discriminate|..]; intros _.
  - pose proof (nativeGenerateText_next_handle E st env handle prompt maxTokens temperature topP
                  topK throws) as Hn.
    pose proof (nativeGenerateText_present E st env handle prompt maxTokens temperature topP
                  topK throws) as Hp.
    destruct (nativeGenerateText E st env handle prompt maxTokens temperature topP topK throws)
      as [r st'] eqn:Hgen. cbn [fst snd issued_handles] in *.
    split; [exact Hn|]. split; [reflexivity|].
    intros [Hnext Hdom]. split; [lia|]. intros h Hh. rewrite Hn. apply Hdom, Hp, Hh.
  - cbn [fst snd issued_handles]. rewrite nativeCleanup_next_handle.
    split; [reflexivity|]. split; [reflexivity|].
    intros [Hnext Hdom]. unfold handles_wf. rewrite nativeCleanup_next_handle.
    split; [lia|]. intros h. rewrite nativeCleanup_lookup.
    case_decide; [intros [? ?]; discriminate|apply Hdom].
Qed.

Lemma run_no_loads (cs : list call) (st : globals E) :
  count_loads cs = 0%nat → issued_handles E cs (fst (run E st cs)) = [].
Proof.
  revert st. induction cs as [|c cs IH]; intros st Hcount; [reflexivity|].
  unfold count_loads in Hcount. cbn [List.filter] in Hcount.
  destruct (is_load c) eqn:Hc; [discriminate|].
  rewrite run_cons. cbn [fst]. rewrite issued_handles_cons.
  destruct (step_other st c Hc) as (_ & -> & _). apply IH, Hcount.
Qed.

(** The handles issued while the counter has room for the loads: none is
    below the counter, and each is above those before it. *)
Lemma run_handles_loads (cs : list call) (st : globals E) :
  handles_wf E st →
  g_next_handle E st + Z.of_nat (count_loads cs) <= JLONG_MAX + 1 →
  Forall (λ h, g_next_handle E st <= h) (issued_handles E cs (fst (run E st cs))) ∧
  StronglySorted Z.lt (issued_handles E cs (fst (run E st cs))).
Proof.
  revert st. induction cs as [|c cs IH]; intros st Hwf Hmax.
  { cbn [run fst issued_handles]. split; constructor. }
  rewrite run_cons. cbn [fst]. rewrite issued_handles_cons.
  unfold count_loads in Hmax. cbn [List.filter] in Hmax.
  destruct (is_load c) eqn:Hc.
  - cbn [length] in Hmax. fold (count_loads cs) in Hmax.
    destruct (decide (g_next_handle E st < JLONG_MAX)) as [Hlt|Hge].
    + destruct (step_handles E st c Hwf Hlt) as (Hwf1 & Hn1 & Hi1 & _).
      destruct (IH (snd (step E st c)) Hwf1 ltac:(lia)) as (Hi2 & Hs2).
      split.
      * apply Forall_app. split.
        -- eapply Forall_impl; [exact Hi1|]. cbn beta. intros h Hh. lia.
        -- eapply Forall_impl; [exact Hi2|]. cbn beta. intros h Hh. lia.
      * apply StronglySorted_app_2; [| | exact Hs2].
        -- intros h1 h2 Hh1 Hh2. rewrite Forall_forall in Hi1, Hi2.
           specialize (Hi1 h1 Hh1). specialize (Hi2 h2 Hh2). lia.
        -- destruct (issued_handles E [c] [fst (step E st c)]) as [|h [|h' l]] eqn:Hone;
             [constructor|repeat constructor|].
           exfalso. clear -Hone. destruct c, (fst (step E st _)); cbn in Hone; try discriminate.
           destruct (load_fails E _ _ _ _ _ _); discriminate.
    + assert (Hcount : count_loads cs = 0%nat) by lia.
      rewrite (run_no_loads cs _ Hcount), app_nil_r.
      destruct c as [env modelPath contextSize threads hw_threads seed throws| |];
        try discriminate. cbn [step].
      pose proof (nativeLoadModel_spec E st env modelPath contextSize threads hw_threads seed
                    throws) as Hspec. cbn zeta in Hspec.
      destruct (nativeLoadModel E st env modelPath contextSize threads hw_threads seed throws)
        as [h st'] eqn:Hload. cbn [fst snd issued_handles] in *.
      destruct (load_fails E env modelPath contextSize threads hw_threads throws).
      * split; constructor.
      * destruct Hspec as (-> & _). split; repeat constructor. lia.
  - fold (count_loads cs) in Hmax.
    destruct (step_other st c Hc) as (Hn & -> & Hwf1). cbn [app].
    rewrite <- Hn. apply IH; [apply Hwf1, Hwf|lia].
Qed.

(** C3 (as amended).  Along every sequence of calls from the initial globals
    that has at most [JLONG_MAX] load requests, the handles returned by the
    loads that did not fail are positive, so 0 is not among them, and
    strictly increasing in the order of issue, hence pairwise distinct; and
    every session in the registry is stored under one of them. *)
Theorem issued_handles_unique (cs : list call) :
  Z.of_nat (count_loads cs) <= JLONG_MAX →
  let rs := fst (run E (initial_globals E) cs) in
  let st := snd (run E (initial_globals E) cs) in
  let hs := issued_handles E cs rs in
  Forall (λ h, 0 < h) hs ∧ (0 ∉ hs) ∧ StronglySorted Z.lt hs ∧ NoDup hs ∧
  (∀ h, is_Some (get_context E st h) → h ∈ hs).
Proof.
  intros Hloads. cbn zeta.
  destruct (run_handles_loads cs (initial_globals E) (initial_globals_wf E)) as (Hi & Hs).
  { cbn [initial_globals g_next_handle]. lia. }
  cbn [initial_globals g_next_handle] in Hi.
  assert (Hpos : Forall (λ h, 0 < h)
                   (issued_handles E cs (fst (run E (initial_globals E) cs)))).
  { eapply Forall_impl; [exact Hi|]. cbn beta. intros h Hh. lia. }
  split; [exact Hpos|]. split; [|split; [exact Hs|split]].
  - intros H0. rewrite Forall_forall in Hpos. specialize (Hpos 0 H0). lia.
  - apply StronglySorted_lt_NoDup, Hs.
  - intros h Hh. destruct (run_keys_issued cs _ h Hh) as [[s Hempty]|Hin]; [|exact Hin].
    cbn [initial_globals g_contexts] in Hempty. rewrite lookup_empty in Hempty. discriminate.
Qed.

End Claims.

(** ** Sequences of loads of the small engine *)


(** The counter after [n] loads of the small engine, while it does not wrap. *)
Lemma toy_load_step (st : globals toy_engine) :
  fst (step toy_engine st toy_load) = ReplyLoad (g_next_handle toy_engine st) ∧
  g_next_handle toy_engine (snd (step toy_engine st toy_load))
  = to_jlong (g_next_handle toy_engine st + 1).
Proof.
  unfold toy_load. cbn [step].
  pose proof (nativeLoadModel_spec toy_engine st (Some toy_jni) (Some "model.gguf"%string)
                8 4 0 0 no_throw_load) as Hspec.
  cbn zeta in Hspec.
  change (load_fails toy_engine (Some toy_jni) (Some "model.gguf"%string) 8 4 0 no_throw_load)
    with false in Hspec.
  destruct (nativeLoadModel toy_engine st _ _ _ _ _ _ _) as [h st']. cbn [fst snd] in *.
  destruct Hspec as (-> & Hn & _). split; [reflexivity|exact Hn].
Qed.

Lemma toy_loads_counter (n : nat) :
  ∀ st : globals toy_engine,
    - 2 ^ 63 <= g_next_handle toy_engine st →
    g_next_handle toy_engine st + Z.of_nat n <= JLONG_MAX →
    g_next_handle toy_engine (snd (run toy_engine st (replicate n toy_load)))
    = g_next_handle toy_engine st + Z.of_nat n.
Proof.
  induction n as [|n IH]; intros st Hlo Hhi.
  - cbn [replicate run snd]. lia.
  - cbn [replicate]. rewrite run_cons. cbn [snd].
    destruct (toy_load_step st) as [_ Hn].
    rewrite to_jlong_small in Hn by (unfold JLONG_MAX in Hhi; lia).
    rewrite IH; rewrite Hn; unfold JLONG_MAX in *; lia.
Qed.

(** C3 as stated fails on a sequence of [2^63] loads: the last of them
    returns the counter after it has wrapped around, which is negative. *)
Lemma issued_handles_wrap :
  ¬ Forall (λ h, 0 < h)
      (issued_handles toy_engine many_loads
         (fst (run toy_engine (initial_globals toy_engine) many_loads))).
Proof.
  unfold many_loads.
  assert (Hn : ∃ n : nat, Z.to_nat (2 ^ 63) = (n + 2)%nat ∧ Z.of_nat n = 2 ^ 63 - 2).
  { exists (Z.to_nat (2 ^ 63 - 2)). split; lia. }
  destruct Hn as (n & -> & Hn).
  rewrite replicate_add. cbn [replicate].
  rewrite run_app. cbn [fst].
  rewrite issued_handles_app by (rewrite run_length; reflexivity).
  rewrite Forall_app. intros [_ Hlast].
  pose proof (toy_loads_counter n (initial_globals toy_engine)) as Hc.
  cbn [initial_globals g_next_handle] in Hc.
  specialize (Hc ltac:(lia) ltac:(unfold JLONG_MAX; lia)).
  set (st := snd (run toy_engine (initial_globals toy_engine) (replicate n toy_load))) in *.
  rewrite run_cons in Hlast. cbn [fst] in Hlast. rewrite run_cons in Hlast. cbn [fst] in Hlast.
  destruct (toy_load_step st) as [Hr1 Hn1].
  destruct (toy_load_step (snd (step toy_engine st toy_load))) as [Hr2 Hn2].
  rewrite Hr1, Hr2, Hn1, Hc in Hlast.
  cbn [run fst] in Hlast.
  unfold toy_load in Hlast. cbn [issued_handles] in Hlast.
  change (load_fails toy_engine (Some toy_jni) (Some "model.gguf"%string) 8 4 0 no_throw_load)
    with false in Hlast.
  cbn iota in Hlast.
  apply Forall_inv_tail, Forall_inv in Hlast.
  rewrite Hn in Hlast. vm_compute in Hlast. discriminate.
Qed.

(** ** The claims on generation *)

Section GenerationClaims.

Context (E : Engine).

Section Contracts.

Hypothesis tokenize_within :
  ∀ vocab text n_tokens_max add_special parse_special,
    0 <= n_tokens_max →
    fst (llama_tokenize E vocab text n_tokens_max add_special parse_special) <= n_tokens_max.
Hypothesis n_ctx_decode :
  ∀ c b, llama_n_ctx E (snd (llama_decode E c b)) = llama_n_ctx E c.
Hypothesis n_ctx_clear :
  ∀ c, llama_n_ctx E (llama_memory_clear E c) = llama_n_ctx E c.

(** The session a generation call leaves under its handle, when it changes
    the globals: its history is within the context length, which is the one
    the session had. *)
Lemma nativeGenerateText_history (st : globals E) (jni : JNIEnv) (handle : Z)
    (p : jstring) (maxTokens : Z) (temperature topP : float) (topK : Z)
    (throws : gen_point → option cpp_exception)
    (ctx : LlamaContext E) (m : llama_model E) (c : llama_context E) :
  handle ≠ 0 → get_context E st handle = Some ctx →
  model E ctx = Some m → context E ctx = Some c →
  let r := nativeGenerateText E st (Some jni) handle (Some p) maxTokens temperature topP topK
             throws in
  snd r = st ∨
  ∃ c' toks, snd r = update_session E st handle (session_of E ctx c' toks) ∧
             to_uint32 (llama_n_ctx E c') = to_uint32 (llama_n_ctx E c) ∧
             Z.of_nat (length toks) <= to_uint32 (llama_n_ctx E c).
Proof.
  intros H0 Hctx Hm Hc. cbn zeta.
  pose proof (nativeGenerateText_loop E tokenize_within n_ctx_decode n_ctx_clear st jni handle p
                maxTokens temperature topP topK throws ctx m c) as Hgen.
  rewrite (nativeGenerateText_unfold E st jni handle p maxTokens temperature topP topK throws
             ctx m c H0 Hctx Hm Hc) in *.
  destruct (generate_prefill E st jni handle (Some p) throws ctx m c) as [r|[s n_tokens]] eqn:Hpre.
  - clear Hgen. rewrite generate_prefill_unfold in Hpre. cbn zeta in Hpre.
    pose proof (to_uint32_range (llama_n_ctx E (llama_memory_clear E c))) as Hr.
    assert (Hhalf : to_uint32 (llama_n_ctx E (llama_memory_clear E c)) / 2
                    <= to_uint32 (llama_n_ctx E (llama_memory_clear E c))).
    { apply Z.div_le_upper_bound; lia. }
    destruct (prompt_tokens_bounds E tokenize_within m (llama_memory_clear E c)
                (jstring_to_string jni (Some p))) as [Hle Hbuf].
    unfold prompt_tokens in Hpre, Hle, Hbuf. cbn [fst snd] in Hpre, Hle, Hbuf.
    rewrite n_ctx_clear in *.
    destruct (throws GenInputString); [apply (inj inl) in Hpre; subst r; left; reflexivity|].
    destruct (String.eqb _ ""); [apply (inj inl) in Hpre; subst r; left; reflexivity|].
    destruct (throws GenResize).
    { apply (inj inl) in Hpre; subst r. right. eexists _, _. split; [reflexivity|].
      rewrite n_ctx_clear. split; [reflexivity|]. cbn [length]. lia. }
    match type of Hpre with context [?x <? 0] => destruct (Z.ltb_spec x 0) as [|Hge] end.
    { apply (inj inl) in Hpre; subst r. right. eexists _, _. split; [reflexivity|].
      rewrite n_ctx_clear. split; [reflexivity|]. lia. }
    destruct (negb _); [|discriminate].
    apply (inj inl) in Hpre; subst r. right. eexists _, _. split; [reflexivity|].
    rewrite n_ctx_decode, n_ctx_clear. split; [reflexivity|].
    rewrite vector_resize_length. lia.
  - destruct (Hgen s n_tokens H0 Hctx Hm Hc eq_refl)
      as (new & c' & Hn & Hlen & Hnew & _ & Hsnd & Hnc & _).
    cbn zeta in Hn, Hnew, Hsnd, Hnc. right. exists c', (gs_tokens E s ++ new).
    split; [exact Hsnd|]. split; [exact Hnc|]. rewrite length_app. lia.
Qed.

(** C4.  A generation call on a session with model and context, with an
    engine whose tokenizer returns no more than the capacity it is given and
    whose contexts keep their length.  When the call changes the globals,
    the history it leaves is no longer than the context length.  When the
    prompt is tokenized and decoded, it has at most half the context length
    of tokens; the ceiling of the loop is at most
    [min(max_tokens after the default, context length - prompt tokens)];
    in every turn that the loop comes to within the ceiling the history is
    the prompt tokens and one token for each turn before, and is no longer
    than the context length; and the history that the call leaves is the
    prompt tokens followed by at most that minimum of tokens. *)
Theorem nativeGenerateText_within_context (st : globals E) (jni : JNIEnv) (handle : Z)
    (p : jstring) (maxTokens : Z) (temperature topP : float) (topK : Z)
    (throws : gen_point → option cpp_exception)
    (ctx : LlamaContext E) (m : llama_model E) (c : llama_context E) :
  handle ≠ 0 → get_context E st handle = Some ctx →
  model E ctx = Some m → context E ctx = Some c →
  let r := nativeGenerateText E st (Some jni) handle (Some p) maxTokens temperature topP topK
             throws in
  let n_ctx := to_uint32 (llama_n_ctx E c) in
  let vocab := llama_model_get_vocab E m in
  (snd r = st ∨
   ∃ c' toks, get_context E (snd r) handle = Some (session_of E ctx c' toks) ∧
              to_uint32 (llama_n_ctx E c') = n_ctx ∧ Z.of_nat (length toks) <= n_ctx) ∧
  (∀ (s0 : gen_state E) (n_tokens : Z),
     generate_prefill E st jni handle (Some p) throws ctx m c = inr (s0, n_tokens) →
     let ceiling := max_gen_tokens E (default_max_tokens maxTokens) (gs_context E s0)
                      n_tokens in
     0 <= n_tokens <= n_ctx / 2 ∧
     Z.of_nat (length (gs_tokens E s0)) = n_tokens ∧
     ceiling <= Z.min (default_max_tokens maxTokens) (n_ctx - n_tokens) ∧
     (∀ (k : nat) (sk : gen_state E),
        loop_reaches E ctx vocab throws 0 s0 k sk → Z.of_nat k <= ceiling →
        Z.of_nat (length (gs_tokens E sk)) = n_tokens + Z.of_nat k ∧
        Z.of_nat (length (gs_tokens E sk)) <= n_ctx) ∧
     ∃ (new : list llama_token) (c' : llama_context E),
       get_context E (snd r) handle = Some (session_of E ctx c' (gs_tokens E s0 ++ new)) ∧
       Z.of_nat (length new) <= Z.min (default_max_tokens maxTokens) (n_ctx - n_tokens) ∧
       Z.of_nat (length (gs_tokens E s0 ++ new)) <= n_ctx).
Proof.
  intros H0 Hctx Hm Hc. cbn zeta. split.
  - destruct (nativeGenerateText_history st jni handle p maxTokens temperature topP topK throws
                ctx m c H0 Hctx Hm Hc) as [Hsame|(c' & toks & Hsnd & Hnc & Hlen)];
      [left; exact Hsame|right].
    exists c', toks. rewrite Hsnd. split; [|split; assumption].
    unfold get_context, update_session. cbn [set_contexts g_contexts]. apply lookup_insert_eq.
  - intros s0 n_tokens Hpre.
    destruct (nativeGenerateText_loop E tokenize_within n_ctx_decode n_ctx_clear st jni handle p
                maxTokens temperature topP topK throws ctx m c s0 n_tokens H0 Hctx Hm Hc Hpre)
      as (new & c' & Hn & Hlen & Hnew & _ & Hsnd & _ & _).
    cbn zeta in Hn, Hnew, Hsnd.
    assert (Hs0 : to_uint32 (llama_n_ctx E (gs_context E s0)) = to_uint32 (llama_n_ctx E c)).
    { rewrite generate_prefill_unfold in Hpre. cbn zeta in Hpre.
      destruct (throws GenInputString); [discriminate|].
      destruct (String.eqb _ ""); [discriminate|].
      destruct (throws GenResize); [discriminate|].
      destruct (_ <? 0); [discriminate|]. destruct (negb _); [discriminate|].
      injection Hpre as <- _. cbn [gs_context]. rewrite n_ctx_decode, n_ctx_clear.
      reflexivity. }
    pose proof (to_uint32_range (llama_n_ctx E c)) as Hr.
    assert (Hhalf : to_uint32 (llama_n_ctx E c) / 2 <= to_uint32 (llama_n_ctx E c)).
    { apply Z.div_le_upper_bound; lia. }
    pose proof (max_gen_tokens_le E (default_max_tokens maxTokens) (gs_context E s0) n_tokens)
      as Hmax.
    rewrite Hs0 in Hmax. specialize (Hmax ltac:(lia)).
    split; [exact Hn|]. split; [exact Hlen|]. split; [exact Hmax|]. split.
    + intros k sk Hreach Hk.
      destruct (loop_reaches_history E ctx _ throws 0 k s0 sk Hreach)
        as (new' & Hlen' & Htoks & _).
      rewrite Htoks, length_app. lia.
    + exists new, c'. rewrite Hsnd. split; [|split; [exact Hnew|rewrite length_app; lia]].
      unfold get_context, update_session. cbn [set_contexts g_contexts].
      apply lookup_insert_eq.
Qed.

End Contracts.

(** C6.  When the loop of a generation call comes, within its ceiling, to a
    turn in which the token selected ends the sequence, the call returns the
    text as it was before the turn (up to its first zero byte) and leaves
    the session with the history and the context as they were before the
    turn: the token is not turned into text, not appended and not decoded.
    The text before the turn is made of the texts of the tokens appended in
    the turns before, none of which ends the sequence. *)
Theorem generate_stops_at_eog (st : globals E) (jni : JNIEnv) (handle : Z)
    (p : jstring) (maxTokens : Z) (temperature topP : float) (topK : Z)
    (throws : gen_point → option cpp_exception)
    (ctx : LlamaContext E) (m : llama_model E) (c : llama_context E)
    (s0 : gen_state E) (n_tokens : Z) (k : nat) (sk : gen_state E) (logits : list float) :
  handle ≠ 0 → get_context E st handle = Some ctx →
  model E ctx = Some m → context E ctx = Some c →
  let r := nativeGenerateText E st (Some jni) handle (Some p) maxTokens temperature topP topK
             throws in
  let vocab := llama_model_get_vocab E m in
  generate_prefill E st jni handle (Some p) throws ctx m c = inr (s0, n_tokens) →
  loop_reaches E ctx vocab throws 0 s0 k sk →
  Z.of_nat k < max_gen_tokens E (default_max_tokens maxTokens) (gs_context E s0) n_tokens →
  llama_get_logits_ith E (gs_context E sk) (batch_n_tokens (gs_batch E sk) - 1) = Some logits →
  llama_vocab_is_eog E vocab
    (sample_token_greedy E (Some (session_of E ctx (gs_context E sk) (gs_tokens E sk)))
       (Some logits)) = true →
  r = (Some (c_str (gs_result E sk)),
       update_session E st handle (session_of E ctx (gs_context E sk) (gs_tokens E sk))) ∧
  ∃ new : list llama_token,
    length new = k ∧ gs_tokens E sk = gs_tokens E s0 ++ new ∧
    Forall (λ t, llama_vocab_is_eog E vocab t = false) new ∧
    gs_result E sk = pieces_text E vocab new.
Proof.
  intros H0 Hctx Hm Hc. cbn zeta. intros Hpre Hreach Hk Hlg Heog. split.
  - rewrite (nativeGenerateText_from_turn E st jni handle p maxTokens temperature topP topK
               throws ctx m c s0 n_tokens k sk H0 Hctx Hm Hc Hpre Hreach ltac:(lia)).
    cbn zeta.
    destruct (Z.to_nat (max_gen_tokens E (default_max_tokens maxTokens) (gs_context E s0)
                          n_tokens) - k)%nat as [|fuel] eqn:Hfuel; [lia|].
    rewrite generate_loop_S, generate_body_unfold, Hlg. cbn zeta. rewrite Heog. reflexivity.
  - destruct (loop_reaches_history E ctx _ throws 0 k s0 sk Hreach)
      as (new & Hlen & Htoks & Hne & Hres).
    exists new. split; [lia|]. split; [exact Htoks|]. split; [exact Hne|].
    rewrite Hres.
    rewrite generate_prefill_unfold in Hpre. cbn zeta in Hpre.
    destruct (throws GenInputString); [discriminate|].
    destruct (String.eqb _ ""); [discriminate|].
    destruct (throws GenResize); [discriminate|].
    destruct (_ <? 0); [discriminate|]. destruct (negb _); [discriminate|].
    injection Hpre as <- _. reflexivity.
Qed.

(** C7 (as amended).  In a generation call on a session with model and
    context: when the decoding of the prompt returns a non-zero result, the
    call returns "Error: Failed to decode prompt" and no text.  When the
    loop comes, within its ceiling, to a turn in which the output
    distribution is unavailable, the call returns the text so far; when it
    comes to a turn in which the decoding of the new token returns a
    non-zero result, the call returns the text so far with the text of that
    token.  The text returned is cut at its first zero byte. *)
Theorem generate_engine_failure_text (st : globals E) (jni : JNIEnv) (handle : Z)
    (p : jstring) (maxTokens : Z) (temperature topP : float) (topK : Z)
    (throws : gen_point → option cpp_exception)
    (ctx : LlamaContext E) (m : llama_model E) (c : llama_context E) :
  handle ≠ 0 → get_context E st handle = Some ctx →
  model E ctx = Some m → context E ctx = Some c →
  let r := nativeGenerateText E st (Some jni) handle (Some p) maxTokens temperature topP topK
             throws in
  let vocab := llama_model_get_vocab E m in
  (throws GenInputString = None → throws GenResize = None →
   jstring_to_string jni (Some p) ≠ ""%string →
   let c1 := llama_memory_clear E c in
   let n_tokens := fst (prompt_tokens E m c1 (jstring_to_string jni (Some p))) in
   let toks := vector_resize (snd (prompt_tokens E m c1 (jstring_to_string jni (Some p))))
                 n_tokens in
   0 <= n_tokens → fst (llama_decode E c1 (prompt_batch toks n_tokens)) ≠ 0 →
   fst r = Some "Error: Failed to decode prompt"%string) ∧
  (∀ (s0 : gen_state E) (n_tokens : Z) (k : nat) (sk : gen_state E),
     generate_prefill E st jni handle (Some p) throws ctx m c = inr (s0, n_tokens) →
     loop_reaches E ctx vocab throws 0 s0 k sk →
     Z.of_nat k < max_gen_tokens E (default_max_tokens maxTokens) (gs_context E s0) n_tokens →
     (llama_get_logits_ith E (gs_context E sk) (batch_n_tokens (gs_batch E sk) - 1) = None →
      r = (Some (c_str (gs_result E sk)),
           update_session E st handle
             (session_of E ctx (gs_context E sk) (gs_tokens E sk)))) ∧
     (∀ logits : list float,
        llama_get_logits_ith E (gs_context E sk) (batch_n_tokens (gs_batch E sk) - 1)
        = Some logits →
        let t := sample_token_greedy E
                   (Some (session_of E ctx (gs_context E sk) (gs_tokens E sk)))
                   (Some logits) in
        let b := next_batch (gs_batch E sk) t (Z.of_nat (length (gs_tokens E sk))) in
        llama_vocab_is_eog E vocab t = false →
        (0 < fst (llama_token_to_piece E vocab t 256 0 false) →
         throws (GenAppend k) = None) →
        throws (GenPushBack k) = None →
        fst (llama_decode E (gs_context E sk) b) ≠ 0 →
        r = (Some (c_str (gs_result E sk +:+ piece_text E vocab t)),
             update_session E st handle
               (session_of E ctx (snd (llama_decode E (gs_context E sk) b))
                  (gs_tokens E sk ++ [t])))) ∧
     ∃ new : list llama_token,
       gs_tokens E sk = gs_tokens E s0 ++ new ∧ gs_result E sk = pieces_text E vocab new).
Proof.
  intros H0 Hctx Hm Hc. cbn zeta. split.
  - intros Hin Hre Hne Hn Hrc.
    rewrite (nativeGenerateText_unfold E st jni handle p maxTokens temperature topP topK throws
               ctx m c H0 Hctx Hm Hc), generate_prefill_unfold.
    rewrite Hin, Hre. cbn zeta.
    destruct (String.eqb_spec (jstring_to_string jni (Some p)) "") as [?|_]; [contradiction|].
    destruct (Z.ltb_spec (fst (prompt_tokens E m (llama_memory_clear E c)
                                 (jstring_to_string jni (Some p)))) 0) as [?|_]; [lia|].
    destruct (Z.eqb_spec (fst (llama_decode E (llama_memory_clear E c)
                (prompt_batch
                   (vector_resize
                      (snd (prompt_tokens E m (llama_memory_clear E c)
                              (jstring_to_string jni (Some p))))
                      (fst (prompt_tokens E m (llama_memory_clear E c)
                              (jstring_to_string jni (Some p)))))
                   (fst (prompt_tokens E m (llama_memory_clear E c)
                           (jstring_to_string jni (Some p))))))) 0) as [?|_];
      [contradiction|].
    reflexivity.
  - intros s0 n_tokens k sk Hpre Hreach Hk.
    pose proof (nativeGenerateText_from_turn E st jni handle p maxTokens temperature topP topK
                  throws ctx m c s0 n_tokens k sk H0 Hctx Hm Hc Hpre Hreach ltac:(lia)) as Hr.
    cbn zeta in Hr.
    destruct (Z.to_nat (max_gen_tokens E (default_max_tokens maxTokens) (gs_context E s0)
                          n_tokens) - k)%nat as [|fuel] eqn:Hfuel; [lia|].
    rewrite generate_loop_S, generate_body_unfold in Hr.
    split; [|split].
    + intros Hlg. rewrite Hlg in Hr. exact Hr.
    + intros logits Hlg Heog Ha Hp Hrc. rewrite Hlg in Hr. cbn zeta in Hr.
      rewrite Heog, Hp in Hr.
      destruct (Z.ltb_spec 0 (fst (llama_token_to_piece E (llama_model_get_vocab E m)
                  (sample_token_greedy E
                     (Some (session_of E ctx (gs_context E sk) (gs_tokens E sk)))
                     (Some logits)) 256 0 false))) as [Hlen|_].
      * rewrite (Ha Hlen) in Hr.
        destruct (Z.eqb_spec (fst (llama_decode E (gs_context E sk)
                    (next_batch (gs_batch E sk)
                       (sample_token_greedy E
                          (Some (session_of E ctx (gs_context E sk) (gs_tokens E sk)))
                          (Some logits)) (Z.of_nat (length (gs_tokens E sk)))))) 0) as [?|_];
          [contradiction|].
        exact Hr.
      * destruct (Z.eqb_spec (fst (llama_decode E (gs_context E sk)
                    (next_batch (gs_batch E sk)
                       (sample_token_greedy E
                          (Some (session_of E ctx (gs_context E sk) (gs_tokens E sk)))
                          (Some logits)) (Z.of_nat (length (gs_tokens E sk)))))) 0) as [?|_];
          [contradiction|].
        exact Hr.
    + destruct (loop_reaches_history E ctx _ throws 0 k s0 sk Hreach)
        as (new & Hlen & Htoks & Hne & Hres).
      exists new. split; [exact Htoks|]. rewrite Hres.
      rewrite generate_prefill_unfold in Hpre. cbn zeta in Hpre.
      destruct (throws GenInputString); [discriminate|].
      destruct (String.eqb _ ""); [discriminate|].
      destruct (throws GenResize); [discriminate|].
      destruct (_ <? 0); [discriminate|]. destruct (negb _); [discriminate|].
      injection Hpre as <- _. reflexivity.
Qed.


Section Reset.

Hypothesis clear_decode :
  ∀ c b, llama_memory_clear E (snd (llama_decode E c b)) = llama_memory_clear E c.
Hypothesis clear_clear :
  ∀ c, llama_memory_clear E (llama_memory_clear E c) = llama_memory_clear E c.

(** C8.  With an engine whose [llama_memory_clear] resets the context
    whatever was decoded into it: a generation call on a session with model
    and context, repeated with the same prompt and parameters (and the same
    behaviour of the runtime), returns the same text as the first.  What a
    call returns and leaves does not depend on the history of the session,
    nor on what was decoded into its context: the call clears both before it
    reads them. *)
Theorem generate_twice_same_text (st : globals E) (jni : JNIEnv) (handle : Z)
    (p : jstring) (maxTokens : Z) (temperature topP : float) (topK : Z)
    (throws : gen_point → option cpp_exception)
    (ctx : LlamaContext E) (m : llama_model E) (c : llama_context E) :
  handle ≠ 0 → get_context E st handle = Some ctx →
  model E ctx = Some m → context E ctx = Some c →
  let gen st := nativeGenerateText E st (Some jni) handle (Some p) maxTokens temperature topP
                  topK throws in
  fst (gen (snd (gen st))) = fst (gen st) ∧
  (∀ (c' : llama_context E) (toks : list llama_token),
     llama_memory_clear E c' = llama_memory_clear E c →
     let st' := update_session E st handle (session_of E ctx c' toks) in
     fst (gen st') = fst (gen st) ∧
     (snd (gen st') = snd (gen st) ∨ (snd (gen st) = st ∧ snd (gen st') = st'))).
Proof.
  intros H0 Hctx Hm Hc. cbn zeta. split.
  - destruct (nativeGenerateText_leaves E clear_decode clear_clear st (Some jni) handle (Some p)
                maxTokens temperature topP topK throws)
      as [->|(ctx1 & m1 & c1 & c' & toks & Hctx1 & Hm1 & Hc1 & Hclear & ->)]; [reflexivity|].
    apply (nativeGenerateText_alike E st handle ctx1 m1 c1 c' toks (Some jni) handle (Some p)
             maxTokens temperature topP topK throws Hctx1 Hm1 Hc1 Hclear).
  - intros c' toks Hclear.
    destruct (nativeGenerateText_alike E st handle ctx m c c' toks (Some jni) handle (Some p)
                maxTokens temperature topP topK throws Hctx Hm Hc Hclear) as [Htext Hstate].
    split; [exact Htext|]. apply Hstate. reflexivity.
Qed.

End Reset.

End GenerationClaims.

(** ** Generation claims on concrete inputs *)

(** C7 as stated fails when the text has a zero byte: the loop of this call
    appends the text of token 1 and stops on the failing [llama_decode];
    the text so far is [nul_text], and the call returns "a". *)
Lemma generate_text_cut :
  fst (nativeGenerateText nul_engine nul_loaded (Some toy_jni) 1 (Some "!"%string) 10
         1%float 1%float 40 no_throw_gen) = Some "a"%string ∧
  get_context nul_engine
    (snd (nativeGenerateText nul_engine nul_loaded (Some toy_jni) 1 (Some "!"%string) 10
            1%float 1%float 40 no_throw_gen)) 1
  = Some (Build_LlamaContext nul_engine (Some tt) (Some (8, [0])) [0; 1] 0) ∧
  pieces_text nul_engine tt [1] = nul_text ∧
  fst (nativeGenerateText nul_engine nul_loaded (Some toy_jni) 1 (Some "!"%string) 10
         1%float 1%float 40 no_throw_gen) ≠ Some (pieces_text nul_engine tt [1]).
Proof.
  split; [reflexivity|]. split; [reflexivity|]. split; [reflexivity|].
  intros H. vm_compute in H. discriminate.
Qed.


(** ** The claims on concrete inputs of the small engine *)

(** Two loads around the cleanup of the first handle: the second load does
    not get the handle of the first. *)
Lemma issued_handles_unique_toy :
  issued_handles toy_engine toy_reload
    (fst (run toy_engine (initial_globals toy_engine) toy_reload)) = [1; 2] ∧
  StronglySorted Z.lt
    (issued_handles toy_engine toy_reload
       (fst (run toy_engine (initial_globals toy_engine) toy_reload))).
Proof.
  split; [reflexivity|].
  exact (proj1 (proj2 (proj2 (issued_handles_unique toy_engine toy_reload
                                ltac:(vm_compute; discriminate))))).
Defined.

(** From "!" in a context of length 8 the call leaves the prompt token and
    at most 7 more. *)
Lemma nativeGenerateText_within_context_toy :
  ∃ (new : list llama_token) (c' : Z * list llama_token),
    get_context toy_engine
      (snd (nativeGenerateText toy_engine toy_loaded (Some toy_jni) 1 (Some "!"%string) 10
              1%float 1%float 40 no_throw_gen)) 1
    = Some (session_of toy_engine toy_session c' ([0] ++ new)) ∧
    Z.of_nat (length new) <= 7.
Proof.
  destruct (proj2 (nativeGenerateText_within_context toy_engine toy_tokenize_within
                     toy_n_ctx_decode toy_n_ctx_clear toy_loaded toy_jni 1 "!"%string 10
                     1%float 1%float 40 no_throw_gen toy_session tt (8, [])
                     ltac:(discriminate) eq_refl eq_refl eq_refl) toy_start 1 eq_refl)
    as (_ & _ & _ & _ & new & c' & Hget & Hnew & _).
  exists new, c'. split; [exact Hget|exact Hnew].
Defined.

(** The third turn of the call selects token 3, which ends the sequence: the
    call returns the text of tokens 1 and 2 and leaves token 3 out of the
    history. *)
Lemma generate_stops_at_eog_toy :
  nativeGenerateText toy_engine toy_loaded (Some toy_jni) 1 (Some "!"%string) 10
    1%float 1%float 40 no_throw_gen
  = (Some "b"%string,
     update_session toy_engine toy_loaded 1
       (session_of toy_engine toy_session (8, [0; 1; 2]) [0; 1; 2])).
Proof.
  assert (Hreach : loop_reaches toy_engine toy_session tt no_throw_gen 0 toy_start 2 toy_turn2).
  { apply reaches_turn; [reflexivity|]. apply reaches_turn; [reflexivity|]. apply reaches_here. }
  exact (proj1 (generate_stops_at_eog toy_engine toy_loaded toy_jni 1 "!"%string 10
                  1%float 1%float 40 no_throw_gen toy_session tt (8, []) toy_start 1 2%nat
                  toy_turn2 [0%float; 0%float; 0%float; 1%float]
                  ltac:(discriminate) eq_refl eq_refl eq_refl eq_refl Hreach eq_refl eq_refl
                  eq_refl)).
Defined.

(** The first turn of the call on [nul_engine] appends [nul_text] and the
    decoding of its token fails: the call returns the text up to the zero
    byte. *)
Lemma generate_engine_failure_text_nul :
  nativeGenerateText nul_engine nul_loaded (Some toy_jni) 1 (Some "!"%string) 10
    1%float 1%float 40 no_throw_gen
  = (Some "a"%string,
     update_session nul_engine nul_loaded 1
       (session_of nul_engine nul_session (8, [0]) [0; 1])).
Proof.
  exact (proj1 (proj2 (proj2 (generate_engine_failure_text nul_engine nul_loaded toy_jni 1
                                "!"%string 10 1%float 1%float 40 no_throw_gen nul_session tt
                                (8, []) ltac:(discriminate) eq_refl eq_refl eq_refl)
                         nul_start 1 0%nat nul_start eq_refl
                         (reaches_here nul_engine nul_session tt no_throw_gen 0%nat nul_start)
                         eq_refl))
           [0%float; 1%float; 0%float; 0%float] eq_refl eq_refl (λ _, eq_refl) eq_refl
           ltac:(vm_compute; discriminate)).
Defined.

(** The call on the loaded session, made twice. *)
Lemma generate_twice_same_text_toy :
  fst (nativeGenerateText toy_engine
         (snd (nativeGenerateText toy_engine toy_loaded (Some toy_jni) 1 (Some "!"%string) 10
                 1%float 1%float 40 no_throw_gen))
         (Some toy_jni) 1 (Some "!"%string) 10 1%float 1%float 40 no_throw_gen)
  = Some "b"%string.
Proof.
  etransitivity; [|reflexivity].
  exact (proj1 (generate_twice_same_text toy_engine toy_clear_decode toy_clear_clear
                  toy_loaded toy_jni 1 "!"%string 10 1%float 1%float 40 no_throw_gen
                  toy_session tt (8, []) ltac:(discriminate) eq_refl eq_refl eq_refl)).
Defined.

